(** * configtest: reflective walkers over configuration values

    A shallow embedding of [config/configtest/configtest.go]: the three
    reflective walkers [setFile], [assertFile] and [setDirectory], their
    exported entry points, and the field options [IncludeField] and
    [ExcludeField].

    Go values are modelled as finite trees ([value]) whose pointers are
    addresses into a heap of allocated objects.  Each walker threads a
    [state] holding the heap, the [seen] set of the call, the failures
    reported to [testing.TB], and a ghost trace of walker events. *)

From Stdlib Require Import List String Ascii Bool Arith Lia PeanoNat.
From Stdlib Require Import DecimalString Permutation.
Import ListNotations.
Open Scope string_scope.

Set Warnings "-register-all".

(** ** reflect.Type *)

(** The kinds of [reflect.Kind] that the walkers distinguish.  [KOther]
    stands for the numeric, boolean and complex kinds. *)
Inductive kind : Type :=
| KString | KOther | KPtr | KStruct | KMap | KSlice | KArray
| KInterface | KChan | KFunc | KUnsafePointer.

(** A [reflect.Type].  Named types carry their name; the empty name is the
    unnamed (literal) type.  A struct type lists the names of its fields,
    which is what [Type.FieldByName] consults.  Types are finite trees: a
    recursive struct refers to itself through [TPtr (TStruct ..)] values of
    the same name, and embedded-field promotion is not modelled. *)
Inductive type : Type :=
| TBasic (k : kind) (name : string)
| TPtr (elem : type)
| TStruct (name : string) (fieldNames : list string)
| TSlice (name : string) (elem : type)
| TArray (len : nat) (elem : type)
| TMap (name : string) (key elem : type)
| TInterface (name : string).

Definition Kind (t : type) : kind :=
  match t with
  | TBasic k _ => k
  | TPtr _ => KPtr
  | TStruct _ _ => KStruct
  | TSlice _ _ => KSlice
  | TArray _ _ => KArray
  | TMap _ _ _ => KMap
  | TInterface _ => KInterface
  end.

Definition kind_eq_dec (a b : kind) : {a = b} + {a <> b}.
Proof. decide equality. Defined.

Definition kind_eqb (a b : kind) : bool :=
  if kind_eq_dec a b then true else false.

Fixpoint type_eq_dec (a b : type) {struct a} : {a = b} + {a <> b}.
Proof.
  decide equality;
    try apply string_dec; try apply kind_eq_dec;
    try apply Nat.eq_dec; try (apply list_eq_dec; apply string_dec).
Defined.

Definition type_eqb (a b : type) : bool :=
  if type_eq_dec a b then true else false.

(** [stringTyp = reflect.TypeOf("")] and
    [stringSliceTyp = reflect.TypeOf([]string{})]. *)
Definition stringTyp : type := TBasic KString "string".
Definition stringSliceTyp : type := TSlice "" stringTyp.

(** [config.Secret] is [type Secret string]: kind String, but a type of its
    own. *)
Definition secretTyp : type := TBasic KString "config.Secret".

(** ** strings.HasSuffix, strings.TrimSuffix, decimal indices *)

Definition HasSuffix (s suffix : string) : bool :=
  Nat.leb (String.length suffix) (String.length s) &&
  String.eqb
    (substring (String.length s - String.length suffix)
               (String.length suffix) s)
    suffix.

Definition TrimSuffix (s suffix : string) : string :=
  if HasSuffix s suffix
  then substring 0 (String.length s - String.length suffix) s
  else s.

(** [%d] of a non-negative index. *)
Definition itoa (n : nat) : string := NilEmpty.string_of_uint (Nat.to_uint n).

(** A Go identifier is exported when it starts with an upper-case letter
    (ASCII letters here). *)
Definition exported (name : string) : bool :=
  match name with
  | EmptyString => false
  | String c _ =>
      let n := nat_of_ascii c in Nat.leb 65 n && Nat.leb n 90
  end.

(** ** Values *)

Definition addr : Type := nat.

(** A Go value together with its static type.  A pointer holds the address
    of a heap object, or nothing when nil.  Slices and maps hold their
    elements; a nil slice, map or interface holds nothing.  Backing arrays
    and maps are owned by the value that holds them: sharing or cycles that
    go through a slice or map header alone, and pointers into the interior
    of an object, are outside the model. *)
Inductive value : Type :=
| VString (t : type) (s : string)
| VOther (t : type) (n : nat)
| VPtr (t : type) (p : option addr)
| VStruct (t : type) (fs : list (string * value))
| VSlice (t : type) (es : option (list value))
| VArray (t : type) (es : list value)
| VMap (t : type) (kvs : option (list (value * value)))
| VIface (t : type) (x : option value)
| VOpaque (t : type) (isnil : bool).

(** [val.Type()]. *)
Definition typeOf (v : value) : type :=
  match v with
  | VString t _ | VOther t _ | VPtr t _ | VStruct t _ | VSlice t _
  | VArray t _ | VMap t _ | VIface t _ | VOpaque t _ => t
  end.

(** [val.Kind()], read off the shape of the value. *)
Definition kindOf (v : value) : kind :=
  match v with
  | VString _ _ => KString
  | VOther _ _ => KOther
  | VPtr _ _ => KPtr
  | VStruct _ _ => KStruct
  | VSlice _ _ => KSlice
  | VArray _ _ => KArray
  | VMap _ _ => KMap
  | VIface _ _ => KInterface
  | VOpaque t _ => Kind t
  end.

(** Where a [reflect.Value] lives: not addressable, the heap object at an
    address (the [Elem] of a pointer), or an addressable part of a larger
    object (a field of an addressable struct, an element of a slice). *)
Inductive place : Type :=
| Unaddressable
| Cell (a : addr)
| Inside.

Definition CanAddr (pl : place) : bool :=
  match pl with Unaddressable => false | _ => true end.

(** The place of a field or of an array element: addressable when its
    holder is. *)
Definition sub_place (pl : place) : place :=
  match pl with Unaddressable => Unaddressable | _ => Inside end.

(** [isNil]. *)
Definition isNil (val : value) : bool :=
  match val with
  | VPtr _ None => true
  | VMap _ None => true
  | VSlice _ None => true
  | VIface _ None => true
  | VOpaque t isnil =>
      match Kind t with
      | KChan | KFunc | KUnsafePointer => isnil
      | _ => false
      end
  | _ => false
  end.

(** [t.String()], as [%v] prints a type.  A named type prints its name. *)
Fixpoint type_string (t : type) : string :=
  match t with
  | TBasic _ name => name
  | TPtr e => "*" ++ type_string e
  | TStruct name _ => name
  | TSlice name e =>
      if String.eqb name "" then "[]" ++ type_string e else name
  | TArray n e => "[" ++ itoa n ++ "]" ++ type_string e
  | TMap name k e =>
      if String.eqb name ""
      then "map[" ++ type_string k ++ "]" ++ type_string e
      else name
  | TInterface name => name
  end.

(** [v.String()]: the contents of a string, and Go's [<T Value>] rendering
    of anything else. *)
Definition String_of (v : value) : string :=
  match v with
  | VString _ s => s
  | _ => "<" ++ type_string (typeOf v) ++ " Value>"
  end.

(** [v.SetString(s)]: the value keeps its type. *)
Definition SetString (v : value) (s : string) : value :=
  VString (typeOf v) s.

(** [reflect.ValueOf([]string{file})]. *)
Definition single_file (file : string) : value :=
  VSlice stringSliceTyp (Some [VString stringTyp file]).

(** [val.Len()] and the indexed elements of a slice. *)
Definition elems_of (v : value) : list value :=
  match v with
  | VSlice _ (Some es) => es
  | VArray _ es => es
  | _ => []
  end.

(** ** Field options *)

(** [field{Struct, Name}], the key of the include and exclude maps. *)
Definition field : Type := (type * string)%type.

Definition field_eqb (a b : field) : bool :=
  type_eqb (fst a) (fst b) && String.eqb (snd a) (snd b).

(** [fields]: the two maps, read as their characteristic functions (a nil
    map reads false everywhere). *)
Record fields : Type := mkFields {
  include : field -> bool;
  exclude : field -> bool
}.

Definition no_fields : fields :=
  mkFields (fun _ => false) (fun _ => false).

(** [m[key] = true]. *)
Definition map_set (m : field -> bool) (key : field) : field -> bool :=
  fun k => if field_eqb key k then true else m k.

Definition FieldOption : Type := fields -> fields.

Inductive panic : Type :=
| InvalidStruct (t : type) (k : kind)
| InvalidField (name : string) (t : type).

Inductive result (A : Type) : Type :=
| Ok (a : A)
| Panic (p : panic).
Arguments Ok {A} a.
Arguments Panic {A} p.

(** [ptrType]. *)
Fixpoint ptrType (typ : type) : type :=
  match typ with
  | TPtr e => ptrType e
  | _ => typ
  end.

(** [typ.FieldByName(name)] on a struct type, as its [found] result. *)
Definition Type_FieldByName (typ : type) (name : string) : bool :=
  match typ with
  | TStruct _ names =>
      negb (String.eqb name "") && existsb (String.eqb name) names
  | _ => false
  end.

(** [structField], given [reflect.TypeOf(strukt)]. *)
Definition structField (struktTyp : type) (name : string) : result field :=
  let typ := ptrType struktTyp in
  if negb (kind_eqb (Kind typ) KStruct)
  then Panic (InvalidStruct typ (Kind typ))
  else if negb (Type_FieldByName typ name)
  then Panic (InvalidField name typ)
  else Ok (typ, name).

Definition IncludeField (strukt : value) (name : string)
  : result FieldOption :=
  match structField (typeOf strukt) name with
  | Panic p => Panic p
  | Ok key =>
      Ok (fun o => mkFields (map_set (include o) key) (exclude o))
  end.

Definition ExcludeField (strukt : value) (name : string)
  : result FieldOption :=
  match structField (typeOf strukt) name with
  | Panic p => Panic p
  | Ok key =>
      Ok (fun o => mkFields (include o) (map_set (exclude o) key))
  end.

(** [opts := &fields{}; for _, fn := range options { fn(opts) }]. *)
Definition apply_options (options : list FieldOption) : fields :=
  fold_left (fun o fn => fn o) options no_fields.

(** ** Walker state *)

(** A failure reported through [t.Errorf]: the formatted location, the
    value found and the value wanted. *)
Record failure : Type := mkFailure {
  fpath : string;
  fgot : string;
  fwant : string
}.

(** The receiver of a [SetDirectory] call made by the walker: the object
    at an address, the address of an addressable part of type [t], or a
    value of type [t] that is not a pointer to an object (a slice, a map,
    a nil pointer). *)
Inductive receiver : Type :=
| RPtr (a : addr)
| RAddrOf (t : type)
| RValue (t : type).

(** Ghost events: a non-nil pointer met by a walker, the walker's descent
    through a pointer (its call on [val.Elem()]), and a call of the
    capability. *)
Inductive event : Type :=
| Reach (a : addr)
| Descend (a : addr)
| Invoke (r : receiver).

Record state : Type := mkState {
  heap : list value;
  seen : list addr;
  errs : list failure;
  trace : list event
}.

Definition init_state (h : list value) : state := mkState h [] [] [].

(** [seen[key]] and [seen[key] = true]. *)
Definition seen_mem (a : addr) (st : state) : bool :=
  existsb (Nat.eqb a) (seen st).

Definition mark (a : addr) (st : state) : state :=
  mkState (heap st) (a :: seen st) (errs st) (trace st).

Definition log (e : event) (st : state) : state :=
  mkState (heap st) (seen st) (errs st) (trace st ++ [e]).

Definition Errorf (f : failure) (st : state) : state :=
  mkState (heap st) (seen st) (errs st ++ [f]) (trace st).

Fixpoint set_nth {A : Type} (i : nat) (x : A) (l : list A) : list A :=
  match l, i with
  | [], _ => []
  | _ :: l', 0 => x :: l'
  | y :: l', S i' => y :: set_nth i' x l'
  end.

(** Writing through a pointer: the object at [a] becomes [v]. *)
Definition store (a : addr) (v : value) (st : state) : state :=
  mkState (set_nth a v (heap st)) (seen st) (errs st) (trace st).

(** [vf.CanSet()] for the field [name] of a struct at [pl]. *)
Definition CanSet (pl : place) (name : string) : bool :=
  CanAddr pl && exported name.

(** [val.FieldByName(name)]: the index of the field, if there is one. *)
Fixpoint FieldByName (fs : list (string * value)) (name : string)
  : option nat :=
  match fs with
  | [] => None
  | (n, _) :: fs' =>
      if negb (String.eqb name "") && String.eqb n name then Some 0
      else option_map S (FieldByName fs' name)
  end.

Notation "'let*' p ':=' e 'in' k" :=
  (match e with Some p => k | None => None end)
  (at level 10, p pattern, e at level 100, k at level 200).

(** ** The walkers *)

(** The loops of the walkers over the elements of a slice or array and
    over the entries of a map, for a walker [rec] that returns the value
    as the walk leaves it. *)
Fixpoint walk_elems (rec : value -> state -> option (value * state))
    (es : list value) (st : state) : option (list value * state) :=
  match es with
  | [] => Some ([], st)
  | e :: es' =>
      let* (e', st1) := rec e st in
      let* (es'', st2) := walk_elems rec es' st1 in
      Some (e' :: es'', st2)
  end.

Fixpoint walk_entries (rec : value -> state -> option (value * state))
    (kvs : list (value * value)) (st : state)
  : option (list (value * value) * state) :=
  match kvs with
  | [] => Some ([], st)
  | (k, v) :: kvs' =>
      let* (k', st1) := rec k st in
      let* (v', st2) := rec v st1 in
      let* (kvs'', st3) := walk_entries rec kvs' st2 in
      Some ((k', v') :: kvs'', st3)
  end.

(** The two classification tests shared by [setFile] and [assertFile]. *)
Definition is_file (opts : fields) (key : field) (vf : value) : bool :=
  type_eqb (typeOf vf) stringTyp &&
  (HasSuffix (snd key) "File" || include opts key).

Definition is_files (opts : fields) (key : field) (vf : value) : bool :=
  type_eqb (typeOf vf) stringSliceTyp &&
  (HasSuffix (snd key) "Files" || include opts key).

(** "Clear the string field, if it exists." *)
Definition clear_sibling (name : string) (fs : list (string * value))
  : list (string * value) :=
  match FieldByName fs (TrimSuffix name "File") with
  | None => fs
  | Some j =>
      match nth_error fs j with
      | None => fs
      | Some (sname, sf) =>
          if kind_eqb (Kind (typeOf sf)) KString
          then set_nth j (sname, SetString sf "") fs
          else fs
      end
  end.

(** The field loop of [setFile], for the fields [i], [i+1], ... of a struct
    of type [typ] at [pl]; [n] counts the fields still to do. *)
Fixpoint setFile_fields (rec : value -> state -> option (value * state))
    (file : string) (opts : fields) (typ : type) (pl : place)
    (n i : nat) (fs : list (string * value)) (st : state)
  : option (list (string * value) * state) :=
  match n with
  | 0 => Some (fs, st)
  | S n' =>
      match nth_error fs i with
      | None => Some (fs, st)
      | Some (name, vf) =>
          let key := (typ, name) in
          if negb (CanSet pl name) || exclude opts key
          then setFile_fields rec file opts typ pl n' (S i) fs st
          else if is_file opts key vf then
            let fs1 := clear_sibling name fs in
            let fs2 := set_nth i (name, SetString vf file) fs1 in
            setFile_fields rec file opts typ pl n' (S i) fs2 st
          else if is_files opts key vf then
            let fs1 := set_nth i (name, single_file file) fs in
            setFile_fields rec file opts typ pl n' (S i) fs1 st
          else
            let* (vf', st1) := rec vf st in
            setFile_fields rec file opts typ pl n' (S i)
              (set_nth i (name, vf') fs) st1
      end
  end.

(** [setFile].  The result is the value as the walk leaves it, with the
    state.  [None] is an exhausted [fuel] and nothing else.  Go has no
    dangling pointers; an address outside the heap is walked as an object
    without parts. *)
Fixpoint setFile (fuel : nat) (file : string) (opts : fields)
    (pl : place) (val : value) (st : state) {struct fuel}
  : option (value * state) :=
  match fuel with
  | 0 => None
  | S fuel' =>
      if isNil val then Some (val, st) else
      match val with
      | VPtr t (Some a) =>
          let st0 := log (Reach a) st in
          if seen_mem a st0 then Some (val, st0)
          else
            let st1 := log (Descend a) (mark a st0) in
            match nth_error (heap st1) a with
            | None => Some (val, st1)
            | Some target =>
                let* (target', st2) :=
                  setFile fuel' file opts (Cell a) target st1 in
                Some (val, store a target' st2)
            end
      | VStruct t fs =>
          let* (fs', st1) :=
            setFile_fields (setFile fuel' file opts (sub_place pl))
              file opts t pl (List.length fs) 0 fs st in
          Some (VStruct t fs', st1)
      | VMap t (Some kvs) =>
          let* (kvs', st1) :=
            walk_entries (setFile fuel' file opts Unaddressable) kvs st in
          Some (VMap t (Some kvs'), st1)
      | VSlice t (Some es) =>
          let* (es', st1) :=
            walk_elems (setFile fuel' file opts Inside) es st in
          Some (VSlice t (Some es'), st1)
      | VArray t es =>
          let* (es', st1) :=
            walk_elems (setFile fuel' file opts (sub_place pl)) es st in
          Some (VArray t es', st1)
      | VIface t (Some x) =>
          let* (x', st1) := setFile fuel' file opts Unaddressable x st in
          Some (VIface t (Some x'), st1)
      | _ => Some (val, st)
      end
  end.

(** [SetFile]: the options are applied to fresh [fields], and the walk
    starts from [reflect.ValueOf(config)] with an empty [seen]. *)
Definition SetFile (fuel : nat) (h : list value) (config : value)
    (path : string) (options : list FieldOption)
  : option (value * state) :=
  setFile fuel path (apply_options options) Unaddressable config
    (init_state h).

(** [ifaceType]. *)
Fixpoint ifaceType (val : value) : type :=
  match val with
  | VIface _ (Some x) => ifaceType x
  | _ => typeOf val
  end.

Section Assert.

(** [fmt]'s [%v] rendering of a map key, which the walker only calls. *)
Variable Sprint : value -> string.

(** The loop over the elements of a file-like [[]string] field. *)
Fixpoint assert_strings (path want : string) (j : nat) (es : list value)
    (st : state) : bool * state :=
  match es with
  | [] => (true, st)
  | e :: es' =>
      let got := String_of e in
      if String.eqb got want
      then assert_strings path want (S j) es' st
      else
        let st1 :=
          Errorf (mkFailure (path ++ "[" ++ itoa j ++ "]") got want) st in
        let (_, st2) := assert_strings path want (S j) es' st1 in
        (false, st2)
  end.

Fixpoint assert_elems
    (rec : string -> value -> state -> option (bool * state))
    (path : string) (i : nat) (es : list value) (st : state)
  : option (bool * state) :=
  match es with
  | [] => Some (true, st)
  | e :: es' =>
      let* (b, st1) := rec (path ++ "[" ++ itoa i ++ "]") e st in
      let* (ok, st2) := assert_elems rec path (S i) es' st1 in
      Some (b && ok, st2)
  end.

Fixpoint assert_entries
    (rec : string -> value -> state -> option (bool * state))
    (path : string) (kvs : list (value * value)) (st : state)
  : option (bool * state) :=
  match kvs with
  | [] => Some (true, st)
  | (k, v) :: kvs' =>
      let keyPath := "(" ++ type_string (ifaceType k) ++ ")" in
      let* (bk, st1) := rec keyPath k st in
      let valPath := path ++ "[" ++ Sprint k ++ "]" in
      let* (bv, st2) := rec valPath v st1 in
      let* (ok, st3) := assert_entries rec path kvs' st2 in
      Some (bk && bv && ok, st3)
  end.

(** The field loop of [assertFile]. *)
Fixpoint assertFile_fields
    (rec : string -> value -> state -> option (bool * state))
    (path want : string) (opts : fields) (typ : type) (pl : place)
    (fs : list (string * value)) (st : state) : option (bool * state) :=
  match fs with
  | [] => Some (true, st)
  | (name, vf) :: fs' =>
      let key := (typ, name) in
      if negb (CanSet pl name) || exclude opts key
      then assertFile_fields rec path want opts typ pl fs' st
      else if is_file opts key vf then
        let got := String_of vf in
        if String.eqb got want
        then assertFile_fields rec path want opts typ pl fs' st
        else
          let st1 := Errorf (mkFailure (path ++ "." ++ name) got want) st in
          let* (_, st2) :=
            assertFile_fields rec path want opts typ pl fs' st1 in
          Some (false, st2)
      else if is_files opts key vf then
        let (b, st1) :=
          assert_strings (path ++ "." ++ name) want 0 (elems_of vf) st in
        let* (ok, st2) :=
          assertFile_fields rec path want opts typ pl fs' st1 in
        Some (b && ok, st2)
      else
        let* (b, st1) := rec (path ++ "." ++ name) vf st in
        let* (ok, st2) :=
          assertFile_fields rec path want opts typ pl fs' st1 in
        Some (b && ok, st2)
  end.

(** [assertFile]: the boolean it returns, and the state with the failures
    it reported. *)
Fixpoint assertFile (fuel : nat) (path : string) (pl : place)
    (val : value) (want : string) (opts : fields) (st : state)
    {struct fuel} : option (bool * state) :=
  match fuel with
  | 0 => None
  | S fuel' =>
      if isNil val then Some (true, st) else
      match val with
      | VPtr t (Some a) =>
          let st0 := log (Reach a) st in
          if seen_mem a st0 then Some (true, st0)
          else
            let st1 := log (Descend a) (mark a st0) in
            match nth_error (heap st1) a with
            | None => Some (true, st1)
            | Some target =>
                assertFile fuel' path (Cell a) target want opts st1
            end
      | VStruct t fs =>
          assertFile_fields
            (fun p v => assertFile fuel' p (sub_place pl) v want opts)
            path want opts t pl fs st
      | VMap t (Some kvs) =>
          assert_entries
            (fun p v => assertFile fuel' p Unaddressable v want opts)
            path kvs st
      | VSlice t (Some es) =>
          assert_elems
            (fun p v => assertFile fuel' p Inside v want opts)
            path 0 es st
      | VArray t es =>
          assert_elems
            (fun p v => assertFile fuel' p (sub_place pl) v want opts)
            path 0 es st
      | VIface t (Some x) =>
          assertFile fuel'
            (path ++ ".(" ++ type_string (ifaceType val) ++ ")")
            Unaddressable x want opts st
      | _ => Some (true, st)
      end
  end.

(** [AssertFile]: whether [t.FailNow()] was avoided, with the final state. *)
Definition AssertFile (fuel : nat) (h : list value) (config : value)
    (path : string) (options : list FieldOption)
  : option (bool * state) :=
  let opts := apply_options options in
  let typ := ifaceType config in
  assertFile fuel ("(" ++ type_string typ ++ ")") Unaddressable config
    path opts (init_state h).

End Assert.

Section Directory.

(** The method sets: which types implement [config.DirectorySetter]. *)
Variable implements : type -> bool.

Definition receiver_of (v : value) : receiver :=
  match v with
  | VPtr _ (Some a) => RPtr a
  | _ => RValue (typeOf v)
  end.

(** The value the walker asserts to [config.DirectorySetter], when the
    assertion holds: [val.Addr()] for an addressable value that is not a
    pointer, and [val] (the dynamic value of an interface) otherwise. *)
Definition capability (pl : place) (val : value) : option receiver :=
  if negb (kind_eqb (kindOf val) KPtr) && CanAddr pl then
    if implements (TPtr (typeOf val)) then
      Some (match pl with Cell a => RPtr a | _ => RAddrOf (typeOf val) end)
    else None
  else
    match val with
    | VIface _ (Some x) =>
        if implements (typeOf x) then Some (receiver_of x) else None
    | _ =>
        if implements (typeOf val) then Some (receiver_of val) else None
    end.

Definition call_capability (pl : place) (val : value) (st : state)
  : state :=
  match capability pl val with
  | Some r => log (Invoke r) st
  | None => st
  end.

Fixpoint dir_elems (rec : value -> state -> option state)
    (es : list value) (st : state) : option state :=
  match es with
  | [] => Some st
  | e :: es' => let* st1 := rec e st in dir_elems rec es' st1
  end.

Fixpoint dir_entries (rec : value -> state -> option state)
    (kvs : list (value * value)) (st : state) : option state :=
  match kvs with
  | [] => Some st
  | (k, v) :: kvs' =>
      let* st1 := rec k st in
      let* st2 := rec v st1 in
      dir_entries rec kvs' st2
  end.

(** The field loop of [setDirectory]. *)
Fixpoint setDirectory_fields (rec : value -> state -> option state)
    (pl : place) (fs : list (string * value)) (st : state)
  : option state :=
  match fs with
  | [] => Some st
  | (name, vf) :: fs' =>
      if negb (CanSet pl name)
      then setDirectory_fields rec pl fs' st
      else
        let* st1 := rec vf st in
        setDirectory_fields rec pl fs' st1
  end.

(** [setDirectory].  A call of the capability is recorded in the trace;
    what the called method does to the graph is its own business and is
    not part of the walker. *)
Fixpoint setDirectory (fuel : nat) (dir : string) (pl : place)
    (val : value) (st : state) {struct fuel} : option state :=
  match fuel with
  | 0 => None
  | S fuel' =>
      if isNil val then Some st else
      let st := call_capability pl val st in
      match val with
      | VPtr t (Some a) =>
          let st0 := log (Reach a) st in
          if seen_mem a st0 then Some st0
          else
            let st1 := log (Descend a) (mark a st0) in
            match nth_error (heap st1) a with
            | None => Some st1
            | Some target => setDirectory fuel' dir (Cell a) target st1
            end
      | VStruct t fs =>
          setDirectory_fields (setDirectory fuel' dir (sub_place pl))
            pl fs st
      | VMap t (Some kvs) =>
          dir_entries (setDirectory fuel' dir Unaddressable) kvs st
      | VSlice t (Some es) =>
          dir_elems (setDirectory fuel' dir Inside) es st
      | VArray t es =>
          dir_elems (setDirectory fuel' dir (sub_place pl)) es st
      | VIface t (Some x) =>
          setDirectory fuel' dir Unaddressable x st
      | _ => Some st
      end
  end.

(** [SetDirectory]. *)
Definition SetDirectory (fuel : nat) (h : list value) (config : value)
    (dir : string) : option state :=
  setDirectory fuel dir Unaddressable config (init_state h).

End Directory.

(** ** The configuration types of the package's tests *)

Module Fixtures.

Definition boolT : type := TBasic KOther "bool".
Definition setterT : type := TInterface "config.DirectorySetter".

Definition fooSetterT : type :=
  TStruct "configtest.fooSetter" ["Foo"; "FooFile"; "Extra"; "Disable"].
Definition barSetterT : type :=
  TStruct "configtest.barSetter" ["BarFiles"; "Extra"; "Disable"].
Definition cyclicT : type :=
  TStruct "configtest.cyclic" ["Self"; "CyclicFile"].
Definition excludeFileT : type :=
  TStruct "configtest.excludeFile" ["ExcludeFile"].
Definition includeFileT : type :=
  TStruct "configtest.includeFile" ["Extra"; "Disable"].
Definition setterSliceT : type := TSlice "configtest.setterSlice" setterT.
Definition setterMapT : type :=
  TMap "configtest.setterMap" stringTyp setterT.
Definition rootT : type :=
  TStruct "configtest.root" ["Child"; "Cyclic"; "Map"; "Slice"; "RootFile"].

Definition str (s : string) : value := VString stringTyp s.
Definition flag (b : bool) : value := VOther boolT (if b then 1 else 0).

(** [fooSetter{Foo: foo, FooFile: file}]. *)
Definition fooSetter (foo file : string) : value :=
  VStruct fooSetterT
    [("Foo", VString secretTyp foo); ("FooFile", str file);
     ("Extra", str ""); ("Disable", flag false)].

Definition barSetter (files : option (list string)) : value :=
  VStruct barSetterT
    [("BarFiles", VSlice stringSliceTyp (option_map (map str) files));
     ("Extra", str ""); ("Disable", flag false)].

(** [cyclic{Self: self, CyclicFile: file}]. *)
Definition cyclic (self : option addr) (file : string) : value :=
  VStruct cyclicT
    [("Self", VPtr (TPtr cyclicT) self); ("CyclicFile", str file)].

Definition excludeFile (file : string) : value :=
  VStruct excludeFileT [("ExcludeFile", str file)].

Definition includeFile (extra : string) : value :=
  VStruct includeFileT [("Extra", str extra); ("Disable", flag false)].

(** A [config.DirectorySetter] holding a pointer to the object at [a]. *)
Definition setter (t : type) (a : addr) : value :=
  VIface setterT (Some (VPtr (TPtr t) (Some a))).

(** [root{Slice: slice, RootFile: file}], the other fields zero. *)
Definition root (cyc : option addr) (slice : option (list value))
    (file : string) : value :=
  VStruct rootT
    [("Child", VIface setterT None);
     ("Cyclic", VPtr (TPtr cyclicT) cyc);
     ("Map", VMap setterMapT None);
     ("Slice", VSlice setterSliceT slice);
     ("RootFile", str file)].

(** The pointer receivers of the test types. *)
Definition implements (t : type) : bool :=
  match t with
  | TPtr (TStruct _ _) => true
  | TSlice "configtest.setterSlice" _ => true
  | TMap "configtest.setterMap" _ _ => true
  | _ => false
  end.

Definition absPath : string := "/data/foo/bar/hello/file".
Definition relPath : string := "hello/file".

(** "multiple slice values" of [Test_AssertFile]. *)
Definition four_heap : list value :=
  [ root None
      (Some [setter fooSetterT 1; setter fooSetterT 2;
             setter fooSetterT 3; setter fooSetterT 4]) absPath;
    fooSetter "" absPath; fooSetter "" relPath;
    fooSetter "" absPath; fooSetter "" relPath ].

Definition four_config : value := VPtr (TPtr rootT) (Some 0).

(** A [cyclic] whose [Self] is itself. *)
Definition cycle_heap : list value := [cyclic (Some 0) relPath].
Definition cycle_config : value := VPtr (TPtr cyclicT) (Some 0).

(** A [fooSetter] behind a pointer, its [Foo] holding a secret. *)
Definition foo_heap : list value := [fooSetter "<secret>" ""].
Definition foo_config : value := VPtr (TPtr fooSetterT) (Some 0).

(** A [barSetter] behind a pointer, with two files. *)
Definition bar_heap : list value := [barSetter (Some ["a"; "b"])].
Definition bar_config : value := VPtr (TPtr barSetterT) (Some 0).

(** A struct whose only field is unexported and points to a [fooSetter]. *)
Definition hiddenT : type := TStruct "configtest.hidden" ["child"].
Definition hidden (child : option addr) : value :=
  VStruct hiddenT [("child", VPtr (TPtr fooSetterT) child)].
Definition hidden_heap : list value := [hidden (Some 1); fooSetter "" relPath].
Definition hidden_config : value := VPtr (TPtr hiddenT) (Some 0).

(** The options [ExcludeField(excludeFile{}, "ExcludeFile")] and
    [IncludeField(excludeFile{}, "ExcludeFile")] return. *)
Definition exclude_key : field := (excludeFileT, "ExcludeFile").
Definition exclude_fn : FieldOption :=
  fun o => mkFields (include o) (map_set (exclude o) exclude_key).
Definition include_fn : FieldOption :=
  fun o => mkFields (map_set (include o) exclude_key) (exclude o).

End Fixtures.

(** ** Predicates used by the properties *)

Open Scope list_scope.

(** The options that [IncludeField] and [ExcludeField] return. *)
Inductive built : FieldOption -> Prop :=
| built_include strukt name fn :
    IncludeField strukt name = Ok fn -> built fn
| built_exclude strukt name fn :
    ExcludeField strukt name = Ok fn -> built fn.

(** How often a trace descends through the pointer [a], meets it, and
    calls the capability on it. *)
Definition is_descend (a : addr) (e : event) : bool :=
  match e with Descend b => Nat.eqb a b | _ => false end.

Definition is_reach (a : addr) (e : event) : bool :=
  match e with Reach b => Nat.eqb a b | _ => false end.

Definition is_invoke (a : addr) (e : event) : bool :=
  match e with Invoke (RPtr b) => Nat.eqb a b | _ => false end.

Definition descents (a : addr) (tr : list event) : nat :=
  List.length (filter (is_descend a) tr).

Definition reaches (a : addr) (tr : list event) : nat :=
  List.length (filter (is_reach a) tr).

Definition invocations (a : addr) (tr : list event) : nat :=
  List.length (filter (is_invoke a) tr).

(** The [seen] set and the trace agree: a pointer is in [seen] exactly when
    the walk has descended through it, which it has done once, and every
    pointer met so far is in [seen]. *)
Definition seen_ok (st : state) : Prop :=
  forall a,
    (In a (seen st) <-> descents a (trace st) = 1) /\
    descents a (trace st) <= 1 /\
    (0 < reaches a (trace st) -> In a (seen st)).

(** What a walker call may do to the state. *)
Definition ext (st st' : state) : Prop :=
  List.length (heap st') = List.length (heap st) /\
  incl (seen st) (seen st') /\
  (exists evs, trace st' = trace st ++ evs) /\
  (exists fs, errs st' = errs st ++ fs) /\
  (seen_ok st -> seen_ok st').

(** The walks that write nothing. *)
Definition heap_same (st st' : state) : Prop := heap st' = heap st.

(** The size of a value, and the number of heap objects not yet in
    [seen]: the two measures of the walk. *)
Fixpoint vsize (v : value) : nat :=
  match v with
  | VStruct _ fs =>
      S ((fix go (l : list (string * value)) : nat :=
            match l with
            | [] => 0
            | (_, x) :: l' => vsize x + go l'
            end) fs)
  | VSlice _ (Some es) | VArray _ es =>
      S ((fix go (l : list value) : nat :=
            match l with
            | [] => 0
            | x :: l' => vsize x + go l'
            end) es)
  | VMap _ (Some kvs) =>
      S ((fix go (l : list (value * value)) : nat :=
            match l with
            | [] => 0
            | (k, x) :: l' => vsize k + vsize x + go l'
            end) kvs)
  | VIface _ (Some x) => S (vsize x)
  | _ => 1
  end.

Definition unseen (st : state) : nat :=
  List.length
    (filter (fun a => negb (seen_mem a st)) (seq 0 (List.length (heap st)))).

(** Every pointer the walk met was descended through exactly once, and no
    pointer more than once. *)
Definition descended_once (st : state) : Prop :=
  forall a,
    descents a (trace st) <= 1 /\
    (0 < reaches a (trace st) -> descents a (trace st) = 1).

(** What one call of [assertFile] reports: the failures it adds, and a
    result that is true exactly when it adds none. *)
Definition verdict (s : state) (b : bool) (s' : state) : Prop :=
  exists fs, errs s' = errs s ++ fs /\ (b = true <-> fs = []).

(** Following the spec ("compare every element by index the same way"; one
    finding per mismatch): the findings for the elements of a file-like
    sequence, the first of which has index [j]. *)
Fixpoint spec_mismatches (path want : string) (j : nat) (es : list value)
  : list failure :=
  match es with
  | [] => []
  | e :: es' =>
      (if String.eqb (String_of e) want then []
       else [mkFailure (path ++ "[" ++ itoa j ++ "]")%string
                       (String_of e) want])
      ++ spec_mismatches path want (S j) es'
  end.

(** Two fields that have the same name and, when the name is exported, the
    same value: field lists related by it differ in their unexported
    fields only. *)
Definition same_exported (f f' : string * value) : Prop :=
  fst f = fst f' /\ (exported (fst f) = true -> snd f = snd f').

(** Two results of the field loop of [setFile] that differ in the
    unexported fields only. *)
Definition same_exported_result
    (r r' : option (list (string * value) * state)) : Prop :=
  match r, r' with
  | Some (gs, s), Some (gs', s') => s = s' /\ Forall2 same_exported gs gs'
  | None, None => True
  | _, _ => False
  end.

(** ** Two walks that write alike

    [same_writes a b a' b'] relates four values of one shape: [b] is [a]
    and [b'] is [a'] after the same writes.  The values agree in everything
    but the contents of their strings and of their [[]string] sequences,
    and at each of these either both were written, with the same contents
    ([b] and [b'] agree), or neither was ([b] is [a] and [b'] is [a']). *)

Definition written_alike {A : Type} (x y x' y' : A) : Prop :=
  y = y' \/ (y = x /\ y' = x').

Definition all4 {A : Type} (R : A -> A -> A -> A -> Prop)
  : list A -> list A -> list A -> list A -> Prop :=
  fix go l1 l2 l3 l4 :=
    match l1 with
    | [] =>
        match l2, l3, l4 with
        | [], [], [] => True
        | _, _, _ => False
        end
    | x1 :: l1' =>
        match l2, l3, l4 with
        | x2 :: l2', x3 :: l3', x4 :: l4' =>
            R x1 x2 x3 x4 /\ go l1' l2' l3' l4'
        | _, _, _ => False
        end
    end.

Definition opt4 {A : Type} (R : A -> A -> A -> A -> Prop)
    (o1 o2 o3 o4 : option A) : Prop :=
  match o1, o2, o3, o4 with
  | Some x1, Some x2, Some x3, Some x4 => R x1 x2 x3 x4
  | None, None, None, None => True
  | _, _, _, _ => False
  end.

(** A plain string, and a sequence of plain strings. *)
Definition is_str (v : value) : bool :=
  match v with
  | VString t _ => type_eqb t stringTyp
  | _ => false
  end.

Definition strings (es : option (list value)) : bool :=
  match es with
  | None => true
  | Some l => forallb is_str l
  end.

(** The types whose values the walk of [setFile] never replaces. *)
Definition plain (t : type) : Prop :=
  Kind t <> KString /\ t <> stringSliceTyp.

Fixpoint same_writes (a b a' b' : value) {struct a} : Prop :=
  match a with
  | VString t x =>
      match b, a', b' with
      | VString t1 y, VString t2 x', VString t3 y' =>
          t1 = t /\ t2 = t /\ t3 = t /\ t <> stringSliceTyp /\
          written_alike x y x' y'
      | _, _, _ => False
      end
  | VStruct t fs =>
      match b, a', b' with
      | VStruct t1 gs, VStruct t2 fs', VStruct t3 gs' =>
          t1 = t /\ t2 = t /\ t3 = t /\ plain t /\
          all4 (fun f g f' g' =>
                  match f, g, f', g' with
                  | (n, x), (n1, y), (n2, x'), (n3, y') =>
                      n1 = n /\ n2 = n /\ n3 = n /\ same_writes x y x' y'
                  end) fs gs fs' gs'
      | _, _, _ => False
      end
  | VSlice t es =>
      match b, a', b' with
      | VSlice t1 gs, VSlice t2 es', VSlice t3 gs' =>
          t1 = t /\ t2 = t /\ t3 = t /\ Kind t <> KString /\
          if type_eqb t stringSliceTyp
          then strings es = true /\ strings gs = true /\
               strings es' = true /\ strings gs' = true /\
               written_alike es gs es' gs'
          else
            match es, gs, es', gs' with
            | Some l1, Some l2, Some l3, Some l4 =>
                all4 same_writes l1 l2 l3 l4
            | None, None, None, None => True
            | _, _, _, _ => False
            end
      | _, _, _ => False
      end
  | VArray t es =>
      match b, a', b' with
      | VArray t1 gs, VArray t2 es', VArray t3 gs' =>
          t1 = t /\ t2 = t /\ t3 = t /\ plain t /\
          all4 same_writes es gs es' gs'
      | _, _, _ => False
      end
  | VMap t kvs =>
      match b, a', b' with
      | VMap t1 kvs1, VMap t2 kvs2, VMap t3 kvs3 =>
          t1 = t /\ t2 = t /\ t3 = t /\ plain t /\
          match kvs, kvs1, kvs2, kvs3 with
          | Some l1, Some l2, Some l3, Some l4 =>
              all4 (fun f g f' g' =>
                      match f, g, f', g' with
                      | (k, x), (k1, y), (k2, x'), (k3, y') =>
                          same_writes k k1 k2 k3 /\ same_writes x y x' y'
                      end) l1 l2 l3 l4
          | None, None, None, None => True
          | _, _, _, _ => False
          end
      | _, _, _ => False
      end
  | VIface t o =>
      match b, a', b' with
      | VIface t1 o1, VIface t2 o2, VIface t3 o3 =>
          t1 = t /\ t2 = t /\ t3 = t /\ plain t /\
          match o, o1, o2, o3 with
          | Some x, Some y, Some x', Some y' => same_writes x y x' y'
          | None, None, None, None => True
          | _, _, _, _ => False
          end
      | _, _, _ => False
      end
  | VOther t _ | VPtr t _ | VOpaque t _ =>
      plain t /\ b = a /\ a' = a /\ b' = a
  end.

(** The same for heaps, object by object. *)
Definition same_writes_heap (h1 h2 h3 h4 : list value) : Prop :=
  all4 same_writes h1 h2 h3 h4.

(** A value is well typed, as far as the walk of [setFile] can tell, when
    its values of string kind are strings and its [[]string] values are
    sequences of plain strings. *)
Definition well_typed (v : value) : Prop := same_writes v v v v.

Definition well_typed_heap (h : list value) : Prop :=
  same_writes_heap h h h h.

(** The [i]-th of four. *)
Definition pick {A : Type} (i : nat) (x1 x2 x3 x4 : A) : A :=
  match i with
  | 0 => x1
  | 1 => x2
  | 2 => x3
  | _ => x4
  end.

Definition same_writes_fields (fs gs fs' gs' : list (string * value))
  : Prop :=
  all4 (fun f g f' g' =>
          match f, g, f', g' with
          | (n, x), (n1, y), (n2, x'), (n3, y') =>
              n1 = n /\ n2 = n /\ n3 = n /\ same_writes x y x' y'
          end) fs gs fs' gs'.

Definition same_writes_entries (l1 l2 l3 l4 : list (value * value))
  : Prop :=
  all4 (fun f g f' g' =>
          match f, g, f', g' with
          | (k, x), (k1, y), (k2, x'), (k3, y') =>
              same_writes k k1 k2 k3 /\ same_writes x y x' y'
          end) l1 l2 l3 l4.

(** A walker of the second run follows a walker of the first: from states
    and values of the same shape it returns when the first does, with the
    same [seen], and the two have written alike. *)
Definition follows (rec1 rec2 : value -> state -> option (value * state))
  : Prop :=
  forall v v' s s' v1 s1,
    same_writes v v v' v' ->
    same_writes_heap (heap s) (heap s) (heap s') (heap s') ->
    seen s = seen s' ->
    rec1 v s = Some (v1, s1) ->
    exists v1' s1',
      rec2 v' s' = Some (v1', s1') /\
      seen s1 = seen s1' /\
      same_writes v v1 v' v1' /\
      same_writes_heap (heap s) (heap s1) (heap s') (heap s1').

(** A plain type to wrap lists in, so that facts about values carry over
    to lists of values and of fields. *)
Definition wrapT : type := TArray 0 (TBasic KOther "").

(** ** Induction on values *)

Section ValueInd.

Variable P : value -> Prop.
Hypothesis H_string : forall t s, P (VString t s).
Hypothesis H_other : forall t n, P (VOther t n).
Hypothesis H_ptr : forall t p, P (VPtr t p).
Hypothesis H_opaque : forall t b, P (VOpaque t b).
Hypothesis H_struct : forall t fs,
  Forall (fun f => P (snd f)) fs -> P (VStruct t fs).
Hypothesis H_slice : forall t es,
  match es with Some l => Forall P l | None => True end -> P (VSlice t es).
Hypothesis H_array : forall t es, Forall P es -> P (VArray t es).
Hypothesis H_map : forall t kvs,
  match kvs with
  | Some l => Forall (fun kv => P (fst kv) /\ P (snd kv)) l
  | None => True
  end -> P (VMap t kvs).
Hypothesis H_iface : forall t o,
  match o with Some x => P x | None => True end -> P (VIface t o).

Fixpoint value_ind_nested (v : value) : P v :=
  match v with
  | VString t s => H_string t s
  | VOther t n => H_other t n
  | VPtr t p => H_ptr t p
  | VOpaque t b => H_opaque t b
  | VStruct t fs =>
      H_struct t fs
        ((fix go (l : list (string * value))
            : Forall (fun f => P (snd f)) l :=
            match l with
            | [] => Forall_nil _
            | (n, x) :: l' =>
                Forall_cons (n, x) (value_ind_nested x) (go l')
            end) fs)
  | VSlice t es =>
      H_slice t es
        (match es with
         | Some l =>
             (fix go (l : list value) : Forall P l :=
                match l with
                | [] => Forall_nil _
                | x :: l' => Forall_cons x (value_ind_nested x) (go l')
                end) l
         | None => I
         end)
  | VArray t es =>
      H_array t es
        ((fix go (l : list value) : Forall P l :=
            match l with
            | [] => Forall_nil _
            | x :: l' => Forall_cons x (value_ind_nested x) (go l')
            end) es)
  | VMap t kvs =>
      H_map t kvs
        (match kvs with
         | Some l =>
             (fix go (l : list (value * value))
                : Forall (fun kv => P (fst kv) /\ P (snd kv)) l :=
                match l with
                | [] => Forall_nil _
                | (k, x) :: l' =>
                    Forall_cons (k, x)
                      (conj (value_ind_nested k) (value_ind_nested x))
                      (go l')
                end) l
         | None => I
         end)
  | VIface t o =>
      H_iface t o
        (match o with
         | Some x => value_ind_nested x
         | None => I
         end)
  end.

End ValueInd.

(** ** Predicates used by the further properties *)

(** What the field loop of [setFile] keeps, at field [i], about a file
    field [base ++ "File"] at index [l] and its string sibling [base] at
    index [j]: the names stay, the file field is a plain string and holds
    [file] once the loop is past it, and the sibling is a string of its
    type and is empty once the loop is past the file field. *)
Definition file_sibling_inv (fs0 : list (string * value)) (file : string)
    (l j : nat) (base : string) (ts : type)
    (i : nat) (cur : list (string * value)) : Prop :=
  map fst cur = map fst fs0 /\
  (exists v, nth_error cur l = Some ((base ++ "File")%string, v) /\
             typeOf v = stringTyp) /\
  (l < i ->
   nth_error cur l = Some ((base ++ "File")%string, VString stringTyp file)) /\
  (exists s, nth_error cur j = Some (base, VString ts s)) /\
  (l < i -> nth_error cur j = Some (base, VString ts "")).

(** From [s] to [s'] only failures were added that want [want] and found
    something else. *)
Definition reports (want : string) (s s' : state) : Prop :=
  exists fs, errs s' = errs s ++ fs /\
             Forall (fun f => fwant f = want /\ fgot f <> want) fs.

(** From [s] to [s'] the walk wrote only to objects it newly marked: the
    heap has the same size, [seen] has grown, and an object that was in
    [seen] before, or is not in it after, is as it was. *)
Definition only_new (s s' : state) : Prop :=
  incl (seen s) (seen s') /\
  List.length (heap s') = List.length (heap s) /\
  forall a, In a (seen s) \/ ~ In a (seen s') ->
            nth_error (heap s') a = nth_error (heap s) a.

(** ** Graphs on which [AssertFile] finds nothing *)

(** What [assertFile] asks of one field of a struct of type [t] at [pl],
    given what it asks of the values it recurses into: nothing of a field
    it skips, the expected string of a file-like string, the expected
    string in every place of a file-like sequence. *)
Definition field_ok (file : string) (opts : fields) (pl : place) (t : type)
    (ok : value -> Prop) (f : string * value) : Prop :=
  let (name, x) := f in
  if negb (CanSet pl name) || exclude opts (t, name) then True
  else if is_file opts (t, name) x then String_of x = file
  else if is_files opts (t, name) x
       then Forall (fun e => String_of e = file) (elems_of x)
  else ok x.

(** A value is settled when, along the walk of [assertFile] from it, every
    file-like field holds [file] and every pointer met is in [D]. *)
Fixpoint settled (D : list addr) (file : string) (opts : fields)
    (pl : place) (v : value) {struct v} : Prop :=
  match v with
  | VPtr _ (Some a) => In a D
  | VStruct t fs =>
      (fix go (l : list (string * value)) : Prop :=
         match l with
         | [] => True
         | (name, x) :: l' =>
             field_ok file opts pl t
               (fun _ => settled D file opts (sub_place pl) x) (name, x) /\
             go l'
         end) fs
  | VSlice _ (Some es) =>
      (fix go (l : list value) : Prop :=
         match l with
         | [] => True
         | x :: l' => settled D file opts Inside x /\ go l'
         end) es
  | VArray _ es =>
      (fix go (l : list value) : Prop :=
         match l with
         | [] => True
         | x :: l' => settled D file opts (sub_place pl) x /\ go l'
         end) es
  | VMap _ (Some kvs) =>
      (fix go (l : list (value * value)) : Prop :=
         match l with
         | [] => True
         | (k, x) :: l' =>
             settled D file opts Unaddressable k /\
             settled D file opts Unaddressable x /\ go l'
         end) kvs
  | VIface _ (Some x) => settled D file opts Unaddressable x
  | _ => True
  end.

(** The objects of [D] are settled in the heap. *)
Definition settled_heap (D : list addr) (file : string) (opts : fields)
    (h : list value) : Prop :=
  forall a x, In a D -> nth_error h a = Some x ->
              settled D file opts (Cell a) x.

(** A call of [assertFile] that found nothing and wrote nothing. *)
Definition clean (s : state) (b : bool) (s' : state) : Prop :=
  b = true /\ errs s' = errs s /\ heap s' = heap s.

(** A field that [setFile] writes a file name to. *)
Definition file_class (opts : fields) (t : type) (f : string * value)
  : bool :=
  exported (fst f) && negb (exclude opts (t, fst f)) &&
  is_file opts (t, fst f) (snd f).

(** No file field of the struct has a sibling, named by stripping "File",
    that is a file field too (the second would be cleared for the first). *)
Definition no_clash_fields (opts : fields) (t : type)
    (fs : list (string * value)) : bool :=
  forallb
    (fun i =>
       match nth_error fs i with
       | None => true
       | Some f =>
           negb (file_class opts t f &&
                 match FieldByName fs (TrimSuffix (fst f) "File") with
                 | None => false
                 | Some m =>
                     negb (Nat.eqb m i) &&
                     match nth_error fs m with
                     | None => false
                     | Some g => file_class opts t g
                     end
                 end)
       end)
    (seq 0 (List.length fs)).

(** The same of every struct inside a value. *)
Fixpoint no_clash (opts : fields) (v : value) {struct v} : bool :=
  match v with
  | VStruct t fs =>
      no_clash_fields opts t fs &&
      forallb (fun f => match f with (_, x) => no_clash opts x end) fs
  | VSlice _ (Some es) | VArray _ es => forallb (no_clash opts) es
  | VMap _ (Some kvs) =>
      forallb (fun kv => match kv with
                         | (k, x) => no_clash opts k && no_clash opts x
                         end) kvs
  | VIface _ (Some x) => no_clash opts x
  | _ => true
  end.

(** The names and types of the fields of a struct value. *)
Definition signature (fs : list (string * value)) : list (string * type) :=
  map (fun f => (fst f, typeOf (snd f))) fs.

(** The objects the walk has not marked yet have no clash. *)
Definition unseen_ok (opts : fields) (s : state) : Prop :=
  forall a x, ~ In a (seen s) -> nth_error (heap s) a = Some x ->
              no_clash opts x = true.

(** The objects marked from [s] to [s'] are settled in the heap of [s']. *)
Definition new_settled (file : string) (opts : fields) (s s' : state)
  : Prop :=
  forall a x, In a (seen s') -> ~ In a (seen s) ->
              nth_error (heap s') a = Some x ->
              settled (seen s') file opts (Cell a) x.

(** A walker that settles what it walks, at [pl]. *)
Definition settles (file : string) (opts : fields) (pl : place)
    (rec : value -> state -> option (value * state)) : Prop :=
  forall v s v1 s1,
    rec v s = Some (v1, s1) -> no_clash opts v = true -> unseen_ok opts s ->
    only_new s s1 /\ typeOf v1 = typeOf v /\
    settled (seen s1) file opts pl v1 /\ new_settled file opts s s1.

(** * Properties *)

(** ** Basic facts *)

Lemma type_eqb_refl (t : type) : type_eqb t t = true.
Proof. unfold type_eqb. destruct (type_eq_dec t t); congruence. Qed.

Lemma type_eqb_eq (a b : type) : type_eqb a b = true <-> a = b.
Proof.
  unfold type_eqb. destruct (type_eq_dec a b); split; congruence.
Qed.

Lemma kind_eqb_eq (a b : kind) : kind_eqb a b = true <-> a = b.
Proof.
  unfold kind_eqb. destruct (kind_eq_dec a b); split; congruence.
Qed.

Lemma field_eqb_refl (k : field) : field_eqb k k = true.
Proof.
  unfold field_eqb. now rewrite type_eqb_refl, String.eqb_refl.
Qed.

Lemma field_eqb_eq (a b : field) : field_eqb a b = true <-> a = b.
Proof.
  unfold field_eqb. destruct a as [ta na], b as [tb nb]; simpl.
  rewrite andb_true_iff, type_eqb_eq, String.eqb_eq.
  split; [intros [-> ->]; reflexivity | intros H; inversion H; auto].
Qed.

(** ** Field options *)

Lemma built_exclude_acc (fn : FieldOption) (o : fields) (k : field) :
  built fn -> exclude (fn o) k = exclude (fn no_fields) k || exclude o k.
Proof.
  intros [s n f H | s n f H].
  - unfold IncludeField in H. destruct (structField _ _); inversion H.
    reflexivity.
  - unfold ExcludeField in H. destruct (structField _ _); inversion H.
    simpl. unfold map_set. destruct (field_eqb a k); reflexivity.
Qed.

Lemma built_include_acc (fn : FieldOption) (o : fields) (k : field) :
  built fn -> include (fn o) k = include (fn no_fields) k || include o k.
Proof.
  intros [s n f H | s n f H].
  - unfold IncludeField in H. destruct (structField _ _); inversion H.
    simpl. unfold map_set. destruct (field_eqb a k); reflexivity.
  - unfold ExcludeField in H. destruct (structField _ _); inversion H.
    reflexivity.
Qed.

Lemma fold_options_exclude (options : list FieldOption) :
  Forall built options -> forall o k,
  exclude (fold_left (fun o fn => fn o) options o) k =
  exclude o k || existsb (fun fn => exclude (fn no_fields) k) options.
Proof.
  induction 1 as [|fn fns Hb _ IH]; intros o k; simpl.
  - now rewrite orb_false_r.
  - rewrite IH, (built_exclude_acc fn o k Hb).
    destruct (exclude (fn no_fields) k), (exclude o k); reflexivity.
Qed.

Lemma fold_options_include (options : list FieldOption) :
  Forall built options -> forall o k,
  include (fold_left (fun o fn => fn o) options o) k =
  include o k || existsb (fun fn => include (fn no_fields) k) options.
Proof.
  induction 1 as [|fn fns Hb _ IH]; intros o k; simpl.
  - now rewrite orb_false_r.
  - rewrite IH, (built_include_acc fn o k Hb).
    destruct (include (fn no_fields) k), (include o k); reflexivity.
Qed.

Lemma existsb_Permutation {A : Type} (f : A -> bool) (l l' : list A) :
  Permutation l l' -> existsb f l = existsb f l'.
Proof.
  induction 1; simpl; try congruence.
  - destruct (f y), (f x); reflexivity.
Qed.

Lemma apply_options_Permutation (options options' : list FieldOption) :
  Forall built options -> Permutation options options' ->
  forall k,
    exclude (apply_options options') k = exclude (apply_options options) k /\
    include (apply_options options') k = include (apply_options options) k.
Proof.
  intros Hb Hp k.
  assert (Hb' : Forall built options').
  { rewrite Forall_forall in *. intros fn Hin. apply Hb.
    eapply Permutation_in; [apply Permutation_sym|]; eauto. }
  unfold apply_options.
  rewrite !fold_options_exclude, !fold_options_include by assumption.
  split; f_equal; symmetry; now apply existsb_Permutation.
Qed.

Lemma excluded_by_option (options : list FieldOption) strukt name fn key :
  Forall built options ->
  ExcludeField strukt name = Ok fn -> In fn options ->
  structField (typeOf strukt) name = Ok key ->
  exclude (apply_options options) key = true.
Proof.
  intros Hb He Hin Hk. unfold apply_options.
  rewrite fold_options_exclude by assumption. simpl.
  apply existsb_exists. exists fn. split; [assumption|].
  unfold ExcludeField in He. rewrite Hk in He. inversion He. simpl.
  unfold map_set. now rewrite field_eqb_refl.
Qed.

(** ** What every walker call preserves *)

Ltac inv_some :=
  repeat match goal with
  | H : Some _ = Some _ |- _ => inversion H; subst; clear H
  | H : None = Some _ |- _ => discriminate H
  | H : match ?e with Some _ => _ | None => _ end = Some _ |- _ =>
      let E := fresh "E" in destruct e as [[? ?]|] eqn:E
  | H : match ?e with Some _ => _ | None => _ end = Some _ |- _ =>
      let E := fresh "E" in destruct e as [?|] eqn:E
  end.

Section Frame.

(** A preorder on states that the elementary steps of the walkers
    respect. *)
Variable R : state -> state -> Prop.
Hypothesis R_refl : forall s, R s s.
Hypothesis R_trans : forall s1 s2 s3, R s1 s2 -> R s2 s3 -> R s1 s3.
Hypothesis R_seen : forall a s,
  seen_mem a s = true -> R s (log (Reach a) s).
Hypothesis R_descend : forall a s,
  seen_mem a s = false ->
  R s (log (Descend a) (mark a (log (Reach a) s))).

Lemma walk_elems_R rec :
  (forall v s v' s', rec v s = Some (v', s') -> R s s') ->
  forall es s es' s', walk_elems rec es s = Some (es', s') -> R s s'.
Proof.
  intros Hrec. induction es as [|e es IH]; simpl; intros s es' s' H.
  - inv_some. apply R_refl.
  - inv_some. eauto 8.
Qed.

Lemma walk_entries_R rec :
  (forall v s v' s', rec v s = Some (v', s') -> R s s') ->
  forall kvs s kvs' s', walk_entries rec kvs s = Some (kvs', s') -> R s s'.
Proof.
  intros Hrec. induction kvs as [|[k v] kvs IH]; simpl; intros s es' s' H.
  - inv_some. apply R_refl.
  - inv_some. eauto 8.
Qed.

Lemma setFile_fields_R rec file opts typ pl :
  (forall v s v' s', rec v s = Some (v', s') -> R s s') ->
  forall n i fs s fs' s',
    setFile_fields rec file opts typ pl n i fs s = Some (fs', s') -> R s s'.
Proof.
  intros Hrec. induction n as [|n IH]; simpl; intros i fs s fs' s' H.
  - inv_some. apply R_refl.
  - destruct (nth_error fs i) as [[name vf]|]; [|inv_some; apply R_refl].
    destruct (negb (CanSet pl name) || exclude opts (typ, name)); [eauto|].
    destruct (is_file opts (typ, name) vf); [eauto|].
    destruct (is_files opts (typ, name) vf); [eauto|].
    inv_some. eauto.
Qed.

Lemma dir_elems_R rec :
  (forall v s s', rec v s = Some s' -> R s s') ->
  forall es s s', dir_elems rec es s = Some s' -> R s s'.
Proof.
  intros Hrec. induction es as [|e es IH]; simpl; intros s s' H.
  - inv_some. apply R_refl.
  - inv_some. eauto 8.
Qed.

Lemma dir_entries_R rec :
  (forall v s s', rec v s = Some s' -> R s s') ->
  forall kvs s s', dir_entries rec kvs s = Some s' -> R s s'.
Proof.
  intros Hrec. induction kvs as [|[k v] kvs IH]; simpl; intros s s' H.
  - inv_some. apply R_refl.
  - inv_some. eauto 8.
Qed.

Lemma setDirectory_fields_R rec pl :
  (forall v s s', rec v s = Some s' -> R s s') ->
  forall fs s s', setDirectory_fields rec pl fs s = Some s' -> R s s'.
Proof.
  intros Hrec. induction fs as [|[name vf] fs IH]; simpl; intros s s' H.
  - inv_some. apply R_refl.
  - destruct (negb (CanSet pl name)); [eauto|]. inv_some. eauto.
Qed.

Lemma assert_elems_R Rec :
  (forall p v s b s', Rec p v s = Some (b, s') -> R s s') ->
  forall es path i s b s',
    assert_elems Rec path i es s = Some (b, s') -> R s s'.
Proof.
  intros Hrec. induction es as [|e es IH]; simpl; intros path i s b s' H.
  - inv_some. apply R_refl.
  - inv_some. eauto 8.
Qed.

Lemma assert_entries_R Sprint Rec :
  (forall p v s b s', Rec p v s = Some (b, s') -> R s s') ->
  forall kvs path s b s',
    assert_entries Sprint Rec path kvs s = Some (b, s') -> R s s'.
Proof.
  intros Hrec. induction kvs as [|[k v] kvs IH]; simpl;
    intros path s b s' H.
  - inv_some. apply R_refl.
  - inv_some. eauto 8.
Qed.

Section FrameErrorf.

Hypothesis R_errorf : forall f s, R s (Errorf f s).

Lemma assert_strings_R es : forall path want j s,
  R s (snd (assert_strings path want j es s)).
Proof.
  induction es as [|e es IH]; simpl; intros path want j s.
  - apply R_refl.
  - destruct (String.eqb (String_of e) want); [apply IH|].
    match goal with
    | |- context [assert_strings ?p ?w ?j ?es ?s1] =>
        specialize (IH p w j s1);
        destruct (assert_strings p w j es s1) as [b s2]
    end.
    simpl in *. eapply R_trans; [apply R_errorf | exact IH].
Qed.

Lemma assertFile_fields_R Rec path want opts typ pl :
  (forall p v s b s', Rec p v s = Some (b, s') -> R s s') ->
  forall fs s b s',
    assertFile_fields Rec path want opts typ pl fs s = Some (b, s') ->
    R s s'.
Proof.
  intros Hrec. induction fs as [|[name vf] fs IH]; simpl; intros s b s' H.
  - inv_some. apply R_refl.
  - destruct (negb (CanSet pl name) || exclude opts (typ, name)); [eauto|].
    destruct (is_file opts (typ, name) vf).
    { destruct (String.eqb (String_of vf) want); [eauto|].
      inv_some. eapply R_trans; [apply R_errorf | eauto]. }
    destruct (is_files opts (typ, name) vf).
    { match type of H with
      | context [assert_strings ?p ?w ?j ?es ?s1] =>
          pose proof (assert_strings_R es p w j s1) as Hs;
          destruct (assert_strings p w j es s1) as [b1 s1']
      end.
      inv_some. simpl in Hs. eauto. }
    inv_some. eauto.
Qed.

Lemma assertFile_R Sprint fuel : forall path pl val want opts s b s',
  assertFile Sprint fuel path pl val want opts s = Some (b, s') -> R s s'.
Proof.
  induction fuel as [|fuel IH]; simpl; intros path pl val want opts s b s' H;
    [discriminate|].
  destruct (isNil val); [inv_some; apply R_refl|].
  destruct val as [t x|t x|t [a|]|t fs|t [es|]|t es|t [kvs|]|t [x|]|t x];
    try (inv_some; apply R_refl).
  - destruct (seen_mem a (log (Reach a) s)) eqn:Hs.
    + inv_some. now apply R_seen.
    + destruct (nth_error _ a).
      * eapply R_trans; [apply (R_descend a s Hs) | eauto].
      * inv_some. now apply R_descend.
  - eapply assertFile_fields_R; [|exact H]. cbv beta; intros; eauto.
  - eapply assert_elems_R; [|exact H]. cbv beta; intros; eauto.
  - eapply assert_elems_R; [|exact H]. cbv beta; intros; eauto.
  - eapply assert_entries_R; [|exact H]. cbv beta; intros; eauto.
  - eauto.
Qed.

End FrameErrorf.

Section FrameStore.

Hypothesis R_store : forall a v s, R s (store a v s).

Lemma setFile_R fuel : forall file opts pl val s v' s',
  setFile fuel file opts pl val s = Some (v', s') -> R s s'.
Proof.
  induction fuel as [|fuel IH]; simpl; intros file opts pl val s v' s' H;
    [discriminate|].
  destruct (isNil val); [inv_some; apply R_refl|].
  destruct val as [t x|t x|t [a|]|t fs|t [es|]|t es|t [kvs|]|t [x|]|t x];
    try (inv_some; apply R_refl).
  - destruct (seen_mem a (log (Reach a) s)) eqn:Hs.
    + inv_some. now apply R_seen.
    + destruct (nth_error _ a).
      * inv_some. eapply R_trans; [apply (R_descend a s Hs)|].
        eapply R_trans; [eapply IH; eassumption | apply R_store].
      * inv_some. now apply R_descend.
  - inv_some. eapply setFile_fields_R; [|eassumption]. intros; eauto.
  - inv_some. eapply walk_elems_R; [|eassumption]. intros; eauto.
  - inv_some. eapply walk_elems_R; [|eassumption]. intros; eauto.
  - inv_some. eapply walk_entries_R; [|eassumption]. intros; eauto.
  - inv_some. eauto 8.
Qed.

End FrameStore.

Section FrameInvoke.

Hypothesis R_invoke : forall r s, R s (log (Invoke r) s).

Lemma call_capability_R implements pl val s :
  R s (call_capability implements pl val s).
Proof.
  unfold call_capability. destruct (capability _ _ _); auto.
Qed.

Lemma setDirectory_R implements fuel : forall dir pl val s s',
  setDirectory implements fuel dir pl val s = Some s' -> R s s'.
Proof.
  induction fuel as [|fuel IH]; simpl; intros dir pl val s s' H;
    [discriminate|].
  destruct (isNil val); [inv_some; apply R_refl|].
  pose proof (call_capability_R implements pl val s) as Hc.
  set (sc := call_capability implements pl val s) in *. clearbody sc.
  apply (R_trans _ _ _ Hc). clear Hc.
  destruct val as [t x|t x|t [a|]|t fs|t [es|]|t es|t [kvs|]|t [x|]|t x];
    try (inv_some; apply R_refl).
  - destruct (seen_mem a (log (Reach a) sc)) eqn:Hs.
    + inv_some. now apply R_seen.
    + destruct (nth_error _ a).
      * eapply R_trans; [apply (R_descend a sc Hs) | eauto].
      * inv_some. now apply R_descend.
  - eapply setDirectory_fields_R; [|exact H]. intros; eauto.
  - eapply dir_elems_R; [|exact H]. intros; eauto.
  - eapply dir_elems_R; [|exact H]. intros; eauto.
  - eapply dir_entries_R; [|exact H]. intros; eauto.
  - eauto.
Qed.

End FrameInvoke.

End Frame.

(** ** The state relation [ext] *)

Lemma seen_mem_In (a : addr) (st : state) :
  seen_mem a st = true <-> In a (seen st).
Proof.
  unfold seen_mem. rewrite existsb_exists. split.
  - intros [b [Hin Hb]]. apply Nat.eqb_eq in Hb. now subst.
  - intros Hin. exists a. split; [assumption | apply Nat.eqb_refl].
Qed.

Lemma seen_mem_notin (a : addr) (st : state) :
  seen_mem a st = false <-> ~ In a (seen st).
Proof.
  rewrite <- seen_mem_In. destruct (seen_mem a st); split; congruence.
Qed.

Lemma set_nth_length {A : Type} (l : list A) : forall i x,
  List.length (set_nth i x l) = List.length l.
Proof.
  induction l as [|y l IH]; intros [|i] x; simpl; auto.
Qed.

Lemma descents_app a tr1 tr2 :
  descents a (tr1 ++ tr2) = descents a tr1 + descents a tr2.
Proof. unfold descents. now rewrite filter_app, length_app. Qed.

Lemma reaches_app a tr1 tr2 :
  reaches a (tr1 ++ tr2) = reaches a tr1 + reaches a tr2.
Proof. unfold reaches. now rewrite filter_app, length_app. Qed.

Lemma invocations_app a tr1 tr2 :
  invocations a (tr1 ++ tr2) = invocations a tr1 + invocations a tr2.
Proof. unfold invocations. now rewrite filter_app, length_app. Qed.

Lemma descents_snoc a tr e :
  descents a (tr ++ [e]) = descents a tr + (if is_descend a e then 1 else 0).
Proof.
  rewrite descents_app. unfold descents at 2. simpl.
  now destruct (is_descend a e).
Qed.

Lemma reaches_snoc a tr e :
  reaches a (tr ++ [e]) = reaches a tr + (if is_reach a e then 1 else 0).
Proof.
  rewrite reaches_app. unfold reaches at 2. simpl.
  now destruct (is_reach a e).
Qed.

Lemma invocations_snoc a tr e :
  invocations a (tr ++ [e]) =
  invocations a tr + (if is_invoke a e then 1 else 0).
Proof.
  rewrite invocations_app. unfold invocations at 2. simpl.
  now destruct (is_invoke a e).
Qed.

Ltac ext_split := unfold ext; split; [|split; [|split; [|split]]].

Lemma app_nil_ex {A : Type} (l : list A) : exists k, l = l ++ k.
Proof. exists []. now rewrite app_nil_r. Qed.

Lemma ext_refl s : ext s s.
Proof. ext_split; auto using incl_refl, app_nil_ex. Qed.

Lemma ext_trans s1 s2 s3 : ext s1 s2 -> ext s2 s3 -> ext s1 s3.
Proof.
  intros (L1 & I1 & [e1 T1] & [f1 E1] & J1) (L2 & I2 & [e2 T2] & [f2 E2] & J2).
  ext_split.
  - congruence.
  - eauto using incl_tran.
  - exists (e1 ++ e2). now rewrite T2, T1, app_assoc.
  - exists (f1 ++ f2). now rewrite E2, E1, app_assoc.
  - auto.
Qed.

Lemma ext_seen a s : seen_mem a s = true -> ext s (log (Reach a) s).
Proof.
  intros Hs. apply seen_mem_In in Hs.
  ext_split; simpl; auto using incl_refl, app_nil_ex.
  - now exists [Reach a].
  - intros J b. destruct (J b) as (J1 & J2 & J3). simpl.
    rewrite descents_snoc, reaches_snoc. simpl.
    rewrite !Nat.add_0_r.
    destruct (Nat.eqb_spec b a) as [->|Hne]; simpl;
      rewrite ?Nat.add_0_r; auto.
Qed.

Lemma ext_descend a s :
  seen_mem a s = false ->
  ext s (log (Descend a) (mark a (log (Reach a) s))).
Proof.
  intros Hs. apply seen_mem_notin in Hs.
  ext_split; simpl; auto using incl_tl, incl_refl, app_nil_ex.
  - exists [Reach a; Descend a]. now rewrite <- app_assoc.
  - intros J b. destruct (J b) as (J1 & J2 & J3). simpl.
    rewrite !descents_snoc, !reaches_snoc. simpl.
    destruct (Nat.eqb_spec b a) as [->|Hne]; simpl.
    + assert (descents a (trace s) = 0).
      { destruct (descents a (trace s)) as [|[|n]] eqn:E; auto; try lia.
        exfalso. apply Hs, J1. reflexivity. }
      split; [|split]; intros; auto; lia.
    + rewrite !Nat.add_0_r. split; [|split]; auto.
      split.
      * intros [Heq|Hin]; [congruence | now apply J1].
      * intros Hd. right. now apply J1.
Qed.

Lemma ext_store a v s : ext s (store a v s).
Proof.
  ext_split; simpl; auto using incl_refl, set_nth_length, app_nil_ex.
Qed.

Lemma ext_errorf f s : ext s (Errorf f s).
Proof.
  ext_split; simpl; auto using incl_refl, app_nil_ex.
  now exists [f].
Qed.

Lemma ext_invoke r s : ext s (log (Invoke r) s).
Proof.
  ext_split; simpl; auto using incl_refl, app_nil_ex.
  - now exists [Invoke r].
  - intros J b. destruct (J b) as (J1 & J2 & J3). simpl.
    rewrite descents_snoc, reaches_snoc. simpl.
    rewrite !Nat.add_0_r. auto.
Qed.

Lemma setFile_ext fuel file opts pl val s v' s' :
  setFile fuel file opts pl val s = Some (v', s') -> ext s s'.
Proof.
  apply setFile_R;
    auto using ext_refl, ext_seen, ext_descend, ext_store.
  exact ext_trans.
Qed.

Lemma assertFile_ext Sprint fuel path pl val want opts s b s' :
  assertFile Sprint fuel path pl val want opts s = Some (b, s') -> ext s s'.
Proof.
  apply assertFile_R;
    auto using ext_refl, ext_seen, ext_descend, ext_errorf.
  exact ext_trans.
Qed.

Lemma setDirectory_ext implements fuel dir pl val s s' :
  setDirectory implements fuel dir pl val s = Some s' -> ext s s'.
Proof.
  apply setDirectory_R;
    auto using ext_refl, ext_seen, ext_descend, ext_invoke.
  exact ext_trans.
Qed.

Lemma seen_ok_init h : seen_ok (init_state h).
Proof.
  intros a. simpl. unfold descents, reaches. simpl.
  repeat split; try lia; intros []; discriminate.
Qed.

(** ** More fuel changes nothing *)

Ltac mono Hrec IH :=
  inv_some;
  repeat (first [ erewrite Hrec by eassumption
                | erewrite IH by eassumption ]; simpl);
  try reflexivity.

Lemma walk_elems_mono rec rec' :
  (forall v s r, rec v s = Some r -> rec' v s = Some r) ->
  forall es s r, walk_elems rec es s = Some r ->
                 walk_elems rec' es s = Some r.
Proof.
  intros Hrec. induction es as [|e es IH]; simpl; intros s r H; auto.
  mono Hrec IH.
Qed.

Lemma walk_entries_mono rec rec' :
  (forall v s r, rec v s = Some r -> rec' v s = Some r) ->
  forall kvs s r, walk_entries rec kvs s = Some r ->
                  walk_entries rec' kvs s = Some r.
Proof.
  intros Hrec. induction kvs as [|[k v] kvs IH]; simpl; intros s r H; auto.
  mono Hrec IH.
Qed.

Lemma setFile_fields_mono rec rec' file opts typ pl :
  (forall v s r, rec v s = Some r -> rec' v s = Some r) ->
  forall n i fs s r,
    setFile_fields rec file opts typ pl n i fs s = Some r ->
    setFile_fields rec' file opts typ pl n i fs s = Some r.
Proof.
  intros Hrec. induction n as [|n IH]; simpl; intros i fs s r H; auto.
  destruct (nth_error fs i) as [[name vf]|]; auto.
  destruct (negb (CanSet pl name) || exclude opts (typ, name)); auto.
  destruct (is_file opts (typ, name) vf); auto.
  destruct (is_files opts (typ, name) vf); auto.
  mono Hrec IH.
Qed.

Lemma setFile_mono fuel : forall fuel' file opts pl val s r,
  fuel <= fuel' ->
  setFile fuel file opts pl val s = Some r ->
  setFile fuel' file opts pl val s = Some r.
Proof.
  induction fuel as [|fuel IH]; intros [|fuel'] file opts pl val s r Hle;
    simpl; intros H; try discriminate; try lia.
  assert (Hrec : forall pl v s r,
             setFile fuel file opts pl v s = Some r ->
             setFile fuel' file opts pl v s = Some r)
    by (intros; eapply IH; [lia | eassumption]).
  destruct (isNil val); auto.
  destruct val as [t x|t x|t [a|]|t fs|t [es|]|t es|t [kvs|]|t [x|]|t x];
    auto.
  - destruct (seen_mem a (log (Reach a) s)); auto.
    destruct (nth_error _ a); auto. inv_some. erewrite Hrec by eassumption. reflexivity.
  - inv_some.
    erewrite (setFile_fields_mono _ _ _ _ _ _ (Hrec _)) by eassumption.
    reflexivity.
  - inv_some. erewrite (walk_elems_mono _ _ (Hrec _)) by eassumption.
    reflexivity.
  - inv_some. erewrite (walk_elems_mono _ _ (Hrec _)) by eassumption.
    reflexivity.
  - inv_some. erewrite (walk_entries_mono _ _ (Hrec _)) by eassumption.
    reflexivity.
  - inv_some. erewrite Hrec by eassumption. reflexivity.
Qed.

Lemma dir_elems_mono rec rec' :
  (forall v s r, rec v s = Some r -> rec' v s = Some r) ->
  forall es s r, dir_elems rec es s = Some r -> dir_elems rec' es s = Some r.
Proof.
  intros Hrec. induction es as [|e es IH]; simpl; intros s r H; auto.
  inv_some. erewrite Hrec by eassumption. auto.
Qed.

Lemma dir_entries_mono rec rec' :
  (forall v s r, rec v s = Some r -> rec' v s = Some r) ->
  forall kvs s r, dir_entries rec kvs s = Some r ->
                  dir_entries rec' kvs s = Some r.
Proof.
  intros Hrec. induction kvs as [|[k v] kvs IH]; simpl; intros s r H; auto.
  destruct (rec k s) eqn:E1; [|discriminate].
  destruct (rec v s0) eqn:E2; [|discriminate].
  rewrite (Hrec _ _ _ E1), (Hrec _ _ _ E2). auto.
Qed.

Lemma setDirectory_fields_mono rec rec' pl :
  (forall v s r, rec v s = Some r -> rec' v s = Some r) ->
  forall fs s r, setDirectory_fields rec pl fs s = Some r ->
                 setDirectory_fields rec' pl fs s = Some r.
Proof.
  intros Hrec. induction fs as [|[name vf] fs IH]; simpl; intros s r H; auto.
  destruct (negb (CanSet pl name)); auto.
  destruct (rec vf s) eqn:E1; [|discriminate].
  rewrite (Hrec _ _ _ E1). auto.
Qed.

Lemma setDirectory_mono implements fuel : forall fuel' dir pl val s r,
  fuel <= fuel' ->
  setDirectory implements fuel dir pl val s = Some r ->
  setDirectory implements fuel' dir pl val s = Some r.
Proof.
  induction fuel as [|fuel IH]; intros [|fuel'] dir pl val s r Hle;
    simpl; intros H; try discriminate; try lia.
  assert (Hrec : forall pl v s r,
             setDirectory implements fuel dir pl v s = Some r ->
             setDirectory implements fuel' dir pl v s = Some r)
    by (intros; eapply IH; [lia | eassumption]).
  destruct (isNil val); auto.
  set (sc := call_capability implements pl val s) in *. clearbody sc.
  destruct val as [t x|t x|t [a|]|t fs|t [es|]|t es|t [kvs|]|t [x|]|t x];
    auto.
  - destruct (seen_mem a (log (Reach a) sc)); auto.
    destruct (nth_error _ a); auto.
  - eapply setDirectory_fields_mono; [apply Hrec | eassumption].
  - eapply dir_elems_mono; [apply Hrec | eassumption].
  - eapply dir_elems_mono; [apply Hrec | eassumption].
  - eapply dir_entries_mono; [apply Hrec | eassumption].
Qed.

Lemma assert_elems_mono Rec Rec' :
  (forall p v s r, Rec p v s = Some r -> Rec' p v s = Some r) ->
  forall es path i s r, assert_elems Rec path i es s = Some r ->
                        assert_elems Rec' path i es s = Some r.
Proof.
  intros Hrec. induction es as [|e es IH]; simpl; intros path i s r H; auto.
  mono Hrec IH.
Qed.

Lemma assert_entries_mono Sprint Rec Rec' :
  (forall p v s r, Rec p v s = Some r -> Rec' p v s = Some r) ->
  forall kvs path s r, assert_entries Sprint Rec path kvs s = Some r ->
                       assert_entries Sprint Rec' path kvs s = Some r.
Proof.
  intros Hrec. induction kvs as [|[k v] kvs IH]; simpl; intros path s r H;
    auto.
  mono Hrec IH.
Qed.

Lemma assertFile_fields_mono Rec Rec' path want opts typ pl :
  (forall p v s r, Rec p v s = Some r -> Rec' p v s = Some r) ->
  forall fs s r,
    assertFile_fields Rec path want opts typ pl fs s = Some r ->
    assertFile_fields Rec' path want opts typ pl fs s = Some r.
Proof.
  intros Hrec. induction fs as [|[name vf] fs IH]; simpl; intros s r H; auto.
  destruct (negb (CanSet pl name) || exclude opts (typ, name)); auto.
  destruct (is_file opts (typ, name) vf).
  { destruct (String.eqb (String_of vf) want); auto. mono Hrec IH. }
  destruct (is_files opts (typ, name) vf).
  { destruct (assert_strings _ _ _ _ _) as [b1 s1]. mono Hrec IH. }
  mono Hrec IH.
Qed.

Lemma assertFile_mono Sprint fuel : forall fuel' path pl val want opts s r,
  fuel <= fuel' ->
  assertFile Sprint fuel path pl val want opts s = Some r ->
  assertFile Sprint fuel' path pl val want opts s = Some r.
Proof.
  induction fuel as [|fuel IH];
    intros [|fuel'] path pl val want opts s r Hle;
    simpl; intros H; try discriminate; try lia.
  assert (Hrec : forall path pl v s r,
             assertFile Sprint fuel path pl v want opts s = Some r ->
             assertFile Sprint fuel' path pl v want opts s = Some r)
    by (intros; eapply IH; [lia | eassumption]).
  destruct (isNil val); auto.
  destruct val as [t x|t x|t [a|]|t fs|t [es|]|t es|t [kvs|]|t [x|]|t x];
    auto.
  - destruct (seen_mem a (log (Reach a) s)); auto.
    destruct (nth_error _ a); auto.
  - eapply assertFile_fields_mono; [|eassumption]. cbv beta. intros. now apply Hrec.
  - eapply assert_elems_mono; [|eassumption]. cbv beta. intros. now apply Hrec.
  - eapply assert_elems_mono; [|eassumption]. cbv beta. intros. now apply Hrec.
  - eapply assert_entries_mono; [|eassumption]. cbv beta. intros. now apply Hrec.
Qed.

(** ** Termination *)

Lemma filter_length_le {A : Type} (f g : A -> bool) (l : list A) :
  (forall x, In x l -> f x = true -> g x = true) ->
  List.length (filter f l) <= List.length (filter g l).
Proof.
  induction l as [|x l IH]; simpl; intros H; [lia|].
  assert (IH' := IH (fun y Hy => H y (or_intror Hy))).
  destruct (f x) eqn:Ef.
  - rewrite (H x (or_introl eq_refl) Ef). simpl. lia.
  - destruct (g x); simpl; lia.
Qed.

Lemma filter_length_lt {A : Type} (f g : A -> bool) (l : list A) (a : A) :
  (forall x, In x l -> f x = true -> g x = true) ->
  In a l -> f a = false -> g a = true ->
  List.length (filter f l) < List.length (filter g l).
Proof.
  induction l as [|x l IH]; simpl; intros H Hin Hf Hg; [contradiction|].
  assert (Hl := filter_length_le f g l (fun y Hy => H y (or_intror Hy))).
  destruct Hin as [->|Hin].
  - rewrite Hf, Hg. simpl. lia.
  - assert (IH' := IH (fun y Hy => H y (or_intror Hy)) Hin Hf Hg).
    destruct (f x) eqn:Ef.
    + rewrite (H x (or_introl eq_refl) Ef). simpl. lia.
    + destruct (g x); simpl; lia.
Qed.

Lemma ext_unseen s s' : ext s s' -> unseen s' <= unseen s.
Proof.
  intros (L & I & _). unfold unseen. rewrite L.
  apply filter_length_le. intros a _ Ha.
  apply negb_true_iff in Ha. apply negb_true_iff.
  apply seen_mem_notin in Ha. apply seen_mem_notin. auto.
Qed.

Lemma descend_unseen a s :
  seen_mem a s = false -> a < List.length (heap s) ->
  unseen (log (Descend a) (mark a (log (Reach a) s))) < unseen s.
Proof.
  intros Hs Ha. unfold unseen. simpl.
  apply filter_length_lt with (a := a).
  - intros x _ Hx. apply negb_true_iff in Hx. apply negb_true_iff.
    apply seen_mem_notin in Hx. apply seen_mem_notin.
    simpl in Hx. tauto.
  - apply in_seq. lia.
  - apply negb_false_iff. apply seen_mem_In. simpl. auto.
  - now rewrite Hs.
Qed.

Lemma nth_error_set_nth {A : Type} (l : list A) : forall i j x,
  nth_error (set_nth i x l) j =
  if Nat.eqb i j
  then match nth_error l j with Some _ => Some x | None => None end
  else nth_error l j.
Proof.
  induction l as [|y l IH]; intros [|i] [|j] x; simpl; auto.
  now destruct (Nat.eqb i j).
Qed.

(** A family of walkers indexed by fuel that can only gain from more fuel
    and that move the state along [ext]. *)
Section LoopsTotal.

Variable rec : nat -> value -> state -> option (value * state).
Hypothesis rec_mono : forall f f' v s r,
  f <= f' -> rec f v s = Some r -> rec f' v s = Some r.
Hypothesis rec_ext : forall f v s v' s',
  rec f v s = Some (v', s') -> ext s s'.
Variable k : nat.

Local Abbreviation halts v :=
  (forall s, unseen s <= k -> exists f r, rec f v s = Some r).

Lemma walk_elems_total es :
  (forall e, In e es -> halts e) ->
  forall s, unseen s <= k -> exists f r, walk_elems (rec f) es s = Some r.
Proof.
  induction es as [|e es IH]; intros H s Hs; simpl.
  - exists 0. eauto.
  - destruct (H e (or_introl eq_refl) s Hs) as (f1 & [e' s1] & E1).
    assert (Hs1 : unseen s1 <= k)
      by (apply rec_ext in E1; apply ext_unseen in E1; lia).
    destruct (IH (fun x Hx => H x (or_intror Hx)) s1 Hs1)
      as (f2 & [es' s2] & E2).
    exists (Nat.max f1 f2). eexists.
    rewrite (rec_mono f1 (Nat.max f1 f2) _ _ _ (Nat.le_max_l _ _) E1).
    rewrite (walk_elems_mono (rec f2) (rec (Nat.max f1 f2))
               (fun v s r => rec_mono f2 _ v s r (Nat.le_max_r _ _))
               _ _ _ E2).
    reflexivity.
Qed.

Lemma walk_entries_total kvs :
  (forall x y, In (x, y) kvs -> halts x /\ halts y) ->
  forall s, unseen s <= k ->
            exists f r, walk_entries (rec f) kvs s = Some r.
Proof.
  induction kvs as [|[x y] kvs IH]; intros H s Hs; simpl.
  - exists 0. eauto.
  - destruct (H x y (or_introl eq_refl)) as [Hx Hy].
    destruct (Hx s Hs) as (f1 & [x' s1] & E1).
    assert (Hs1 : unseen s1 <= k)
      by (apply rec_ext in E1; apply ext_unseen in E1; lia).
    destruct (Hy s1 Hs1) as (f2 & [y' s2] & E2).
    assert (Hs2 : unseen s2 <= k)
      by (apply rec_ext in E2; apply ext_unseen in E2; lia).
    destruct (IH (fun a b Hab => H a b (or_intror Hab)) s2 Hs2)
      as (f3 & [kvs' s3] & E3).
    assert (L1 : f1 <= Nat.max f1 (Nat.max f2 f3)) by lia.
    assert (L2 : f2 <= Nat.max f1 (Nat.max f2 f3)) by lia.
    assert (L3 : f3 <= Nat.max f1 (Nat.max f2 f3)) by lia.
    exists (Nat.max f1 (Nat.max f2 f3)). eexists.
    rewrite (rec_mono f1 _ _ _ _ L1 E1).
    rewrite (rec_mono f2 _ _ _ _ L2 E2).
    rewrite (walk_entries_mono (rec f3) (rec (Nat.max f1 (Nat.max f2 f3)))
               (fun v s r => rec_mono f3 _ v s r L3) _ _ _ E3).
    reflexivity.
Qed.

Hypothesis halts_string : forall t s, halts (VString t s).

Lemma setFile_fields_total file opts typ pl n : forall i fs,
  (forall j name v, i <= j -> nth_error fs j = Some (name, v) -> halts v) ->
  forall s, unseen s <= k ->
    exists f r,
      setFile_fields (rec f) file opts typ pl n i fs s = Some r.
Proof.
  induction n as [|n IH]; intros i fs H s Hs; simpl.
  - exists 0. eauto.
  - destruct (nth_error fs i) as [[name vf]|] eqn:Ei; [|exists 0; eauto].
    assert (Hkeep : forall fs',
      (forall j, S i <= j ->
         nth_error fs' j = nth_error fs j \/
         exists nm t s0, nth_error fs' j = Some (nm, VString t s0)) ->
      forall j name v, S i <= j ->
        nth_error fs' j = Some (name, v) -> halts v).
    { intros fs' Hfs' j nm v Hj Hn.
      destruct (Hfs' j Hj) as [Heq | (nm' & t & s0 & Heq)].
      - rewrite Heq in Hn. apply (H j nm v); [lia | exact Hn].
      - rewrite Heq in Hn. inversion Hn. apply halts_string. }
    destruct (negb (CanSet pl name) || exclude opts (typ, name)).
    { apply IH; auto. intros j0 nm0 v0 Hj0 Hn0.
      apply (H j0 nm0 v0); [lia | exact Hn0]. }
    destruct (is_file opts (typ, name) vf).
    { apply IH; auto. apply Hkeep. intros j Hj.
      rewrite nth_error_set_nth.
      destruct (Nat.eqb_spec i j); [lia|].
      unfold clear_sibling.
      destruct (FieldByName fs _) as [js|]; auto.
      destruct (nth_error fs js) as [[sname sf]|] eqn:Ejs; auto.
      destruct (kind_eqb _ _); auto.
      rewrite nth_error_set_nth.
      destruct (Nat.eqb_spec js j); auto. subst js. rewrite Ejs.
      right. unfold SetString. eauto. }
    destruct (is_files opts (typ, name) vf).
    { apply IH; auto. apply Hkeep. intros j Hj.
      rewrite nth_error_set_nth. destruct (Nat.eqb_spec i j); [lia|auto]. }
    destruct (H i name vf (Nat.le_refl _) Ei s Hs) as (f1 & [vf' s1] & E1).
    assert (Hs1 : unseen s1 <= k)
      by (apply rec_ext in E1; apply ext_unseen in E1; lia).
    destruct (IH (S i) (set_nth i (name, vf') fs)) with (s := s1)
      as (f2 & r2 & E2); auto.
    { apply Hkeep. intros j Hj. rewrite nth_error_set_nth.
      destruct (Nat.eqb_spec i j); [lia|auto]. }
    exists (Nat.max f1 f2), r2.
    rewrite (rec_mono f1 _ _ _ _ (Nat.le_max_l _ _) E1).
    apply (setFile_fields_mono (rec f2)); [|exact E2].
    intros v s0 r. apply rec_mono. lia.
Qed.

End LoopsTotal.

Lemma vsize_pos v : 0 < vsize v.
Proof.
  destruct v as [t x|t x|t p|t fs|t [es|]|t es|t [kvs|]|t [x|]|t x];
    simpl; lia.
Qed.

Lemma vsize_elem t es e : In e es -> vsize e < vsize (VArray t es).
Proof.
  simpl. induction es as [|x es IH]; simpl; intros H; [contradiction|].
  destruct H as [->|H]; [lia|]. specialize (IH H). lia.
Qed.

Lemma vsize_field t fs name v :
  In (name, v) fs -> vsize v < vsize (VStruct t fs).
Proof.
  simpl. induction fs as [|[n x] fs IH]; simpl; intros H; [contradiction|].
  destruct H as [H|H]; [inversion H; subst; lia|]. specialize (IH H). lia.
Qed.

Lemma vsize_entry t kvs x y :
  In (x, y) kvs ->
  vsize x < vsize (VMap t (Some kvs)) /\ vsize y < vsize (VMap t (Some kvs)).
Proof.
  simpl. induction kvs as [|[a b] kvs IH]; simpl; intros H; [contradiction|].
  destruct H as [H|H]; [inversion H; subst; lia|]. specialize (IH H). lia.
Qed.

Lemma setFile_halts file opts : forall k N val s pl,
  unseen s <= k -> vsize val <= N ->
  exists f r, setFile f file opts pl val s = Some r.
Proof.
  induction k as [k IHk] using lt_wf_ind.
  induction N as [|N IHN]; intros val s pl Hs Hv.
  { pose proof (vsize_pos val). lia. }
  assert (Hmono : forall pl0 f f' v s0 r,
             f <= f' -> setFile f file opts pl0 v s0 = Some r ->
             setFile f' file opts pl0 v s0 = Some r)
    by (intros; eapply setFile_mono; eassumption).
  assert (Hext : forall pl0 f v s0 v' s',
             setFile f file opts pl0 v s0 = Some (v', s') -> ext s0 s')
    by (intros; eapply setFile_ext; eassumption).
  assert (Hstr : forall pl0 t x s0, unseen s0 <= k ->
             exists f r, setFile f file opts pl0 (VString t x) s0 = Some r)
    by (intros; exists 1; simpl; eauto).
  destruct (isNil val) eqn:Hnil.
  { exists 1. simpl. rewrite Hnil. eauto. }
  destruct val as [t x|t x|t [a|]|t fs|t [es|]|t es|t [kvs|]|t [x|]|t x];
    try discriminate Hnil;
    try (exists 1; simpl in *; try rewrite Hnil; eauto; fail).
  - (* pointer *)
    destruct (seen_mem a (log (Reach a) s)) eqn:Hseen.
    { exists 1. simpl. rewrite Hseen. eauto. }
    destruct (nth_error (heap s) a) as [target|] eqn:Ha.
    + assert (Hlt : a < List.length (heap s))
        by (apply nth_error_Some; congruence).
      pose proof (descend_unseen a s Hseen Hlt) as Hd.
      destruct (IHk (unseen (log (Descend a) (mark a (log (Reach a) s))))
                  ltac:(lia) (vsize target) target
                  (log (Descend a) (mark a (log (Reach a) s))) (Cell a)
                  (Nat.le_refl _) (Nat.le_refl _))
        as (f & [v' s'] & E).
      exists (S f). simpl. rewrite Hseen. simpl in *. rewrite Ha, E. eauto.
    + exists 1. simpl. rewrite Hseen. simpl. rewrite Ha. eauto.
  - (* struct *)
    destruct (setFile_fields_total
                (fun f => setFile f file opts (sub_place pl))
                (Hmono _) (Hext _) k (Hstr _)
                file opts t pl (List.length fs) 0 fs) with (s := s)
      as (f & [fs' s'] & E); auto.
    { intros j name v _ Hn s0 Hs0. apply IHN; auto.
      apply nth_error_In in Hn. apply (vsize_field t) in Hn. lia. }
    exists (S f). simpl. rewrite E. eauto.
  - (* slice *)
    destruct (walk_elems_total (fun f => setFile f file opts Inside)
                (Hmono _) (Hext _) k es) with (s := s)
      as (f & [es' s'] & E); auto.
    { intros e He s0 Hs0. apply IHN; auto.
      apply (vsize_elem t) in He. simpl in *. lia. }
    exists (S f). simpl. rewrite E. eauto.
  - (* array *)
    destruct (walk_elems_total
                (fun f => setFile f file opts (sub_place pl))
                (Hmono _) (Hext _) k es) with (s := s)
      as (f & [es' s'] & E); auto.
    { intros e He s0 Hs0. apply IHN; auto.
      apply (vsize_elem t) in He. simpl in *. lia. }
    exists (S f). simpl. rewrite E. eauto.
  - (* map *)
    destruct (walk_entries_total
                (fun f => setFile f file opts Unaddressable)
                (Hmono _) (Hext _) k kvs) with (s := s)
      as (f & [kvs' s'] & E); auto.
    { intros x y Hxy. apply (vsize_entry t) in Hxy.
      split; intros s0 Hs0; apply IHN; auto; simpl in *; lia. }
    exists (S f). simpl. rewrite E. eauto.
  - (* interface *)
    destruct (IHN x s Unaddressable Hs ltac:(simpl in Hv; lia))
      as (f & [x' s'] & E).
    exists (S f). simpl. rewrite E. eauto.
Qed.

Section DirLoopsTotal.

Variable rec : nat -> value -> state -> option state.
Hypothesis rec_mono : forall f f' v s r,
  f <= f' -> rec f v s = Some r -> rec f' v s = Some r.
Hypothesis rec_ext : forall f v s s', rec f v s = Some s' -> ext s s'.
Variable k : nat.

Local Abbreviation halts v :=
  (forall s, unseen s <= k -> exists f r, rec f v s = Some r).

Lemma dir_elems_total es :
  (forall e, In e es -> halts e) ->
  forall s, unseen s <= k -> exists f r, dir_elems (rec f) es s = Some r.
Proof.
  induction es as [|e es IH]; intros H s Hs; simpl.
  - exists 0. eauto.
  - destruct (H e (or_introl eq_refl) s Hs) as (f1 & s1 & E1).
    assert (Hs1 : unseen s1 <= k)
      by (apply rec_ext in E1; apply ext_unseen in E1; lia).
    destruct (IH (fun x Hx => H x (or_intror Hx)) s1 Hs1)
      as (f2 & s2 & E2).
    exists (Nat.max f1 f2), s2.
    rewrite (rec_mono f1 (Nat.max f1 f2) _ _ _ (Nat.le_max_l _ _) E1).
    apply (dir_elems_mono (rec f2)); [|exact E2].
    intros v s0 r. apply rec_mono. lia.
Qed.

Lemma dir_entries_total kvs :
  (forall x y, In (x, y) kvs -> halts x /\ halts y) ->
  forall s, unseen s <= k -> exists f r, dir_entries (rec f) kvs s = Some r.
Proof.
  induction kvs as [|[x y] kvs IH]; intros H s Hs; simpl.
  - exists 0. eauto.
  - destruct (H x y (or_introl eq_refl)) as [Hx Hy].
    destruct (Hx s Hs) as (f1 & s1 & E1).
    assert (Hs1 : unseen s1 <= k)
      by (apply rec_ext in E1; apply ext_unseen in E1; lia).
    destruct (Hy s1 Hs1) as (f2 & s2 & E2).
    assert (Hs2 : unseen s2 <= k)
      by (apply rec_ext in E2; apply ext_unseen in E2; lia).
    destruct (IH (fun a b Hab => H a b (or_intror Hab)) s2 Hs2)
      as (f3 & s3 & E3).
    assert (L1 : f1 <= Nat.max f1 (Nat.max f2 f3)) by lia.
    assert (L2 : f2 <= Nat.max f1 (Nat.max f2 f3)) by lia.
    assert (L3 : f3 <= Nat.max f1 (Nat.max f2 f3)) by lia.
    exists (Nat.max f1 (Nat.max f2 f3)), s3.
    rewrite (rec_mono f1 _ _ _ _ L1 E1).
    rewrite (rec_mono f2 _ _ _ _ L2 E2).
    apply (dir_entries_mono (rec f3)); [|exact E3].
    intros v s0 r. now apply rec_mono.
Qed.

Lemma setDirectory_fields_total pl fs :
  (forall name v, In (name, v) fs -> halts v) ->
  forall s, unseen s <= k ->
            exists f r, setDirectory_fields (rec f) pl fs s = Some r.
Proof.
  induction fs as [|[name vf] fs IH]; intros H s Hs; simpl.
  - exists 0. eauto.
  - assert (H' := fun n v Hx => H n v (or_intror Hx)).
    destruct (negb (CanSet pl name)); [now apply IH|].
    destruct (H name vf (or_introl eq_refl) s Hs) as (f1 & s1 & E1).
    assert (Hs1 : unseen s1 <= k)
      by (apply rec_ext in E1; apply ext_unseen in E1; lia).
    destruct (IH H' s1 Hs1) as (f2 & s2 & E2).
    exists (Nat.max f1 f2), s2.
    rewrite (rec_mono f1 (Nat.max f1 f2) _ _ _ (Nat.le_max_l _ _) E1).
    apply (setDirectory_fields_mono (rec f2)); [|exact E2].
    intros v s0 r. apply rec_mono. lia.
Qed.

End DirLoopsTotal.

Lemma setDirectory_halts implements dir : forall k N val s pl,
  unseen s <= k -> vsize val <= N ->
  exists f r, setDirectory implements f dir pl val s = Some r.
Proof.
  induction k as [k IHk] using lt_wf_ind.
  induction N as [|N IHN]; intros val s pl Hs Hv.
  { pose proof (vsize_pos val). lia. }
  assert (Hmono : forall pl0 f f' v s0 r,
             f <= f' -> setDirectory implements f dir pl0 v s0 = Some r ->
             setDirectory implements f' dir pl0 v s0 = Some r)
    by (intros; eapply setDirectory_mono; eassumption).
  assert (Hext : forall pl0 f v s0 s',
             setDirectory implements f dir pl0 v s0 = Some s' -> ext s0 s')
    by (intros; eapply setDirectory_ext; eassumption).
  destruct (isNil val) eqn:Hnil.
  { exists 1. simpl. rewrite Hnil. eauto. }
  assert (Hc : ext s (call_capability implements pl val s)).
  { apply call_capability_R; auto using ext_refl, ext_invoke. }
  apply ext_unseen in Hc.
  destruct val as [t x|t x|t [a|]|t fs|t [es|]|t es|t [kvs|]|t [x|]|t x];
    try discriminate Hnil;
    try (exists 1; simpl in *; try rewrite Hnil; eauto; fail);
    match goal with
    | _ : context [call_capability implements pl ?v s] |- _ =>
        set (sc := call_capability implements pl v s) in *
    end.
  - (* pointer *)
    destruct (seen_mem a (log (Reach a) sc)) eqn:Hseen.
    { exists 1. simpl. fold sc. rewrite Hseen. eauto. }
    destruct (nth_error (heap sc) a) as [target|] eqn:Ha.
    + assert (Hlt : a < List.length (heap sc))
        by (apply nth_error_Some; congruence).
      pose proof (descend_unseen a sc Hseen Hlt) as Hd.
      destruct (IHk (unseen (log (Descend a) (mark a (log (Reach a) sc))))
                  ltac:(lia) (vsize target) target
                  (log (Descend a) (mark a (log (Reach a) sc))) (Cell a)
                  (Nat.le_refl _) (Nat.le_refl _))
        as (f & s' & E).
      exists (S f). simpl. fold sc. rewrite Hseen. simpl in *.
      rewrite Ha, E. eauto.
    + exists 1. simpl. fold sc. rewrite Hseen. simpl. rewrite Ha. eauto.
  - (* struct *)
    destruct (setDirectory_fields_total
                (fun f => setDirectory implements f dir (sub_place pl))
                (Hmono _) (Hext _) k pl fs) with (s := sc)
      as (f & s' & E); auto; [|lia|].
    { intros name v Hn s0 Hs0. apply IHN; auto.
      apply (vsize_field t) in Hn. lia. }
    exists (S f). simpl. fold sc. rewrite E. eauto.
  - (* slice *)
    destruct (dir_elems_total (fun f => setDirectory implements f dir Inside)
                (Hmono _) (Hext _) k es) with (s := sc)
      as (f & s' & E); auto; [|lia|].
    { intros e He s0 Hs0. apply IHN; auto.
      apply (vsize_elem t) in He. simpl in *. lia. }
    exists (S f). simpl. fold sc. rewrite E. eauto.
  - (* array *)
    destruct (dir_elems_total
                (fun f => setDirectory implements f dir (sub_place pl))
                (Hmono _) (Hext _) k es) with (s := sc)
      as (f & s' & E); auto; [|lia|].
    { intros e He s0 Hs0. apply IHN; auto.
      apply (vsize_elem t) in He. simpl in *. lia. }
    exists (S f). simpl. fold sc. rewrite E. eauto.
  - (* map *)
    destruct (dir_entries_total
                (fun f => setDirectory implements f dir Unaddressable)
                (Hmono _) (Hext _) k kvs) with (s := sc)
      as (f & s' & E); auto; [|lia|].
    { intros x y Hxy. apply (vsize_entry t) in Hxy.
      split; intros s0 Hs0; apply IHN; auto; simpl in *; lia. }
    exists (S f). simpl. fold sc. rewrite E. eauto.
  - (* interface *)
    destruct (IHN x sc Unaddressable ltac:(lia) ltac:(simpl in Hv; lia))
      as (f & s' & E).
    exists (S f). simpl. fold sc. rewrite E. eauto.
Qed.

Section AssertLoopsTotal.

Variable Sprint : value -> string.
Variable Rec : nat -> string -> value -> state -> option (bool * state).
Hypothesis Rec_mono : forall f f' p v s r,
  f <= f' -> Rec f p v s = Some r -> Rec f' p v s = Some r.
Hypothesis Rec_ext : forall f p v s b s',
  Rec f p v s = Some (b, s') -> ext s s'.
Variable k : nat.

Local Abbreviation halts v :=
  (forall p s, unseen s <= k -> exists f r, Rec f p v s = Some r).

Lemma assert_elems_total es :
  (forall e, In e es -> halts e) ->
  forall path i s, unseen s <= k ->
    exists f r, assert_elems (Rec f) path i es s = Some r.
Proof.
  induction es as [|e es IH]; intros H path i s Hs; cbn [assert_elems].
  - exists 0. eauto.
  - destruct (H e (or_introl eq_refl) (path ++ "[" ++ itoa i ++ "]")%string
                s Hs) as (f1 & [b1 s1] & E1).
    assert (Hs1 : unseen s1 <= k)
      by (apply Rec_ext in E1; apply ext_unseen in E1; lia).
    destruct (IH (fun x Hx => H x (or_intror Hx)) path (S i) s1 Hs1)
      as (f2 & [b2 s2] & E2).
    exists (Nat.max f1 f2). eexists.
    rewrite (Rec_mono f1 (Nat.max f1 f2) _ _ _ _ (Nat.le_max_l _ _) E1).
    rewrite (assert_elems_mono (Rec f2) (Rec (Nat.max f1 f2))
               (fun p v s r => Rec_mono f2 _ p v s r (Nat.le_max_r _ _))
               _ _ _ _ _ E2).
    reflexivity.
Qed.

Lemma assert_entries_total kvs :
  (forall x y, In (x, y) kvs -> halts x /\ halts y) ->
  forall path s, unseen s <= k ->
    exists f r, assert_entries Sprint (Rec f) path kvs s = Some r.
Proof.
  induction kvs as [|[x y] kvs IH]; intros H path s Hs;
    cbn [assert_entries].
  - exists 0. eauto.
  - destruct (H x y (or_introl eq_refl)) as [Hx Hy].
    destruct (Hx ("(" ++ type_string (ifaceType x) ++ ")")%string s Hs)
      as (f1 & [b1 s1] & E1).
    assert (Hs1 : unseen s1 <= k)
      by (apply Rec_ext in E1; apply ext_unseen in E1; lia).
    destruct (Hy (path ++ "[" ++ Sprint x ++ "]")%string s1 Hs1)
      as (f2 & [b2 s2] & E2).
    assert (Hs2 : unseen s2 <= k)
      by (apply Rec_ext in E2; apply ext_unseen in E2; lia).
    destruct (IH (fun a b Hab => H a b (or_intror Hab)) path s2 Hs2)
      as (f3 & [b3 s3] & E3).
    assert (L1 : f1 <= Nat.max f1 (Nat.max f2 f3)) by lia.
    assert (L2 : f2 <= Nat.max f1 (Nat.max f2 f3)) by lia.
    assert (L3 : f3 <= Nat.max f1 (Nat.max f2 f3)) by lia.
    exists (Nat.max f1 (Nat.max f2 f3)). eexists.
    rewrite (Rec_mono f1 _ _ _ _ _ L1 E1).
    rewrite (Rec_mono f2 _ _ _ _ _ L2 E2).
    rewrite (assert_entries_mono Sprint (Rec f3)
               (Rec (Nat.max f1 (Nat.max f2 f3)))
               (fun p v s r => Rec_mono f3 _ p v s r L3) _ _ _ _ E3).
    reflexivity.
Qed.

Lemma assertFile_fields_total path want opts typ pl fs :
  (forall name v, In (name, v) fs -> halts v) ->
  forall s, unseen s <= k ->
    exists f r,
      assertFile_fields (Rec f) path want opts typ pl fs s = Some r.
Proof.
  induction fs as [|[name vf] fs IH]; intros H s Hs;
    cbn [assertFile_fields].
  - exists 0. eauto.
  - assert (H' := fun n v Hx => H n v (or_intror Hx)).
    destruct (negb (CanSet pl name) || exclude opts (typ, name));
      [now apply IH|].
    destruct (is_file opts (typ, name) vf).
    { destruct (String.eqb (String_of vf) want); [now apply IH|].
      destruct (IH H' (Errorf (mkFailure (path ++ "." ++ name)%string
                                 (String_of vf) want) s))
        as (f & [b s'] & E).
      { pose proof (ext_unseen _ _ (ext_errorf
          (mkFailure (path ++ "." ++ name)%string (String_of vf) want) s)).
        lia. }
      exists f. rewrite E. eauto. }
    destruct (is_files opts (typ, name) vf).
    { match goal with
      | |- context [assert_strings ?p ?w ?j ?es ?s1] =>
          pose proof (assert_strings_R ext ext_refl ext_trans ext_errorf
                        es p w j s1) as Hx;
          destruct (assert_strings p w j es s1) as [b1 s1']
      end.
      simpl in Hx. apply ext_unseen in Hx.
      destruct (IH H' s1') as (f & [b s'] & E); [lia|].
      exists f. rewrite E. eauto. }
    destruct (H name vf (or_introl eq_refl) (path ++ "." ++ name)%string
                s Hs) as (f1 & [b1 s1] & E1).
    assert (Hs1 : unseen s1 <= k)
      by (apply Rec_ext in E1; apply ext_unseen in E1; lia).
    destruct (IH H' s1 Hs1) as (f2 & [b2 s2] & E2).
    exists (Nat.max f1 f2). eexists.
    rewrite (Rec_mono f1 (Nat.max f1 f2) _ _ _ _ (Nat.le_max_l _ _) E1).
    rewrite (assertFile_fields_mono (Rec f2) (Rec (Nat.max f1 f2))
               path want opts typ pl
               (fun p v s r => Rec_mono f2 _ p v s r (Nat.le_max_r _ _))
               _ _ _ E2).
    reflexivity.
Qed.

End AssertLoopsTotal.

Lemma assertFile_halts Sprint want opts : forall k N val s path pl,
  unseen s <= k -> vsize val <= N ->
  exists f r, assertFile Sprint f path pl val want opts s = Some r.
Proof.
  induction k as [k IHk] using lt_wf_ind.
  induction N as [|N IHN]; intros val s path pl Hs Hv.
  { pose proof (vsize_pos val). lia. }
  assert (Hmono : forall pl0 f f' p v s0 r,
             f <= f' ->
             assertFile Sprint f p pl0 v want opts s0 = Some r ->
             assertFile Sprint f' p pl0 v want opts s0 = Some r)
    by (intros; eapply assertFile_mono; eassumption).
  assert (Hext : forall pl0 f p v s0 b s',
             assertFile Sprint f p pl0 v want opts s0 = Some (b, s') ->
             ext s0 s')
    by (intros; eapply assertFile_ext; eassumption).
  destruct (isNil val) eqn:Hnil.
  { exists 1. simpl. rewrite Hnil. eauto. }
  destruct val as [t x|t x|t [a|]|t fs|t [es|]|t es|t [kvs|]|t [x|]|t x];
    try discriminate Hnil;
    try (exists 1; simpl in *; try rewrite Hnil; eauto; fail).
  - (* pointer *)
    destruct (seen_mem a (log (Reach a) s)) eqn:Hseen.
    { exists 1. simpl. rewrite Hseen. eauto. }
    destruct (nth_error (heap s) a) as [target|] eqn:Ha.
    + assert (Hlt : a < List.length (heap s))
        by (apply nth_error_Some; congruence).
      pose proof (descend_unseen a s Hseen Hlt) as Hd.
      destruct (IHk (unseen (log (Descend a) (mark a (log (Reach a) s))))
                  ltac:(lia) (vsize target) target
                  (log (Descend a) (mark a (log (Reach a) s))) path (Cell a)
                  (Nat.le_refl _) (Nat.le_refl _))
        as (f & r & E).
      exists (S f). simpl. rewrite Hseen. simpl in *. rewrite Ha, E. eauto.
    + exists 1. simpl. rewrite Hseen. simpl. rewrite Ha. eauto.
  - (* struct *)
    destruct (assertFile_fields_total
                (fun f p v => assertFile Sprint f p (sub_place pl) v want opts)
                (Hmono _) (Hext _) k path want opts t pl fs) with (s := s)
      as (f & r & E); auto.
    { intros name v Hn p s0 Hs0. apply IHN; auto.
      apply (vsize_field t) in Hn. lia. }
    exists (S f). simpl. eauto.
  - (* slice *)
    destruct (assert_elems_total
                (fun f p v => assertFile Sprint f p Inside v want opts)
                (Hmono _) (Hext _) k es) with (s := s) (path := path) (i := 0)
      as (f & r & E); auto.
    { intros e He p s0 Hs0. apply IHN; auto.
      apply (vsize_elem t) in He. simpl in *. lia. }
    exists (S f). simpl. eauto.
  - (* array *)
    destruct (assert_elems_total
                (fun f p v => assertFile Sprint f p (sub_place pl) v want opts)
                (Hmono _) (Hext _) k es) with (s := s) (path := path) (i := 0)
      as (f & r & E); auto.
    { intros e He p s0 Hs0. apply IHN; auto.
      apply (vsize_elem t) in He. simpl in *. lia. }
    exists (S f). simpl. eauto.
  - (* map *)
    destruct (assert_entries_total Sprint
                (fun f p v => assertFile Sprint f p Unaddressable v want opts)
                (Hmono _) (Hext _) k kvs) with (s := s) (path := path)
      as (f & r & E); auto.
    { intros x y Hxy. apply (vsize_entry t) in Hxy.
      split; intros p s0 Hs0; apply IHN; auto; simpl in *; lia. }
    exists (S f). simpl. eauto.
  - (* interface *)
    destruct (IHN x s
                (path ++ ".(" ++ type_string (ifaceType (VIface t (Some x)))
                      ++ ")")%string
                Unaddressable Hs ltac:(simpl in Hv; lia))
      as (f & r & E).
    exists (S f). simpl in *. eauto.
Qed.

Lemma seen_ok_once st : seen_ok st -> descended_once st.
Proof.
  intros J a. destruct (J a) as (J1 & J2 & J3).
  split; [assumption|]. intros Hr. apply J1. auto.
Qed.

Lemma heap_same_refl s : heap_same s s.
Proof. reflexivity. Qed.

Lemma heap_same_trans s1 s2 s3 :
  heap_same s1 s2 -> heap_same s2 s3 -> heap_same s1 s3.
Proof. unfold heap_same. congruence. Qed.

Lemma assertFile_heap Sprint fuel path pl val want opts s b s' :
  assertFile Sprint fuel path pl val want opts s = Some (b, s') ->
  heap s' = heap s.
Proof.
  apply (assertFile_R heap_same heap_same_refl heap_same_trans);
    intros; reflexivity.
Qed.

Lemma setDirectory_heap implements fuel dir pl val s s' :
  setDirectory implements fuel dir pl val s = Some s' -> heap s' = heap s.
Proof.
  apply (setDirectory_R heap_same heap_same_refl heap_same_trans);
    intros; reflexivity.
Qed.

(** ** The verdict of [assertFile] *)

Lemma verdict_refl s : verdict s true s.
Proof. exists []. rewrite app_nil_r. tauto. Qed.

Lemma verdict_and s b1 s1 b2 s2 :
  verdict s b1 s1 -> verdict s1 b2 s2 -> verdict s (b1 && b2) s2.
Proof.
  intros (f1 & E1 & H1) (f2 & E2 & H2). exists (f1 ++ f2). split.
  - now rewrite E2, E1, app_assoc.
  - rewrite andb_true_iff, H1, H2. split.
    + intros [-> ->]. reflexivity.
    + intros H. apply app_eq_nil in H. exact H.
Qed.

Lemma verdict_errorf f s b s' : verdict (Errorf f s) b s' -> verdict s false s'.
Proof.
  intros (fs & E & _). exists (f :: fs). split.
  - rewrite E. simpl. now rewrite <- app_assoc.
  - split; discriminate.
Qed.

Lemma verdict_errs s0 s b s' :
  errs s0 = errs s -> verdict s0 b s' -> verdict s b s'.
Proof. intros E (fs & E' & H). exists fs. rewrite <- E. auto. Qed.

Lemma assert_strings_spec es : forall path want j s,
  assert_strings path want j es s =
  (match spec_mismatches path want j es with [] => true | _ => false end,
   mkState (heap s) (seen s)
           (errs s ++ spec_mismatches path want j es) (trace s)).
Proof.
  induction es as [|e es IH]; intros path want j s; simpl.
  - rewrite app_nil_r. now destruct s.
  - destruct (String.eqb (String_of e) want); simpl.
    + apply IH.
    + rewrite IH. simpl. now rewrite <- app_assoc.
Qed.

Lemma assert_strings_verdict es path want j s :
  verdict s (fst (assert_strings path want j es s))
            (snd (assert_strings path want j es s)).
Proof.
  rewrite assert_strings_spec. simpl.
  exists (spec_mismatches path want j es). split; [reflexivity|].
  destruct (spec_mismatches path want j es); split; congruence.
Qed.

Lemma assert_elems_verdict Rec :
  (forall p v s b s', Rec p v s = Some (b, s') -> verdict s b s') ->
  forall es path i s b s',
    assert_elems Rec path i es s = Some (b, s') -> verdict s b s'.
Proof.
  intros Hrec. induction es as [|e es IH]; simpl; intros path i s b s' H.
  - inv_some. apply verdict_refl.
  - inv_some. eapply verdict_and; eauto.
Qed.

Lemma assert_entries_verdict Sprint Rec :
  (forall p v s b s', Rec p v s = Some (b, s') -> verdict s b s') ->
  forall kvs path s b s',
    assert_entries Sprint Rec path kvs s = Some (b, s') -> verdict s b s'.
Proof.
  intros Hrec. induction kvs as [|[k v] kvs IH]; simpl;
    intros path s b s' H.
  - inv_some. apply verdict_refl.
  - inv_some. eapply verdict_and; [eapply verdict_and|]; eauto.
Qed.

Lemma assertFile_fields_verdict Rec path want opts typ pl :
  (forall p v s b s', Rec p v s = Some (b, s') -> verdict s b s') ->
  forall fs s b s',
    assertFile_fields Rec path want opts typ pl fs s = Some (b, s') ->
    verdict s b s'.
Proof.
  intros Hrec. induction fs as [|[name vf] fs IH]; simpl; intros s b s' H.
  - inv_some. apply verdict_refl.
  - destruct (negb (CanSet pl name) || exclude opts (typ, name)); [eauto|].
    destruct (is_file opts (typ, name) vf).
    { destruct (String.eqb (String_of vf) want); [eauto|].
      inv_some. eapply verdict_errorf; eauto. }
    destruct (is_files opts (typ, name) vf).
    { match type of H with
      | context [assert_strings ?p ?w ?j ?es ?s1] =>
          pose proof (assert_strings_verdict es p w j s1) as Hs;
          destruct (assert_strings p w j es s1) as [b1 s1']
      end.
      inv_some. simpl in Hs. eapply verdict_and; eauto. }
    inv_some. eapply verdict_and; eauto.
Qed.

Lemma assertFile_verdict Sprint fuel : forall path pl val want opts s b s',
  assertFile Sprint fuel path pl val want opts s = Some (b, s') ->
  verdict s b s'.
Proof.
  induction fuel as [|fuel IH]; simpl; intros path pl val want opts s b s' H;
    [discriminate|].
  destruct (isNil val); [inv_some; apply verdict_refl|].
  destruct val as [t x|t x|t [a|]|t fs|t [es|]|t es|t [kvs|]|t [x|]|t x];
    try (inv_some; apply verdict_refl).
  - destruct (seen_mem a (log (Reach a) s)) eqn:Hs.
    + inv_some. eapply verdict_errs; [|apply verdict_refl]. reflexivity.
    + destruct (nth_error _ a).
      * eapply verdict_errs; [|eapply IH; exact H]. reflexivity.
      * inv_some. eapply verdict_errs; [|apply verdict_refl]. reflexivity.
  - eapply assertFile_fields_verdict; [|exact H]. cbv beta; intros; eauto.
  - eapply assert_elems_verdict; [|exact H]. cbv beta; intros; eauto.
  - eapply assert_elems_verdict; [|exact H]. cbv beta; intros; eauto.
  - eapply assert_entries_verdict; [|exact H]. cbv beta; intros; eauto.
  - eauto.
Qed.

(** ** What the field loop of [setFile] leaves alone *)

Lemma clear_sibling_other name fs l nm v :
  nth_error fs l = Some (nm, v) -> Kind (typeOf v) <> KString ->
  nth_error (clear_sibling name fs) l = Some (nm, v).
Proof.
  intros Hl Hk. unfold clear_sibling.
  destruct (FieldByName fs _) as [j|]; auto.
  destruct (nth_error fs j) as [[sname sf]|] eqn:Ej; auto.
  destruct (kind_eqb (Kind (typeOf sf)) KString) eqn:Ek; auto.
  rewrite nth_error_set_nth. destruct (Nat.eqb_spec j l); auto.
  subst j. rewrite Hl in Ej. inversion Ej; subst.
  apply kind_eqb_eq in Ek. contradiction.
Qed.

Lemma setFile_fields_keep rec file opts typ pl l nm v :
  Kind (typeOf v) <> KString ->
  forall n i fs st fs' st',
    l < i -> nth_error fs l = Some (nm, v) ->
    setFile_fields rec file opts typ pl n i fs st = Some (fs', st') ->
    nth_error fs' l = Some (nm, v).
Proof.
  intros Hk. induction n as [|n IH]; simpl; intros i fs st fs' st' Hl Hn H.
  - inv_some. assumption.
  - destruct (nth_error fs i) as [[name vf]|] eqn:Ei; [|inv_some; assumption].
    destruct (negb (CanSet pl name) || exclude opts (typ, name)).
    { eapply IH; [| |exact H]; auto. }
    destruct (is_file opts (typ, name) vf).
    { eapply IH; [| |exact H]; auto.
      rewrite nth_error_set_nth. destruct (Nat.eqb_spec i l); [lia|].
      now apply clear_sibling_other. }
    destruct (is_files opts (typ, name) vf).
    { eapply IH; [| |exact H]; auto.
      rewrite nth_error_set_nth. destruct (Nat.eqb_spec i l); [lia|auto]. }
    inv_some. eapply IH; [| |eassumption]; auto.
    rewrite nth_error_set_nth. destruct (Nat.eqb_spec i l); [lia|auto].
Qed.

Lemma is_files_type opts key vf :
  is_files opts key vf = true -> typeOf vf = stringSliceTyp.
Proof.
  unfold is_files. rewrite andb_true_iff. intros [H _].
  now apply type_eqb_eq.
Qed.

Lemma is_file_type opts key vf :
  is_file opts key vf = true -> typeOf vf = stringTyp.
Proof.
  unfold is_file. rewrite andb_true_iff. intros [H _].
  now apply type_eqb_eq.
Qed.

Lemma setFile_fields_files rec file opts typ pl l name vf :
  CanSet pl name = true -> exclude opts (typ, name) = false ->
  is_files opts (typ, name) vf = true ->
  forall n i fs st fs' st',
    i <= l -> l < i + n -> nth_error fs l = Some (name, vf) ->
    setFile_fields rec file opts typ pl n i fs st = Some (fs', st') ->
    nth_error fs' l = Some (name, single_file file).
Proof.
  intros Hset Hex Hfiles.
  assert (Ht := is_files_type _ _ _ Hfiles).
  assert (Hk : Kind (typeOf vf) <> KString) by (rewrite Ht; discriminate).
  assert (Hnf : is_file opts (typ, name) vf = false).
  { unfold is_file. rewrite Ht. reflexivity. }
  induction n as [|n IH]; simpl; intros i fs st fs' st' Hil Hln Hn H; [lia|].
  destruct (Nat.eq_dec i l) as [->|Hne].
  - rewrite Hn, Hset, Hex, Hnf, Hfiles in H. simpl in H.
    eapply setFile_fields_keep; [| | |exact H]; [discriminate|lia|].
    rewrite nth_error_set_nth, Nat.eqb_refl, Hn. reflexivity.
  - destruct (nth_error fs i) as [[name' vf']|] eqn:Ei.
    2:{ apply nth_error_None in Ei.
        assert (l < List.length fs) by (apply nth_error_Some; congruence).
        lia. }
    destruct (negb (CanSet pl name') || exclude opts (typ, name')).
    { eapply IH; [| | |exact H]; auto; lia. }
    destruct (is_file opts (typ, name') vf').
    { eapply IH; [| | |exact H]; try lia.
      rewrite nth_error_set_nth. destruct (Nat.eqb_spec i l); [lia|].
      now apply clear_sibling_other. }
    destruct (is_files opts (typ, name') vf').
    { eapply IH; [| | |exact H]; try lia.
      rewrite nth_error_set_nth. destruct (Nat.eqb_spec i l); [lia|auto]. }
    inv_some. eapply IH; [| | |eassumption]; try lia.
    rewrite nth_error_set_nth. destruct (Nat.eqb_spec i l); [lia|auto].
Qed.

(** ** Calls of the capability *)

Lemma setDirectory_pointer_trace implements fuel dir pl t a s s' :
  implements t = true ->
  setDirectory implements fuel dir pl (VPtr t (Some a)) s = Some s' ->
  exists evs, trace s' = trace s ++ Invoke (RPtr a) :: Reach a :: evs.
Proof.
  intros Hi H. destruct fuel as [|fuel]; [discriminate|].
  simpl in H. unfold call_capability, capability in H. simpl in H.
  rewrite Hi in H. simpl in H.
  destruct (seen_mem a _) eqn:Hs.
  - inv_some. simpl. exists []. now rewrite <- app_assoc.
  - destruct (nth_error (heap s) a).
    + apply setDirectory_ext in H. destruct H as (_ & _ & [evs E] & _).
      rewrite E. simpl. exists (Descend a :: evs).
      now rewrite <- !app_assoc.
    + inv_some. simpl. exists [Descend a]. now rewrite <- !app_assoc.
Qed.

(** ** Unexported fields *)

Lemma Forall2_nth_error_l {A : Type} (R : A -> A -> Prop) l l' :
  Forall2 R l l' -> forall i,
  match nth_error l i, nth_error l' i with
  | Some x, Some x' => R x x'
  | None, None => True
  | _, _ => False
  end.
Proof.
  induction 1 as [|x x' l l' Hx _ IH]; intros [|i]; simpl; auto.
  apply IH.
Qed.

Lemma Forall2_set_nth {A : Type} (R : A -> A -> Prop) l l' :
  Forall2 R l l' -> forall i x x', R x x' ->
  Forall2 R (set_nth i x l) (set_nth i x' l').
Proof.
  induction 1 as [|y y' l l' Hy Hl IH]; intros [|i] x x' Hx; simpl;
    constructor; auto.
Qed.

Lemma FieldByName_same fs fs' name :
  Forall2 same_exported fs fs' -> FieldByName fs name = FieldByName fs' name.
Proof.
  induction 1 as [|[n v] [n' v'] fs fs' [Hn _] _ IH]; simpl; auto.
  simpl in Hn. subst n'. now rewrite IH.
Qed.

Lemma FieldByName_name fs name : forall j n v,
  FieldByName fs name = Some j -> nth_error fs j = Some (n, v) ->
  n = name /\ name <> "".
Proof.
  induction fs as [|[n0 v0] fs IH]; simpl; intros j n v Hf Hn;
    [discriminate|].
  destruct (negb (String.eqb name "") && String.eqb n0 name) eqn:E.
  - inv_some. simpl in Hn. inv_some.
    apply andb_true_iff in E. destruct E as [E1 E2].
    apply String.eqb_eq in E2. apply negb_true_iff in E1.
    apply String.eqb_neq in E1. auto.
  - destruct (FieldByName fs name) as [j'|]; [|discriminate].
    simpl in Hf. inv_some. simpl in Hn. eauto.
Qed.

Lemma exported_substring name m :
  exported name = true -> substring 0 m name <> "" ->
  exported (substring 0 m name) = true.
Proof.
  destruct name as [|c s]; simpl; [discriminate|].
  destruct m; simpl; intros H Hne; [congruence | exact H].
Qed.

Lemma exported_trim name :
  exported name = true -> TrimSuffix name "File" <> "" ->
  exported (TrimSuffix name "File") = true.
Proof.
  unfold TrimSuffix. destruct (HasSuffix name "File"); auto.
  apply exported_substring.
Qed.

Lemma clear_sibling_same name fs fs' :
  exported name = true -> Forall2 same_exported fs fs' ->
  Forall2 same_exported (clear_sibling name fs) (clear_sibling name fs').
Proof.
  intros Hx HF. unfold clear_sibling.
  rewrite <- (FieldByName_same _ _ _ HF).
  destruct (FieldByName fs _) as [j|] eqn:Ej; auto.
  pose proof (Forall2_nth_error_l _ _ _ HF j) as Hj.
  destruct (nth_error fs j) as [[sn sf]|] eqn:E1,
           (nth_error fs' j) as [[sn' sf']|] eqn:E2; try contradiction; auto.
  destruct Hj as [Hn Hv]. simpl in Hn, Hv. subst sn'.
  destruct (FieldByName_name _ _ _ _ _ Ej E1) as [-> Hne].
  rewrite <- (Hv (exported_trim _ Hx Hne)).
  destruct (kind_eqb _ _); auto.
  apply Forall2_set_nth; auto. split; auto.
Qed.

Lemma setFile_fields_same rec file opts typ pl : forall n i fs fs' st,
  Forall2 same_exported fs fs' ->
  same_exported_result
    (setFile_fields rec file opts typ pl n i fs st)
    (setFile_fields rec file opts typ pl n i fs' st).
Proof.
  induction n as [|n IH]; simpl; intros i fs fs' st HF.
  - split; auto.
  - pose proof (Forall2_nth_error_l _ _ _ HF i) as Hi.
    destruct (nth_error fs i) as [[name vf]|],
             (nth_error fs' i) as [[name' vf']|]; try contradiction.
    2:{ simpl. auto. }
    destruct Hi as [Hn Hv]. simpl in Hn, Hv. subst name'.
    unfold CanSet.
    destruct (exported name) eqn:Hx.
    2:{ rewrite andb_false_r. simpl. now apply IH. }
    rewrite <- (Hv eq_refl).
    destruct (negb (CanAddr pl && true) || exclude opts (typ, name));
      [now apply IH|].
    destruct (is_file opts (typ, name) vf).
    { apply IH. apply Forall2_set_nth; [|split; auto].
      now apply clear_sibling_same. }
    destruct (is_files opts (typ, name) vf).
    { apply IH. apply Forall2_set_nth; [assumption | split; auto]. }
    destruct (rec vf st) as [[w s1]|]; [|exact I].
    apply IH. apply Forall2_set_nth; [assumption | split; auto].
Qed.

Lemma assertFile_fields_same Rec path want opts typ pl : forall fs fs' st,
  Forall2 same_exported fs fs' ->
  assertFile_fields Rec path want opts typ pl fs st =
  assertFile_fields Rec path want opts typ pl fs' st.
Proof.
  intros fs fs' st HF. revert st.
  induction HF as [|[name vf] [name' vf'] fs fs' [Hn Hv] _ IH]; intros st;
    cbn [assertFile_fields]; auto.
  simpl in Hn, Hv. subst name'. unfold CanSet.
  destruct (exported name) eqn:Hx.
  2:{ rewrite andb_false_r. simpl. apply IH. }
  rewrite <- (Hv eq_refl).
  destruct (negb (CanAddr pl && true) || exclude opts (typ, name)); auto.
  destruct (is_file opts (typ, name) vf).
  { destruct (String.eqb (String_of vf) want); auto. now rewrite IH. }
  destruct (is_files opts (typ, name) vf).
  { destruct (assert_strings _ _ _ _ _). now rewrite IH. }
  destruct (Rec _ vf st) as [[b s1]|]; auto. now rewrite IH.
Qed.

Lemma setDirectory_fields_same rec pl : forall fs fs' st,
  Forall2 same_exported fs fs' ->
  setDirectory_fields rec pl fs st = setDirectory_fields rec pl fs' st.
Proof.
  intros fs fs' st HF. revert st.
  induction HF as [|[name vf] [name' vf'] fs fs' [Hn Hv] _ IH]; intros st;
    simpl; auto.
  simpl in Hn, Hv. subst name'. unfold CanSet.
  destruct (exported name) eqn:Hx.
  2:{ rewrite andb_false_r. simpl. apply IH. }
  rewrite <- (Hv eq_refl).
  destruct (negb (CanAddr pl && true)); auto.
  destruct (rec vf st); auto.
Qed.

Lemma Forall2_same_length {A : Type} (R : A -> A -> Prop) l l' :
  Forall2 R l l' -> List.length l = List.length l'.
Proof. induction 1; simpl; auto. Qed.

(** ** Facts about [all4] *)

Section All4.

Context {A : Type}.
Variable R : A -> A -> A -> A -> Prop.

Lemma all4_trans l1 :
  Forall (fun a => forall b c a' b' c',
            R a b a' b' -> R b c b' c' -> R a c a' c') l1 ->
  forall l2 l3 l1' l2' l3',
    all4 R l1 l2 l1' l2' -> all4 R l2 l3 l2' l3' -> all4 R l1 l3 l1' l3'.
Proof.
  induction 1 as [|a l1 Ha _ IH];
    intros [|b l2] [|c l3] [|a' l1'] [|b' l2'] [|c' l3']; simpl;
    try tauto.
  intros [H1 H2] [H3 H4]. split; eauto.
Qed.

Lemma all4_map4 (f : A -> A -> A -> A -> Prop) l1 :
  Forall (fun a => forall b a' b', R a b a' b' -> f a b a' b') l1 ->
  forall l2 l3 l4, all4 R l1 l2 l3 l4 -> all4 f l1 l2 l3 l4.
Proof.
  induction 1 as [|a l1 Ha _ IH]; intros [|b l2] [|c l3] [|d l4]; simpl;
    try tauto.
  intros [H1 H2]. split; auto.
Qed.

Lemma all4_nth l1 : forall l2 l3 l4 i,
  all4 R l1 l2 l3 l4 ->
  match nth_error l1 i, nth_error l2 i, nth_error l3 i, nth_error l4 i with
  | Some x1, Some x2, Some x3, Some x4 => R x1 x2 x3 x4
  | None, None, None, None => True
  | _, _, _, _ => False
  end.
Proof.
  induction l1 as [|a l1 IH]; intros [|b l2] [|c l3] [|d l4] [|i]; simpl;
    try tauto.
  intros [_ H]. now apply IH.
Qed.

Lemma all4_set_nth l1 : forall l2 l3 l4 i y y',
  all4 R l1 l2 l3 l4 ->
  (forall x x', nth_error l1 i = Some x -> nth_error l3 i = Some x' ->
                R x y x' y') ->
  all4 R l1 (set_nth i y l2) l3 (set_nth i y' l4).
Proof.
  induction l1 as [|a l1 IH]; intros [|b l2] [|c l3] [|d l4] [|i] y y';
    simpl; try tauto.
  - intros [_ H] Hy. split; auto.
  - intros [H1 H] Hy. split; auto.
Qed.

Lemma all4_length l1 : forall l2 l3 l4,
  all4 R l1 l2 l3 l4 ->
  List.length l2 = List.length l1 /\ List.length l3 = List.length l1 /\
  List.length l4 = List.length l1.
Proof.
  induction l1 as [|a l1 IH]; intros [|b l2] [|c l3] [|d l4]; simpl;
    try tauto.
  intros [_ H]. destruct (IH _ _ _ H) as (E1 & E2 & E3). lia.
Qed.

End All4.

(** ** Facts about [same_writes] *)

Lemma written_alike_trans {A : Type} (x y z x' y' z' : A) :
  written_alike x y x' y' -> written_alike y z y' z' ->
  written_alike x z x' z'.
Proof.
  unfold written_alike. intros [H1|[H1 H1']] [H2|[H2 H2']]; subst; auto.
Qed.

Ltac sw_cases H b a' b' :=
  simpl in H; destruct b; try contradiction;
  simpl in H; destruct a'; try contradiction;
  simpl in H; destruct b'; try contradiction.

Ltac sw_cases2 H c c' :=
  simpl in H; destruct c; try contradiction;
  simpl in H; destruct c'; try contradiction.

Ltac sw_opts H :=
  repeat match type of H with
  | match ?o with Some _ => _ | None => _ end =>
      destruct o; try contradiction
  end.

Lemma same_writes_trans a : forall b c a' b' c',
  same_writes a b a' b' -> same_writes b c b' c' -> same_writes a c a' c'.
Proof.
  induction a as [t s|t n|t p|t x|t fs IH|t es IH|t es IH|t kvs IH|t o IH]
    using value_ind_nested; intros b c a' b' c' H1 H2.
  - sw_cases H1 b a' b'. destruct H1 as (-> & -> & -> & Ht & H1).
    sw_cases2 H2 c c'. destruct H2 as (-> & _ & -> & _ & H2).
    simpl. repeat split; auto. eapply written_alike_trans; eauto.
  - simpl in H1. destruct H1 as (Hp & -> & -> & ->).
    simpl in H2. destruct H2 as (_ & -> & _ & ->). simpl. auto.
  - simpl in H1. destruct H1 as (Hp & -> & -> & ->).
    simpl in H2. destruct H2 as (_ & -> & _ & ->). simpl. auto.
  - simpl in H1. destruct H1 as (Hp & -> & -> & ->).
    simpl in H2. destruct H2 as (_ & -> & _ & ->). simpl. auto.
  - sw_cases H1 b a' b'. destruct H1 as (-> & -> & -> & Hp & H1).
    sw_cases2 H2 c c'. destruct H2 as (-> & _ & -> & _ & H2).
    simpl. repeat split; auto; try apply Hp.
    eapply all4_trans; [|exact H1|exact H2].
    eapply Forall_impl; [|exact IH].
    intros [n x] Hx [n1 y] [n2 z] [n3 x'] [n4 y'] [n5 z'].
    simpl in *. intros (-> & -> & -> & Ha) (-> & _ & -> & Hb).
    repeat split; eauto.
  - sw_cases H1 b a' b'. destruct H1 as (-> & -> & -> & Hk & H1).
    sw_cases2 H2 c c'. destruct H2 as (-> & _ & -> & _ & H2).
    simpl. repeat split; auto.
    destruct (type_eqb t stringSliceTyp).
    + destruct H1 as (S1 & S2 & S3 & S4 & W1).
      destruct H2 as (_ & S5 & _ & S6 & W2).
      repeat split; auto. eapply written_alike_trans; eauto.
    + sw_opts H1; sw_opts H2; auto.
      eapply all4_trans; [|exact H1|exact H2]. exact IH.
  - sw_cases H1 b a' b'. destruct H1 as (-> & -> & -> & Hp & H1).
    sw_cases2 H2 c c'. destruct H2 as (-> & _ & -> & _ & H2).
    simpl. repeat split; auto; try apply Hp.
    eapply all4_trans; [|exact H1|exact H2]. exact IH.
  - sw_cases H1 b a' b'. destruct H1 as (-> & -> & -> & Hp & H1).
    sw_cases2 H2 c c'. destruct H2 as (-> & _ & -> & _ & H2).
    simpl. repeat split; auto; try apply Hp.
    sw_opts H1; sw_opts H2; auto.
    eapply all4_trans; [|exact H1|exact H2].
    eapply Forall_impl; [|exact IH].
    intros [k x] [Hk Hx] [k1 y] [k2 z] [k3 x'] [k4 y'] [k5 z'].
    simpl in *. intros (Ha1 & Ha2) (Hb1 & Hb2). split; eauto.
  - sw_cases H1 b a' b'. destruct H1 as (-> & -> & -> & Hp & H1).
    sw_cases2 H2 c c'. destruct H2 as (-> & _ & -> & _ & H2).
    simpl. repeat split; auto; try apply Hp.
    sw_opts H1; sw_opts H2; auto.
    eapply IH; eauto.
Qed.

Lemma pick_app {A B : Type} (f : A -> B) i x1 x2 x3 x4 :
  pick i (f x1) (f x2) (f x3) (f x4) = f (pick i x1 x2 x3 x4).
Proof. destruct i as [|[|[|i]]]; reflexivity. Qed.

Lemma all4_pick {A : Type} (R R' : A -> A -> A -> A -> Prop) i j l1 :
  Forall (fun a => forall b c d, R a b c d ->
            R' (pick i a b c d) (pick i a b c d)
               (pick j a b c d) (pick j a b c d)) l1 ->
  forall l2 l3 l4, all4 R l1 l2 l3 l4 ->
    all4 R' (pick i l1 l2 l3 l4) (pick i l1 l2 l3 l4)
            (pick j l1 l2 l3 l4) (pick j l1 l2 l3 l4).
Proof.
  induction 1 as [|a l1 Ha _ IH]; intros [|b l2] [|c l3] [|d l4]; simpl;
    try tauto.
  - intros _. destruct i as [|[|[|i]]], j as [|[|[|j]]]; exact I.
  - intros [H1 H2]. specialize (IH _ _ _ H2). specialize (Ha _ _ _ H1).
    destruct i as [|[|[|i]]], j as [|[|[|j]]]; simpl in *; split; auto.
Qed.

Lemma all4_final {A : Type} (R : A -> A -> A -> A -> Prop) l1 :
  Forall (fun a => forall b c, R a b b c -> b = c) l1 ->
  forall l2 l3, all4 R l1 l2 l2 l3 -> l2 = l3.
Proof.
  induction 1 as [|a l1 Ha _ IH]; intros [|b l2] [|c l3]; simpl;
    try tauto.
  intros [H1 H2]. f_equal; eauto.
Qed.

Lemma written_alike_pick {A : Type} i j (x1 x2 x3 x4 : A) :
  written_alike (pick i x1 x2 x3 x4) (pick i x1 x2 x3 x4)
                (pick j x1 x2 x3 x4) (pick j x1 x2 x3 x4).
Proof. right. auto. Qed.

Lemma same_writes_pick i j a : forall b a' b',
  same_writes a b a' b' ->
  same_writes (pick i a b a' b') (pick i a b a' b')
              (pick j a b a' b') (pick j a b a' b').
Proof.
  induction a as [t s|t n|t p|t x|t fs IH|t es IH|t es IH|t kvs IH|t o IH]
    using value_ind_nested; intros b a' b' H.
  - sw_cases H b a' b'. destruct H as (-> & -> & -> & Ht & H).
    rewrite !pick_app. simpl. repeat split; auto.
    apply written_alike_pick.
  - simpl in H. destruct H as (Hp & -> & -> & ->).
    replace (pick i _ _ _ _) with (VOther t n)
      by (destruct i as [|[|[|i]]]; reflexivity).
    replace (pick j _ _ _ _) with (VOther t n)
      by (destruct j as [|[|[|j]]]; reflexivity).
    simpl. auto.
  - simpl in H. destruct H as (Hp & -> & -> & ->).
    replace (pick i _ _ _ _) with (VPtr t p)
      by (destruct i as [|[|[|i]]]; reflexivity).
    replace (pick j _ _ _ _) with (VPtr t p)
      by (destruct j as [|[|[|j]]]; reflexivity).
    simpl. auto.
  - simpl in H. destruct H as (Hp & -> & -> & ->).
    replace (pick i _ _ _ _) with (VOpaque t x)
      by (destruct i as [|[|[|i]]]; reflexivity).
    replace (pick j _ _ _ _) with (VOpaque t x)
      by (destruct j as [|[|[|j]]]; reflexivity).
    simpl. auto.
  - sw_cases H b a' b'. destruct H as (-> & -> & -> & Hp & H).
    rewrite !pick_app. simpl. repeat split; auto; try apply Hp.
    eapply all4_pick; [|exact H].
    eapply Forall_impl; [|exact IH].
    intros [n x] Hx [n1 y] [n2 z] [n3 w]. simpl in *.
    intros (-> & -> & -> & Ha).
    specialize (Hx _ _ _ Ha).
    destruct i as [|[|[|i]]], j as [|[|[|j]]]; simpl in *; auto.
  - sw_cases H b a' b'. destruct H as (-> & -> & -> & Hk & H).
    rewrite !pick_app. simpl. repeat split; auto.
    destruct (type_eqb t stringSliceTyp).
    + destruct H as (S1 & S2 & S3 & S4 & W).
      repeat split; try apply written_alike_pick;
        try (destruct i as [|[|[|i]]]; assumption);
        try (destruct j as [|[|[|j]]]; assumption).
    + sw_opts H.
      * rewrite !pick_app. eapply all4_pick; [|exact H]. exact IH.
      * destruct i as [|[|[|i]]], j as [|[|[|j]]]; exact I.
  - sw_cases H b a' b'. destruct H as (-> & -> & -> & Hp & H).
    rewrite !pick_app. simpl. repeat split; auto; try apply Hp.
    eapply all4_pick; [|exact H]. exact IH.
  - sw_cases H b a' b'. destruct H as (-> & -> & -> & Hp & H).
    rewrite !pick_app. simpl. repeat split; auto; try apply Hp.
    sw_opts H.
    + rewrite !pick_app. eapply all4_pick; [|exact H].
      eapply Forall_impl; [|exact IH].
      intros [k x] [Hk Hx] [k1 y] [k2 z] [k3 w]. simpl in *.
      intros (Ha & Hb).
      specialize (Hk _ _ _ Ha). specialize (Hx _ _ _ Hb).
      destruct i as [|[|[|i]]], j as [|[|[|j]]]; simpl in *; auto.
    + destruct i as [|[|[|i]]], j as [|[|[|j]]]; exact I.
  - sw_cases H b a' b'. destruct H as (-> & -> & -> & Hp & H).
    rewrite !pick_app. simpl. repeat split; auto; try apply Hp.
    sw_opts H.
    + rewrite !pick_app. now apply IH.
    + destruct i as [|[|[|i]]], j as [|[|[|j]]]; exact I.
Qed.

Lemma same_writes_final a : forall b c, same_writes a b b c -> b = c.
Proof.
  induction a as [t s|t n|t p|t x|t fs IH|t es IH|t es IH|t kvs IH|t o IH]
    using value_ind_nested; intros b c H.
  - simpl in H. destruct b; try contradiction. simpl in H.
    destruct c; try contradiction.
    destruct H as (-> & _ & -> & _ & [H|[H1 H2]]); congruence.
  - simpl in H. destruct H as (_ & -> & _ & ->). reflexivity.
  - simpl in H. destruct H as (_ & -> & _ & ->). reflexivity.
  - simpl in H. destruct H as (_ & -> & _ & ->). reflexivity.
  - simpl in H. destruct b; try contradiction. simpl in H.
    destruct c; try contradiction.
    destruct H as (-> & _ & -> & _ & H). f_equal.
    eapply all4_final; [|exact H].
    eapply Forall_impl; [|exact IH].
    intros [n x] Hx [n1 y] [n2 z]. simpl in *.
    intros (-> & _ & -> & Ha). f_equal. eauto.
  - simpl in H. destruct b; try contradiction. simpl in H.
    destruct c; try contradiction.
    destruct H as (-> & _ & -> & _ & H). f_equal.
    destruct (type_eqb t stringSliceTyp).
    + destruct H as (_ & _ & _ & _ & [H|[H1 H2]]); congruence.
    + sw_opts H; auto. f_equal. eapply all4_final; [|exact H]. exact IH.
  - simpl in H. destruct b; try contradiction. simpl in H.
    destruct c; try contradiction.
    destruct H as (-> & _ & -> & _ & H). f_equal.
    eapply all4_final; [|exact H]. exact IH.
  - simpl in H. destruct b; try contradiction. simpl in H.
    destruct c; try contradiction.
    destruct H as (-> & _ & -> & _ & H). f_equal.
    sw_opts H; auto. f_equal. eapply all4_final; [|exact H].
    eapply Forall_impl; [|exact IH].
    intros [k x] [Hk Hx] [k1 y] [k2 z]. simpl in *.
    intros (Ha & Hb). f_equal; eauto.
  - simpl in H. destruct b; try contradiction. simpl in H.
    destruct c; try contradiction.
    destruct H as (-> & _ & -> & _ & H). f_equal.
    sw_opts H; auto. f_equal. eauto.
Qed.

Lemma plain_wrapT : plain wrapT.
Proof. split; discriminate. Qed.

Lemma same_writes_array l1 l2 l3 l4 :
  all4 same_writes l1 l2 l3 l4 <->
  same_writes (VArray wrapT l1) (VArray wrapT l2)
              (VArray wrapT l3) (VArray wrapT l4).
Proof.
  simpl. pose proof plain_wrapT. tauto.
Qed.

Lemma same_writes_struct l1 l2 l3 l4 :
  same_writes_fields l1 l2 l3 l4 <->
  same_writes (VStruct wrapT l1) (VStruct wrapT l2)
              (VStruct wrapT l3) (VStruct wrapT l4).
Proof.
  unfold same_writes_fields. simpl. pose proof plain_wrapT. tauto.
Qed.

Lemma heap_trans h1 h2 h3 h1' h2' h3' :
  same_writes_heap h1 h2 h1' h2' -> same_writes_heap h2 h3 h2' h3' ->
  same_writes_heap h1 h3 h1' h3'.
Proof.
  unfold same_writes_heap. rewrite !same_writes_array.
  apply same_writes_trans.
Qed.

Lemma heap_post h1 h2 h1' h2' :
  same_writes_heap h1 h2 h1' h2' -> same_writes_heap h2 h2 h2' h2'.
Proof.
  unfold same_writes_heap. rewrite !same_writes_array.
  apply (same_writes_pick 1 3).
Qed.

Lemma fields_trans h1 h2 h3 h1' h2' h3' :
  same_writes_fields h1 h2 h1' h2' -> same_writes_fields h2 h3 h2' h3' ->
  same_writes_fields h1 h3 h1' h3'.
Proof. rewrite !same_writes_struct. apply same_writes_trans. Qed.

Lemma fields_post h1 h2 h1' h2' :
  same_writes_fields h1 h2 h1' h2' -> same_writes_fields h2 h2 h2' h2'.
Proof. rewrite !same_writes_struct. apply (same_writes_pick 1 3). Qed.

Lemma same_writes_type a b a' b' :
  same_writes a b a' b' ->
  typeOf b = typeOf a /\ typeOf a' = typeOf a /\ typeOf b' = typeOf a.
Proof.
  intros H. destruct a; try (sw_cases H b a' b'; simpl; tauto);
    simpl in H; destruct H as (_ & -> & -> & ->); auto.
Qed.

Lemma same_writes_string a a' s :
  same_writes a a a' a' -> Kind (typeOf a) = KString ->
  same_writes a (SetString a s) a' (SetString a' s).
Proof.
  intros H Hk. destruct a; simpl in H, Hk.
  1:{ destruct a'; try contradiction.
      destruct H as (_ & -> & _ & Ht & _).
      unfold SetString. simpl. repeat split; auto. left. reflexivity. }
  all: exfalso.
  all: try (destruct H as ([Hp _] & _); contradiction).
  all: destruct a'; try contradiction.
  all: try (destruct H as (_ & _ & _ & [Hp _] & _); contradiction).
  destruct H as (_ & _ & _ & Hp & _); contradiction.
Qed.

Lemma strings_single file : strings (Some [VString stringTyp file]) = true.
Proof. reflexivity. Qed.

Lemma same_writes_files a a' file :
  same_writes a a a' a' -> typeOf a = stringSliceTyp ->
  same_writes a (single_file file) a' (single_file file).
Proof.
  intros H Ht. destruct a; simpl in H, Ht.
  5:{ destruct a'; try contradiction. subst t.
      destruct H as (_ & -> & _ & Hk & H). simpl in H.
      destruct H as (S1 & _ & S3 & _ & _).
      unfold single_file. simpl. repeat split; auto. left. reflexivity. }
  all: exfalso.
  all: try (destruct H as ([_ Hp] & _); contradiction).
  all: destruct a'; try contradiction.
  all: try (destruct H as (_ & _ & _ & [_ Hp] & _); contradiction).
  destruct H as (_ & _ & _ & Hp & _); contradiction.
Qed.

(** The walk of [setFile] leaves a sequence of plain strings, and the
    state, as they are. *)
Lemma walk_strings_inv fuel file opts pl es : forall s es1 s1,
  forallb is_str es = true ->
  walk_elems (setFile fuel file opts pl) es s = Some (es1, s1) ->
  es1 = es /\ s1 = s.
Proof.
  induction es as [|e es IH]; simpl; intros s es1 s1 Hs H.
  - inv_some. auto.
  - apply andb_true_iff in Hs. destruct Hs as [He Hs].
    destruct e; try discriminate He.
    destruct fuel as [|fuel]; [discriminate|]. simpl in H.
    inv_some. destruct (IH _ _ _ Hs E) as [-> ->]. auto.
Qed.

Lemma walk_strings fuel file opts pl es s :
  forallb is_str es = true ->
  walk_elems (setFile (S fuel) file opts pl) es s = Some (es, s).
Proof.
  induction es as [|e es IH]; intros Hs; [reflexivity|].
  simpl in Hs. apply andb_true_iff in Hs. destruct Hs as [He Hs].
  destruct e; try discriminate He.
  cbn [walk_elems].
  change (setFile (S fuel) file opts pl (VString t s0) s)
    with (Some (VString t s0, s)).
  cbv iota beta. rewrite IH by assumption. reflexivity.
Qed.

Lemma setFile_unfold fuel file opts pl val st :
  setFile (S fuel) file opts pl val st =
  if isNil val then Some (val, st) else
  match val with
  | VPtr t (Some a) =>
      let st0 := log (Reach a) st in
      if seen_mem a st0 then Some (val, st0)
      else
        let st1 := log (Descend a) (mark a st0) in
        match nth_error (heap st1) a with
        | None => Some (val, st1)
        | Some target =>
            let* (target', st2) :=
              setFile fuel file opts (Cell a) target st1 in
            Some (val, store a target' st2)
        end
  | VStruct t fs =>
      let* (fs', st1) :=
        setFile_fields (setFile fuel file opts (sub_place pl))
          file opts t pl (List.length fs) 0 fs st in
      Some (VStruct t fs', st1)
  | VMap t (Some kvs) =>
      let* (kvs', st1) :=
        walk_entries (setFile fuel file opts Unaddressable) kvs st in
      Some (VMap t (Some kvs'), st1)
  | VSlice t (Some es) =>
      let* (es', st1) :=
        walk_elems (setFile fuel file opts Inside) es st in
      Some (VSlice t (Some es'), st1)
  | VArray t es =>
      let* (es', st1) :=
        walk_elems (setFile fuel file opts (sub_place pl)) es st in
      Some (VArray t es', st1)
  | VIface t (Some x) =>
      let* (x', st1) := setFile fuel file opts Unaddressable x st in
      Some (VIface t (Some x'), st1)
  | _ => Some (val, st)
  end.
Proof. reflexivity. Qed.

(** ** The second run follows the first *)

Lemma walk_elems_follows rec1 rec2 :
  follows rec1 rec2 ->
  forall es es' s s' es1 s1,
    all4 same_writes es es es' es' ->
    same_writes_heap (heap s) (heap s) (heap s') (heap s') ->
    seen s = seen s' ->
    walk_elems rec1 es s = Some (es1, s1) ->
    exists es1' s1',
      walk_elems rec2 es' s' = Some (es1', s1') /\
      seen s1 = seen s1' /\
      all4 same_writes es es1 es' es1' /\
      same_writes_heap (heap s) (heap s1) (heap s') (heap s1').
Proof.
  intros Hrec. induction es as [|e es IH];
    intros [|e' es'] s s' es1 s1 Hes Hh Hs H; simpl in Hes;
    try contradiction.
  - simpl in H. inv_some. exists [], s'. simpl. auto.
  - destruct Hes as [He Hes]. simpl in H. inv_some.
    destruct (Hrec _ _ _ _ _ _ He Hh Hs E) as (e1' & sa' & E' & Hs1 & Q1 & H1).
    destruct (IH _ _ _ _ _ Hes (heap_post _ _ _ _ H1) Hs1 E0)
      as (es1' & s1' & E0' & Hs2 & Q2 & H2).
    exists (e1' :: es1'), s1'. simpl. rewrite E', E0'.
    repeat split; auto. eapply heap_trans; eauto.
Qed.

Lemma walk_entries_follows rec1 rec2 :
  follows rec1 rec2 ->
  forall kvs kvs' s s' kvs1 s1,
    same_writes_entries kvs kvs kvs' kvs' ->
    same_writes_heap (heap s) (heap s) (heap s') (heap s') ->
    seen s = seen s' ->
    walk_entries rec1 kvs s = Some (kvs1, s1) ->
    exists kvs1' s1',
      walk_entries rec2 kvs' s' = Some (kvs1', s1') /\
      seen s1 = seen s1' /\
      same_writes_entries kvs kvs1 kvs' kvs1' /\
      same_writes_heap (heap s) (heap s1) (heap s') (heap s1').
Proof.
  intros Hrec. unfold same_writes_entries.
  induction kvs as [|[k x] kvs IH];
    intros [|[k' x'] kvs'] s s' kvs1 s1 Hes Hh Hs H; simpl in Hes;
    try contradiction.
  - simpl in H. inv_some. exists [], s'. simpl. auto.
  - destruct Hes as [[Hk Hx] Hes]. simpl in H. inv_some.
    destruct (Hrec _ _ _ _ _ _ Hk Hh Hs E) as (k1' & sa' & E' & Hs1 & Q1 & H1).
    destruct (Hrec _ _ _ _ _ _ Hx (heap_post _ _ _ _ H1) Hs1 E0)
      as (x1' & sb' & E0' & Hs2 & Q2 & H2).
    destruct (IH _ _ _ _ _ Hes (heap_post _ _ _ _ H2) Hs2 E1)
      as (kvs1' & s1' & E1' & Hs3 & Q3 & H3).
    exists ((k1', x1') :: kvs1'), s1'. simpl. rewrite E', E0', E1'.
    repeat split; auto.
    eapply heap_trans; [|eassumption]. eapply heap_trans; eauto.
Qed.

Lemma fields_FieldByName fs gs fs' gs' name :
  same_writes_fields fs gs fs' gs' ->
  FieldByName fs' name = FieldByName fs name.
Proof.
  unfold same_writes_fields. revert gs fs' gs'.
  induction fs as [|[n x] fs IH];
    intros [|[n1 y] gs] [|[n2 x'] fs'] [|[n3 y'] gs']; simpl;
    try tauto.
  intros [(-> & -> & -> & _) H]. now rewrite (IH _ _ _ H).
Qed.

Lemma fields_nth fs gs fs' gs' i :
  same_writes_fields fs gs fs' gs' ->
  match nth_error fs i, nth_error fs' i with
  | Some (n, x), Some (n', x') =>
      n' = n /\
      exists y y', nth_error gs i = Some (n, y) /\
                   nth_error gs' i = Some (n, y') /\
                   same_writes x y x' y'
  | None, None => True
  | _, _ => False
  end.
Proof.
  intros H. pose proof (all4_nth _ _ _ _ _ i H) as Hi.
  destruct (nth_error fs i) as [[n x]|], (nth_error gs i) as [[n1 y]|],
           (nth_error fs' i) as [[n2 x']|], (nth_error gs' i) as [[n3 y']|];
    try contradiction; auto.
  destruct Hi as (-> & -> & -> & Hq). split; eauto.
Qed.

Lemma fields_nth_pre fs fs' i :
  same_writes_fields fs fs fs' fs' ->
  match nth_error fs i, nth_error fs' i with
  | Some (n, x), Some (n', x') => n' = n /\ same_writes x x x' x'
  | None, None => True
  | _, _ => False
  end.
Proof.
  intros H. pose proof (fields_nth _ _ _ _ i H) as Hi.
  destruct (nth_error fs i) as [[n x]|], (nth_error fs' i) as [[n' x']|];
    auto.
  destruct Hi as (-> & y & y' & Ey & Ey' & Hq). inv_some. auto.
Qed.

Lemma fields_set_nth fs gs fs' gs' i n y y' :
  same_writes_fields fs gs fs' gs' ->
  (forall x x', nth_error fs i = Some (n, x) ->
                nth_error fs' i = Some (n, x') -> same_writes x y x' y') ->
  (forall m x, nth_error fs i = Some (m, x) -> m = n) ->
  same_writes_fields fs (set_nth i (n, y) gs) fs' (set_nth i (n, y') gs').
Proof.
  intros H Hy Hn. apply all4_set_nth; [exact H|].
  intros [m x] [m' x'] E E'.
  pose proof (fields_nth _ _ _ _ i H) as Hi. rewrite E, E' in Hi.
  destruct Hi as [-> _]. pose proof (Hn _ _ E) as Hm. subst m.
  simpl. repeat split; auto.
Qed.

Lemma clear_sibling_follows name fs fs' :
  same_writes_fields fs fs fs' fs' ->
  same_writes_fields fs (clear_sibling name fs) fs' (clear_sibling name fs').
Proof.
  intros H. unfold clear_sibling.
  rewrite (fields_FieldByName _ _ _ _ (TrimSuffix name "File") H).
  destruct (FieldByName fs _) as [j|]; auto.
  pose proof (fields_nth_pre _ _ j H) as Hj.
  destruct (nth_error fs j) as [[sn y]|] eqn:E,
           (nth_error fs' j) as [[sn' y']|] eqn:E'; try contradiction; auto.
  destruct Hj as (-> & Hq).
  destruct (same_writes_type _ _ _ _ Hq) as (_ & -> & _).
  destruct (kind_eqb (Kind (typeOf y)) KString) eqn:Ek; auto.
  apply kind_eqb_eq in Ek.
  apply fields_set_nth; auto.
  - intros x x' Ex Ex'. rewrite E in Ex. rewrite E' in Ex'. inv_some.
    now apply same_writes_string.
  - intros m x Ex. rewrite E in Ex. now inv_some.
Qed.

Lemma setFile_fields_follows rec1 rec2 file opts typ pl :
  follows rec1 rec2 ->
  forall n i fs fs' s s' gs s1,
    same_writes_fields fs fs fs' fs' ->
    same_writes_heap (heap s) (heap s) (heap s') (heap s') ->
    seen s = seen s' ->
    setFile_fields rec1 file opts typ pl n i fs s = Some (gs, s1) ->
    exists gs' s1',
      setFile_fields rec2 file opts typ pl n i fs' s' = Some (gs', s1') /\
      seen s1 = seen s1' /\
      same_writes_fields fs gs fs' gs' /\
      same_writes_heap (heap s) (heap s1) (heap s') (heap s1').
Proof.
  intros Hrec. induction n as [|n IH];
    intros i fs fs' s s' gs s1 Hf Hh Hs H; simpl in H |- *.
  - inv_some. exists fs', s'. auto.
  - pose proof (fields_nth_pre _ _ i Hf) as Hi.
    destruct (nth_error fs i) as [[name y]|] eqn:E,
             (nth_error fs' i) as [[name' y']|] eqn:E'; try contradiction.
    2:{ inv_some. exists fs', s'. auto. }
    destruct Hi as (-> & Hq).
    destruct (same_writes_type _ _ _ _ Hq) as (_ & Ht & _).
    assert (Hname : forall m x, nth_error fs i = Some (m, x) -> m = name)
      by (intros m x Ex; rewrite E in Ex; now inv_some).
    assert (Hstep : forall fs2 fs2',
      same_writes_fields fs fs2 fs' fs2' ->
      setFile_fields rec1 file opts typ pl n (S i) fs2 s = Some (gs, s1) ->
      exists gs' s1',
        setFile_fields rec2 file opts typ pl n (S i) fs2' s' =
          Some (gs', s1') /\
        seen s1 = seen s1' /\
        same_writes_fields fs gs fs' gs' /\
        same_writes_heap (heap s) (heap s1) (heap s') (heap s1')).
    { intros fs2 fs2' W H2.
      destruct (IH _ _ _ _ _ _ _ (fields_post _ _ _ _ W) Hh Hs H2)
        as (gs' & s1' & E2 & Hs2 & Q2 & H2').
      exists gs', s1'. repeat split; auto. eapply fields_trans; eauto. }
    destruct (negb (CanSet pl name) || exclude opts (typ, name)).
    { apply (Hstep fs fs'); auto. }
    unfold is_file, is_files in *. rewrite Ht. simpl snd in *.
    destruct (type_eqb (typeOf y) stringTyp &&
              (HasSuffix name "File" || include opts (typ, name))) eqn:Efile.
    { apply andb_true_iff in Efile. destruct Efile as [Efile _].
      apply type_eqb_eq in Efile.
      eapply Hstep; [|exact H].
      eapply fields_trans; [apply clear_sibling_follows; exact Hf|].
      apply fields_set_nth.
      - apply (fields_post _ _ _ _ (clear_sibling_follows name _ _ Hf)).
      - intros x x' Ex Ex'.
        pose proof (fields_nth _ _ _ _ i (clear_sibling_follows name _ _ Hf))
          as Hc.
        rewrite E, E' in Hc. destruct Hc as (_ & z & z' & Ez & Ez' & Hz).
        rewrite Ex in Ez. rewrite Ex' in Ez'. inv_some.
        pose proof (same_writes_pick 1 3 _ _ _ _ Hz) as Hz'. simpl in Hz'.
        destruct (same_writes_type _ _ _ _ Hz) as (Tz & Tz' & Tz'').
        assert (Kz : Kind (typeOf z) = KString)
          by (rewrite Tz, Efile; reflexivity).
        pose proof (same_writes_string z z' file Hz' Kz) as Hw.
        unfold SetString in *. rewrite Ht.
        replace (typeOf y) with (typeOf z) by congruence.
        replace (typeOf z') with (typeOf z) in Hw by congruence.
        exact Hw.
      - intros m x Ex.
        pose proof (fields_nth _ _ _ _ i (clear_sibling_follows name _ _ Hf))
          as Hc.
        rewrite E, E' in Hc. destruct Hc as (_ & z & z' & Ez & _).
        rewrite Ex in Ez. now inv_some. }
    destruct (type_eqb (typeOf y) stringSliceTyp &&
              (HasSuffix name "Files" || include opts (typ, name)))
      eqn:Efiles.
    { apply andb_true_iff in Efiles. destruct Efiles as [Efiles _].
      apply type_eqb_eq in Efiles.
      eapply Hstep; [|exact H].
      apply fields_set_nth; auto.
      intros x x' Ex Ex'. rewrite E in Ex. rewrite E' in Ex'. inv_some.
      now apply same_writes_files. }
    inv_some.
    destruct (Hrec _ _ _ _ _ _ Hq Hh Hs E0) as (w' & sa' & Ew & Hs1 & Q1 & H1).
    rewrite Ew.
    assert (W : same_writes_fields fs (set_nth i (name, v) fs)
                  fs' (set_nth i (name, w') fs')).
    { apply fields_set_nth; auto.
      intros x x' Ex Ex'. rewrite E in Ex. rewrite E' in Ex'. now inv_some. }
    destruct (IH _ _ _ _ _ _ _ (fields_post _ _ _ _ W)
                (heap_post _ _ _ _ H1) Hs1 H)
      as (gs' & s1' & E2 & Hs2 & Q2 & H2').
    exists gs', s1'. repeat split; auto.
    + eapply fields_trans; eauto.
    + eapply heap_trans; eauto.
Qed.

Lemma seen_mem_same a s s' : seen s = seen s' -> seen_mem a s = seen_mem a s'.
Proof. unfold seen_mem. now intros ->. Qed.

Lemma setFile_follows file opts : forall fuel pl,
  follows (setFile fuel file opts pl) (setFile (S fuel) file opts pl).
Proof.
  induction fuel as [|fuel IH]; intros pl v v' s s' v1 s1 Hq Hh Hs H;
    [discriminate H|].
  rewrite setFile_unfold in H. rewrite setFile_unfold.
  destruct v as [t x|t x|t [a|]|t fs|t es|t es|t kvs|t o|t x].
  - (* string *)
    pose proof Hq as Hq'. simpl in Hq'. destruct v'; try contradiction.
    cbn [isNil] in *. inv_some.
    eexists. eexists. split; [reflexivity|]. auto.
  - (* other *)
    simpl in Hq. destruct Hq as (Hp & _ & -> & _).
    cbn [isNil] in *. inv_some. exists (VOther t x), s'. simpl.
    repeat split; auto; apply Hp.
  - (* pointer *)
    pose proof Hq as Hq'. simpl in Hq'. destruct Hq' as (Hp & _ & -> & _).
    cbn [isNil] in *. cbv zeta in *.
    rewrite (seen_mem_same a (log (Reach a) s) (log (Reach a) s'))
      in H by (simpl; exact Hs).
    destruct (seen_mem a (log (Reach a) s')).
    { inv_some. exists (VPtr t (Some a)), (log (Reach a) s'). auto. }
    pose proof (all4_nth _ _ _ _ _ a Hh) as Ha. simpl heap in *.
    destruct (nth_error (heap s) a) as [target|] eqn:E,
             (nth_error (heap s') a) as [target'|] eqn:E';
      try contradiction.
    2:{ inv_some. eexists. eexists. split; [reflexivity|]. simpl.
        rewrite Hs. auto. }
    inv_some.
    destruct (IH (Cell a) target target'
                (log (Descend a) (mark a (log (Reach a) s)))
                (log (Descend a) (mark a (log (Reach a) s')))
                _ _ Ha Hh ltac:(simpl; now rewrite Hs) E0)
      as (t1' & s2' & E2 & Hs2 & Q2 & H2).
    rewrite E2. eexists. eexists. split; [reflexivity|].
    split; [exact Hs2|]. split; [exact Hq|]. simpl in H2 |- *.
    apply all4_set_nth; [exact H2|].
    intros y y' Ey Ey'. rewrite E in Ey. rewrite E' in Ey'. now inv_some.
  - simpl in Hq. destruct Hq as (Hp & _ & -> & _).
    cbn [isNil] in *. inv_some. exists (VPtr t None), s'. simpl.
    repeat split; auto; apply Hp.
  - (* struct *)
    pose proof Hq as Hq'. simpl in Hq'. destruct v'; try contradiction.
    destruct Hq' as (_ & -> & _ & Hp & Hf).
    cbn [isNil] in *.
    destruct (setFile_fields _ _ _ _ _ _ _ fs s) as [[gs sa]|] eqn:E;
      [|discriminate]. inv_some.
    destruct (all4_length _ _ _ _ _ Hf) as (_ & L & _).
    destruct (setFile_fields_follows _ _ file opts t pl
                (IH (sub_place pl)) _ _ _ _ _ _ _ _ Hf Hh Hs E)
      as (gs' & s1' & E2 & Hs2 & Q2 & H2).
    rewrite L, E2. eexists. eexists. split; [reflexivity|].
    repeat split; auto; apply Hp.
  - (* slice *)
    pose proof Hq as Hq'. simpl in Hq'. destruct v'; try contradiction.
    destruct Hq' as (_ & -> & _ & Hk & Hf).
    destruct (type_eqb t stringSliceTyp) eqn:Et.
    + destruct Hf as (S1 & _ & S3 & _ & _).
      assert (v1 = VSlice t es /\ s1 = s) as [-> ->].
      { destruct es as [l|]; cbn [isNil] in H; [|inv_some; auto].
        destruct (walk_elems _ l s) as [[l1 sa]|] eqn:E; [|discriminate].
        inv_some. simpl in S1.
        destruct (walk_strings_inv _ _ _ _ _ _ _ _ S1 E) as [-> ->]. auto. }
      exists (VSlice t es0), s'.
      split; [|split; [exact Hs|split; [exact Hq|exact Hh]]].
      destruct es0 as [l'|]; cbn [isNil]; [|reflexivity].
      simpl in S3. now rewrite (walk_strings fuel file opts Inside l' s' S3).
    + destruct es as [l|], es0 as [l'|]; try contradiction; cbn [isNil] in *.
      2:{ inv_some. eexists. eexists. split; [reflexivity|]. auto. }
      destruct (walk_elems _ l s) as [[l1 sa]|] eqn:E; [|discriminate].
      inv_some.
      destruct (walk_elems_follows _ _ (IH Inside) _ _ _ _ _ _ Hf Hh Hs E)
        as (l1' & s1' & E2 & Hs2 & Q2 & H2).
      rewrite E2. eexists. eexists. split; [reflexivity|].
      simpl. rewrite Et. repeat split; auto.
  - (* array *)
    pose proof Hq as Hq'. simpl in Hq'. destruct v'; try contradiction.
    destruct Hq' as (_ & -> & _ & Hp & Hf).
    cbn [isNil] in *.
    destruct (walk_elems _ es s) as [[l1 sa]|] eqn:E; [|discriminate].
    inv_some.
    destruct (walk_elems_follows _ _ (IH (sub_place pl))
                _ _ _ _ _ _ Hf Hh Hs E)
      as (l1' & s1' & E2 & Hs2 & Q2 & H2).
    rewrite E2. eexists. eexists. split; [reflexivity|].
    simpl. repeat split; auto; apply Hp.
  - (* map *)
    pose proof Hq as Hq'. simpl in Hq'. destruct v'; try contradiction.
    destruct Hq' as (_ & -> & _ & Hp & Hf).
    destruct kvs as [l|], kvs0 as [l'|]; try contradiction; cbn [isNil] in *.
    2:{ inv_some. eexists. eexists. split; [reflexivity|]. auto. }
    destruct (walk_entries _ l s) as [[l1 sa]|] eqn:E; [|discriminate].
    inv_some.
    destruct (walk_entries_follows _ _ (IH Unaddressable)
                _ _ _ _ _ _ Hf Hh Hs E)
      as (l1' & s1' & E2 & Hs2 & Q2 & H2).
    rewrite E2. eexists. eexists. split; [reflexivity|].
    simpl. repeat split; auto; apply Hp.
  - (* interface *)
    pose proof Hq as Hq'. simpl in Hq'. destruct v'; try contradiction.
    destruct Hq' as (_ & -> & _ & Hp & Hf).
    destruct o as [y|], x as [y'|]; try contradiction; cbn [isNil] in *.
    2:{ inv_some. eexists. eexists. split; [reflexivity|]. auto. }
    destruct (setFile fuel file opts Unaddressable y s) as [[y1 sa]|] eqn:E;
      [|discriminate].
    inv_some.
    destruct (IH Unaddressable _ _ _ _ _ _ Hf Hh Hs E)
      as (y1' & s1' & E2 & Hs2 & Q2 & H2).
    rewrite E2. eexists. eexists. split; [reflexivity|].
    simpl. repeat split; auto; apply Hp.
  - (* opaque *)
    pose proof Hq as Hq'. simpl in Hq'. destruct Hq' as (Hp & _ & -> & _).
    destruct (isNil (VOpaque t x)); inv_some;
      (eexists; eexists; split; [reflexivity|]; auto).
Qed.

(** * The claims *)

(** C9.  Constructing a field option fails at construction time, before any
    option is returned, exactly when the sample's type, resolved through its
    pointers, is not a struct type or has no field of the given name;
    otherwise the construction succeeds, for [IncludeField] and for
    [ExcludeField] alike. *)
Theorem field_option_construction (strukt : value) (name : string) :
  let typ := ptrType (typeOf strukt) in
  let bad := Kind typ <> KStruct \/ Type_FieldByName typ name = false in
  ((exists p, IncludeField strukt name = Panic p) <-> bad) /\
  ((exists p, ExcludeField strukt name = Panic p) <-> bad) /\
  ((exists fn, IncludeField strukt name = Ok fn) <-> ~ bad) /\
  ((exists fn, ExcludeField strukt name = Ok fn) <-> ~ bad).
Proof.
  intros typ bad. subst bad.
  unfold IncludeField, ExcludeField, structField. fold typ.
  destruct (kind_eqb (Kind typ) KStruct) eqn:Ek; simpl.
  - apply kind_eqb_eq in Ek.
    destruct (Type_FieldByName typ name) eqn:Ef; simpl;
      repeat split;
      try (intros [p Hp]; discriminate Hp);
      try (intros [H|H]; congruence);
      try (intros _; eauto; fail);
      try (intros H; exfalso; apply H; auto; fail);
      try (intros [fn Hfn]; discriminate Hfn);
      try tauto; eauto.
    all: try (intros _ [H|H]; congruence).
  - assert (Hk : Kind typ <> KStruct).
    { intros H. apply kind_eqb_eq in H. congruence. }
    repeat split;
      try (intros _; eauto; fail);
      try (intros [fn Hfn]; discriminate Hfn);
      try tauto; eauto.
Qed.

(** C5.  When a field is excluded by an option of the list, it is excluded
    in the options the walkers use, whatever else the list holds (an
    [IncludeField] for the same field included) and in whatever order the
    options come: a permuted list gives the same include and exclude sets,
    and [setFile] and [assertFile] skip the field. *)
Theorem exclusion_dominates
    (options options' : list FieldOption)
    (strukt : value) (name : string) (fn : FieldOption) (key : field) :
  Forall built options ->
  Permutation options options' ->
  ExcludeField strukt name = Ok fn -> In fn options ->
  structField (typeOf strukt) name = Ok key ->
  let opts := apply_options options' in
  exclude opts key = true /\
  (forall k, exclude opts k = exclude (apply_options options) k /\
             include opts k = include (apply_options options) k) /\
  (forall rec file pl n i fs st vf,
      nth_error fs i = Some (snd key, vf) ->
      setFile_fields rec file opts (fst key) pl (S n) i fs st =
      setFile_fields rec file opts (fst key) pl n (S i) fs st) /\
  (forall Rec path want pl vf fs st,
      assertFile_fields Rec path want opts (fst key) pl
        ((snd key, vf) :: fs) st =
      assertFile_fields Rec path want opts (fst key) pl fs st).
Proof.
  intros Hb Hp He Hin Hk opts.
  assert (Hx : exclude opts key = true).
  { unfold opts.
    rewrite (proj1 (apply_options_Permutation _ _ Hb Hp key)).
    eapply excluded_by_option; eauto. }
  split; [exact Hx|]. split.
  { intros k. now apply apply_options_Permutation. }
  destruct key as [typ nm]. simpl in *. split.
  - intros rec file pl n i fs st vf Hn. simpl. rewrite Hn, Hx.
    now rewrite orb_true_r.
  - intros Rec path want pl vf fs st. simpl. rewrite Hx.
    now rewrite orb_true_r.
Qed.

(** C10.  [AssertFile] leaves the graph as it found it: the heap of the
    final state is the heap it was given. *)
Theorem AssertFile_frame (Sprint : value -> string) (fuel : nat)
    (h : list value) (config : value) (path : string)
    (options : list FieldOption) (b : bool) (st : state) :
  AssertFile Sprint fuel h config path options = Some (b, st) ->
  heap st = h.
Proof.
  unfold AssertFile. intros H. apply assertFile_heap in H. exact H.
Qed.


Import Fixtures.

Lemma exclusion_dominates_witness :
  exclude (apply_options [exclude_fn; include_fn]) exclude_key = true.
Proof.
  refine (proj1 (exclusion_dominates [include_fn; exclude_fn]
                   [exclude_fn; include_fn] (excludeFile "") "ExcludeFile"
                   exclude_fn exclude_key _ _ _ _ _)).
  - constructor; [|constructor; [|constructor]].
    + apply (built_include (excludeFile "") "ExcludeFile"). reflexivity.
    + apply (built_exclude (excludeFile "") "ExcludeFile"). reflexivity.
  - apply perm_swap.
  - reflexivity.
  - simpl. auto.
  - reflexivity.
Defined.

Lemma AssertFile_frame_witness :
  exists b st,
    AssertFile String_of 10 four_heap four_config absPath [] = Some (b, st) /\
    heap st = four_heap.
Proof.
  eexists. eexists. split.
  - vm_compute. reflexivity.
  - eapply (AssertFile_frame String_of 10 four_heap four_config absPath []).
    vm_compute. reflexivity.
Defined.

(** C7.  In a struct the walker can set, a field that passes the plural
    test (type [[]string], name ending in "Files" or included) and is not
    excluded holds, when [setFile] returns, the one-element sequence of the
    given string, whatever it held before. *)
Theorem setFile_replaces_files (fuel : nat) (file : string) (opts : fields)
    (pl : place) (t : type) (fs : list (string * value)) (st : state)
    (l : nat) (name : string) (vf v' : value) (st' : state) :
  nth_error fs l = Some (name, vf) ->
  CanSet pl name = true ->
  exclude opts (t, name) = false ->
  is_files opts (t, name) vf = true ->
  setFile fuel file opts pl (VStruct t fs) st = Some (v', st') ->
  exists fs', v' = VStruct t fs' /\
              nth_error fs' l = Some (name, single_file file).
Proof.
  intros Hn Hset Hex Hfiles H.
  destruct fuel as [|fuel]; [discriminate|]. simpl in H.
  assert (Hlen : l < List.length fs) by (apply nth_error_Some; congruence).
  inv_some. eexists. split; [reflexivity|].
  eapply (setFile_fields_files _ file opts t pl l name vf Hset Hex Hfiles
            (List.length fs) 0 fs st); [lia | lia | exact Hn | eassumption].
Qed.

Lemma setFile_replaces_files_witness :
  exists fs',
    setFile 2 "f" no_fields (Cell 0) (barSetter (Some ["a"; "b"]))
      (init_state bar_heap) =
    Some (VStruct barSetterT fs',
          mkState bar_heap [] [] []) /\
    nth_error fs' 0 = Some ("BarFiles", single_file "f").
Proof.
  destruct (setFile_replaces_files 2 "f" no_fields (Cell 0) barSetterT
              [("BarFiles", VSlice stringSliceTyp (Some [str "a"; str "b"]));
               ("Extra", str ""); ("Disable", flag false)]
              (init_state bar_heap) 0 "BarFiles"
              (VSlice stringSliceTyp (Some [str "a"; str "b"]))
              (barSetter (Some ["f"])) (init_state bar_heap)
              eq_refl eq_refl eq_refl eq_refl eq_refl)
    as (fs' & Hv & Hn).
  exists fs'. split; [|exact Hn].
  rewrite <- Hv. reflexivity.
Defined.

(** C2, as stated, fails: the sibling [Foo] of [FooFile] in [fooSetter] has
    the secret type, not the plain string type, and [SetFile] clears it all
    the same. *)
Lemma secret_sibling_cleared :
  ~ (forall v st,
       SetFile 3 foo_heap foo_config "f" [] = Some (v, st) ->
       nth_error (heap st) 0 = Some (fooSetter "<secret>" "f")).
Proof.
  intros H.
  specialize (H foo_config
                (mkState [fooSetter "" "f"] [0] [] [Reach 0; Descend 0])
                eq_refl).
  discriminate H.
Qed.

(** C2, amended.  At a file-like string field that the walker can set and
    that is not excluded, one round of the field loop of [setFile] clears
    the sibling named by stripping "File" when the sibling's kind is
    String, whether its type is the plain string type or a named string
    type such as the secret type, and leaves a sibling of another kind as
    it is; it then sets the file field to the given string, touches no
    other field, and goes on with the next field. *)
Theorem setFile_clears_string_kind_sibling
    (rec : value -> state -> option (value * state))
    (file : string) (opts : fields) (typ : type) (pl : place)
    (n i j : nat) (fs : list (string * value)) (st : state)
    (name sname : string) (vf sf : value) :
  nth_error fs i = Some (name, vf) ->
  CanSet pl name = true ->
  exclude opts (typ, name) = false ->
  is_file opts (typ, name) vf = true ->
  FieldByName fs (TrimSuffix name "File") = Some j ->
  nth_error fs j = Some (sname, sf) ->
  j <> i ->
  exists fs2,
    setFile_fields rec file opts typ pl (S n) i fs st =
    setFile_fields rec file opts typ pl n (S i) fs2 st /\
    nth_error fs2 i = Some (name, VString stringTyp file) /\
    nth_error fs2 j =
      Some (sname, if kind_eqb (Kind (typeOf sf)) KString
                   then VString (typeOf sf) "" else sf) /\
    (forall l, l <> i -> l <> j -> nth_error fs2 l = nth_error fs l).
Proof.
  intros Hi Hset Hex Hfile Hj Hsf Hne.
  exists (set_nth i (name, SetString vf file) (clear_sibling name fs)).
  assert (Hc : forall l,
             nth_error (clear_sibling name fs) l =
             if Nat.eqb j l
             then Some (sname, if kind_eqb (Kind (typeOf sf)) KString
                               then VString (typeOf sf) "" else sf)
             else nth_error fs l).
  { intros l. unfold clear_sibling. rewrite Hj, Hsf.
    destruct (kind_eqb (Kind (typeOf sf)) KString).
    - rewrite nth_error_set_nth.
      destruct (Nat.eqb_spec j l); [subst; now rewrite Hsf | reflexivity].
    - destruct (Nat.eqb_spec j l); [subst; exact Hsf | reflexivity]. }
  split; [|split; [|split]].
  - simpl. rewrite Hi, Hset, Hex, Hfile. reflexivity.
  - rewrite nth_error_set_nth, Nat.eqb_refl, Hc.
    destruct (Nat.eqb_spec j i); [contradiction|]. rewrite Hi.
    unfold SetString. now rewrite (is_file_type _ _ _ Hfile).
  - rewrite nth_error_set_nth.
    destruct (Nat.eqb_spec i j); [congruence|].
    rewrite Hc, Nat.eqb_refl. reflexivity.
  - intros l Hli Hlj. rewrite nth_error_set_nth.
    destruct (Nat.eqb_spec i l); [congruence|].
    rewrite Hc. destruct (Nat.eqb_spec j l); [congruence | reflexivity].
Qed.

Lemma setFile_clears_string_kind_sibling_witness :
  exists fs2,
    setFile_fields (setFile 1 "f" no_fields Inside) "f" no_fields
      fooSetterT (Cell 0) 3 1
      [("Foo", VString secretTyp "<secret>"); ("FooFile", str "");
       ("Extra", str ""); ("Disable", flag false)] (init_state foo_heap) =
    setFile_fields (setFile 1 "f" no_fields Inside) "f" no_fields
      fooSetterT (Cell 0) 2 2 fs2 (init_state foo_heap) /\
    nth_error fs2 1 = Some ("FooFile", VString stringTyp "f") /\
    nth_error fs2 0 = Some ("Foo", VString secretTyp "").
Proof.
  destruct (setFile_clears_string_kind_sibling
              (setFile 1 "f" no_fields Inside) "f" no_fields fooSetterT
              (Cell 0) 2 1 0
              [("Foo", VString secretTyp "<secret>"); ("FooFile", str "");
               ("Extra", str ""); ("Disable", flag false)]
              (init_state foo_heap) "FooFile" "Foo" (str "")
              (VString secretTyp "<secret>")
              eq_refl eq_refl eq_refl eq_refl eq_refl eq_refl
              (fun H => Nat.neq_0_succ 0 H))
    as (fs2 & H1 & H2 & H3 & _).
  exists fs2. split; [exact H1|]. split; [exact H2 | exact H3].
Defined.



(** C1, as stated, fails: on a pointer to a [fooSetter] the walker calls
    the capability of that one node twice, once for the pointer and once
    for the address of the struct it points to. *)
Lemma capability_invoked_twice :
  ~ (forall st,
       SetDirectory implements 5 foo_heap foo_config "/d" = Some st ->
       invocations 0 (trace st) = 1).
Proof.
  intros H.
  specialize (H (mkState foo_heap [0] []
                   [Invoke (RPtr 0); Reach 0; Descend 0; Invoke (RPtr 0)])
                eq_refl).
  discriminate H.
Qed.

(** C1, amended.  The Visited Set bounds the descents, not the calls: in a
    top-level [SetDirectory] every pointer met is descended through exactly
    once; and whenever the walker is at a non-nil pointer whose type has the
    capability it calls it, whatever the Visited Set holds, so that one
    node may be called more than once. *)
Theorem SetDirectory_calls_each_encounter (implements : type -> bool)
    (fuel : nat) (dir : string) :
  (forall h config st,
      SetDirectory implements fuel h config dir = Some st ->
      descended_once st) /\
  (forall pl t a s s',
      implements t = true ->
      setDirectory implements fuel dir pl (VPtr t (Some a)) s = Some s' ->
      invocations a (trace s) < invocations a (trace s')).
Proof.
  split.
  - intros h config st H. apply seen_ok_once.
    apply setDirectory_ext in H. apply H, seen_ok_init.
  - intros pl t a s s' Hi H.
    destruct (setDirectory_pointer_trace _ _ _ _ _ _ _ _ Hi H) as [evs E].
    rewrite E, invocations_app. unfold invocations at 3. simpl.
    rewrite Nat.eqb_refl. simpl. lia.
Qed.

Lemma SetDirectory_calls_each_encounter_witness :
  exists st,
    SetDirectory Fixtures.implements 5 cycle_heap cycle_config "/d" =
      Some st /\
    descended_once st /\
    invocations 0 (trace (init_state cycle_heap)) < invocations 0 (trace st).
Proof.
  eexists. split; [vm_compute; reflexivity|]. split.
  - apply (proj1 (SetDirectory_calls_each_encounter Fixtures.implements 5 "/d")
             cycle_heap cycle_config).
    vm_compute. reflexivity.
  - apply (proj2 (SetDirectory_calls_each_encounter Fixtures.implements 5 "/d")
             Unaddressable (TPtr cyclicT) 0 (init_state cycle_heap)).
    + reflexivity.
    + vm_compute. reflexivity.
Defined.




(** C8.  On a well-typed graph, when [SetFile] returns a graph, [SetFile]
    with the same string and options on that graph returns, for every
    larger fuel, the very same graph: the same root value and the same
    heap. *)
Theorem SetFile_idempotent (fuel fuel' : nat) (h : list value)
    (config : value) (path : string) (options : list FieldOption)
    (v1 : value) (st1 : state) :
  well_typed config -> well_typed_heap h ->
  SetFile fuel h config path options = Some (v1, st1) ->
  fuel < fuel' ->
  exists st2,
    SetFile fuel' (heap st1) v1 path options = Some (v1, st2) /\
    heap st2 = heap st1.
Proof.
  unfold SetFile, well_typed, well_typed_heap.
  set (opts := apply_options options).
  intros Hv Hh E Hf.
  destruct (setFile_follows path opts fuel Unaddressable
              config config (init_state h) (init_state h) v1 st1
              Hv Hh eq_refl E)
    as (w & sw & Ew & _ & Q1 & H1).
  rewrite (setFile_mono fuel (S fuel) path opts Unaddressable config
             (init_state h) (v1, st1) (Nat.le_succ_diag_r _) E) in Ew.
  inversion Ew; subst w sw; clear Ew.
  pose proof (same_writes_pick 0 1 _ _ _ _ Q1) as Q0. simpl in Q0.
  assert (H0 : same_writes_heap h h (heap st1) (heap st1)).
  { unfold same_writes_heap in *. rewrite same_writes_array in *.
    simpl heap in H1. apply (same_writes_pick 0 1 _ _ _ _ H1). }
  destruct (setFile_follows path opts fuel Unaddressable
              config v1 (init_state h) (init_state (heap st1)) v1 st1
              Q0 H0 eq_refl E)
    as (v2 & s2 & E2 & _ & Q2 & H2).
  apply same_writes_final in Q2. subst v2.
  simpl heap in H2. unfold same_writes_heap in H2.
  rewrite same_writes_array in H2. apply same_writes_final in H2.
  exists s2. split.
  - eapply setFile_mono; [|exact E2]. lia.
  - inversion H2. congruence.
Qed.

Lemma SetFile_idempotent_witness :
  exists st2,
    SetFile 6 [fooSetter "" "f"] foo_config "f" [] =
      Some (foo_config, st2) /\
    heap st2 = [fooSetter "" "f"].
Proof.
  refine (SetFile_idempotent 5 6 foo_heap foo_config "f" [] foo_config
            (mkState [fooSetter "" "f"] [0] [] [Reach 0; Descend 0])
            _ _ eq_refl (Nat.lt_succ_diag_r 5)).
  - unfold well_typed. simpl. repeat split; discriminate.
  - unfold well_typed_heap, same_writes_heap. simpl.
    repeat split; try discriminate; try (left; reflexivity).
Defined.

(** The self-referential [cyclic] of the package's tests: the three walks
    return, having descended through the one pointer once. *)
Example cyclic_walks :
  (exists v st, SetFile 5 cycle_heap cycle_config "f" [] = Some (v, st) /\
                seen st = [0] /\ descents 0 (trace st) = 1 /\
                heap st = [cyclic (Some 0) "f"]) /\
  (exists b st, AssertFile String_of 5 cycle_heap cycle_config relPath [] =
                  Some (b, st) /\
                b = true /\ descents 0 (trace st) = 1) /\
  (exists st, SetDirectory implements 5 cycle_heap cycle_config "/d" =
                Some st /\
              descents 0 (trace st) = 1 /\ invocations 0 (trace st) = 3).
Proof.
  split; [|split].
  - eexists. eexists. split; [vm_compute; reflexivity|]. auto.
  - eexists. eexists. split; [vm_compute; reflexivity|]. auto.
  - eexists. split; [vm_compute; reflexivity|]. auto.
Qed.

(** * Further properties of the package *)

(** ** Field descriptors and options *)

Lemma ptrType_TPtr (t : type) : ptrType (TPtr t) = ptrType t.
Proof. reflexivity. Qed.

Lemma ptrType_not_TPtr (t : type) : forall e, ptrType t <> TPtr e.
Proof. induction t; simpl; intros e; try discriminate; auto. Qed.

Lemma ptrType_layers (n : nat) (t : type) :
  ptrType (Nat.iter n TPtr t) = ptrType t.
Proof. induction n as [|n IH]; simpl; auto. Qed.

(** X1.  A field descriptor does not depend on the pointer layers of the
    sample: a sample whose type is that of another behind any number of
    pointers gives the same result, descriptor or panic, for
    [IncludeField] and [ExcludeField]; and a descriptor that [structField]
    returns holds the given name and a struct type that is not a pointer
    type and has a field of that name. *)
Theorem descriptor_ignores_pointers (n : nat) (strukt sample : value)
    (name : string) :
  typeOf sample = Nat.iter n TPtr (typeOf strukt) ->
  IncludeField sample name = IncludeField strukt name /\
  ExcludeField sample name = ExcludeField strukt name /\
  (forall key,
      structField (typeOf sample) name = Ok key ->
      snd key = name /\ Kind (fst key) = KStruct /\
      (forall e, fst key <> TPtr e) /\
      Type_FieldByName (fst key) name = true).
Proof.
  intros Ht.
  assert (Hs : structField (typeOf sample) name =
               structField (typeOf strukt) name).
  { unfold structField. now rewrite Ht, ptrType_layers. }
  unfold IncludeField, ExcludeField. rewrite Hs.
  split; [reflexivity|]. split; [reflexivity|].
  intros key H. unfold structField in H.
  destruct (kind_eqb (Kind (ptrType (typeOf strukt))) KStruct) eqn:Ek;
    simpl in H; [|discriminate].
  destruct (Type_FieldByName (ptrType (typeOf strukt)) name) eqn:Ef;
    simpl in H; [|discriminate].
  inversion H; subst key; simpl.
  apply kind_eqb_eq in Ek. repeat split; auto.
  apply ptrType_not_TPtr.
Qed.

Lemma descriptor_ignores_pointers_witness :
  IncludeField (VPtr (TPtr (TPtr includeFileT)) None) "Extra" =
  IncludeField (includeFile "") "Extra".
Proof.
  exact (proj1 (descriptor_ignores_pointers 2
                  (includeFile "") (VPtr (TPtr (TPtr includeFileT)) None)
                  "Extra" eq_refl)).
Defined.

Lemma built_exclude_key (fn : FieldOption) (k : field) :
  built fn ->
  (exclude (fn no_fields) k = true <->
   exists strukt name,
     ExcludeField strukt name = Ok fn /\
     structField (typeOf strukt) name = Ok k).
Proof.
  intros Hb. split.
  - destruct Hb as [s n f H | s n f H].
    + unfold IncludeField in H. destruct (structField _ _); inversion H.
      simpl. discriminate.
    + intros Hx. exists s, n. split; [exact H|].
      unfold ExcludeField in H.
      destruct (structField (typeOf s) n) as [key|]; inversion H.
      subst f. simpl in Hx. unfold map_set in Hx.
      destruct (field_eqb key k) eqn:E; [|discriminate].
      apply field_eqb_eq in E. now subst.
  - intros (s & n & H & Hk). unfold ExcludeField in H. rewrite Hk in H.
    inversion H. simpl. unfold map_set. now rewrite field_eqb_refl.
Qed.

Lemma built_include_key (fn : FieldOption) (k : field) :
  built fn ->
  (include (fn no_fields) k = true <->
   exists strukt name,
     IncludeField strukt name = Ok fn /\
     structField (typeOf strukt) name = Ok k).
Proof.
  intros Hb. split.
  - destruct Hb as [s n f H | s n f H].
    + intros Hx. exists s, n. split; [exact H|].
      unfold IncludeField in H.
      destruct (structField (typeOf s) n) as [key|]; inversion H.
      subst f. simpl in Hx. unfold map_set in Hx.
      destruct (field_eqb key k) eqn:E; [|discriminate].
      apply field_eqb_eq in E. now subst.
    + unfold ExcludeField in H. destruct (structField _ _); inversion H.
      simpl. discriminate.
  - intros (s & n & H & Hk). unfold IncludeField in H. rewrite Hk in H.
    inversion H. simpl. unfold map_set. now rewrite field_eqb_refl.
Qed.

(** X2.  The options only accumulate: after all of them are applied, a
    descriptor is excluded exactly when some [ExcludeField] option of the
    list was built for it, and included exactly when some [IncludeField]
    option was; an option never removes a descriptor, and with no option
    nothing is included or excluded. *)
Theorem options_accumulate (options : list FieldOption) (k : field) :
  Forall built options ->
  (exclude (apply_options options) k = true <->
   exists fn strukt name,
     In fn options /\ ExcludeField strukt name = Ok fn /\
     structField (typeOf strukt) name = Ok k) /\
  (include (apply_options options) k = true <->
   exists fn strukt name,
     In fn options /\ IncludeField strukt name = Ok fn /\
     structField (typeOf strukt) name = Ok k).
Proof.
  intros Hb. unfold apply_options.
  rewrite fold_options_exclude, fold_options_include by assumption.
  simpl. rewrite !existsb_exists. rewrite Forall_forall in Hb.
  split; split.
  - intros (fn & Hin & Hx).
    apply (built_exclude_key fn k (Hb fn Hin)) in Hx.
    destruct Hx as (s & n & H1 & H2). eauto 10.
  - intros (fn & s & n & Hin & H1 & H2). exists fn. split; [exact Hin|].
    apply (built_exclude_key fn k (Hb fn Hin)). eauto.
  - intros (fn & Hin & Hx).
    apply (built_include_key fn k (Hb fn Hin)) in Hx.
    destruct Hx as (s & n & H1 & H2). eauto 10.
  - intros (fn & s & n & Hin & H1 & H2). exists fn. split; [exact Hin|].
    apply (built_include_key fn k (Hb fn Hin)). eauto.
Qed.

Lemma options_accumulate_witness :
  exclude (apply_options [include_fn]) exclude_key = true <->
  exists fn strukt name,
    In fn [include_fn] /\ ExcludeField strukt name = Ok fn /\
    structField (typeOf strukt) name = Ok exclude_key.
Proof.
  refine (proj1 (options_accumulate [include_fn] exclude_key _)).
  constructor; [|constructor].
  apply (built_include (excludeFile "") "ExcludeFile"). reflexivity.
Defined.

(** X3.  An [IncludeField] option makes both walkers treat the field as
    file-like whatever its name: with the option in the list, a field of
    that descriptor whose type is [string] passes the singular test and one
    whose type is [[]string] passes the plural test; where the walker can
    set the field and it is not excluded, [assertFile] reports a value that
    differs from the expected one, under the field's name, and [setFile]
    writes the given string over it. *)
Theorem inclusion_makes_file_like (options : list FieldOption)
    (strukt : value) (name : string) (fn : FieldOption) (key : field) :
  Forall built options ->
  IncludeField strukt name = Ok fn -> In fn options ->
  structField (typeOf strukt) name = Ok key ->
  let opts := apply_options options in
  (forall vf, typeOf vf = stringTyp -> is_file opts key vf = true) /\
  (forall vf, typeOf vf = stringSliceTyp -> is_files opts key vf = true) /\
  (forall Rec path want pl vf fs st,
      CanSet pl (snd key) = true -> exclude opts key = false ->
      typeOf vf = stringTyp -> String_of vf <> want ->
      assertFile_fields Rec path want opts (fst key) pl
        ((snd key, vf) :: fs) st =
      match assertFile_fields Rec path want opts (fst key) pl fs
              (Errorf (mkFailure (path ++ "." ++ snd key)%string
                                 (String_of vf) want) st) with
      | Some (_, st') => Some (false, st')
      | None => None
      end) /\
  (forall rec file pl n i fs st vf,
      CanSet pl (snd key) = true -> exclude opts key = false ->
      typeOf vf = stringTyp ->
      nth_error fs i = Some (snd key, vf) ->
      setFile_fields rec file opts (fst key) pl (S n) i fs st =
      setFile_fields rec file opts (fst key) pl n (S i)
        (set_nth i (snd key, VString stringTyp file)
                 (clear_sibling (snd key) fs)) st).
Proof.
  intros Hb Hi Hin Hk opts.
  assert (Hinc : include opts key = true).
  { apply (proj2 (options_accumulate options key Hb)). eauto 10. }
  assert (Hf : forall vf, typeOf vf = stringTyp -> is_file opts key vf = true).
  { intros vf Ht. unfold is_file. rewrite Ht, Hinc, orb_true_r.
    reflexivity. }
  split; [exact Hf|]. split.
  { intros vf Ht. unfold is_files. rewrite Ht, Hinc, orb_true_r.
    reflexivity. }
  destruct key as [typ nm]. simpl fst in *. simpl snd in *. split.
  - intros Rec path want pl vf fs st Hset Hex Ht Hne.
    cbn [assertFile_fields]. rewrite Hset, Hex, (Hf vf Ht). simpl.
    apply String.eqb_neq in Hne. rewrite Hne. reflexivity.
  - intros rec file pl n i fs st vf Hset Hex Ht Hn.
    cbn [setFile_fields]. rewrite Hn, Hset, Hex, (Hf vf Ht). simpl.
    unfold SetString. now rewrite Ht.
Qed.

Lemma inclusion_makes_file_like_witness :
  is_file (apply_options [include_fn]) exclude_key (str "x") = true.
Proof.
  refine (proj1 (inclusion_makes_file_like [include_fn] (excludeFile "")
                   "ExcludeFile" include_fn exclude_key _ _ _ _)
            (str "x") eq_refl).
  - constructor; [|constructor].
    apply (built_include (excludeFile "") "ExcludeFile"). reflexivity.
  - reflexivity.
  - simpl. auto.
  - reflexivity.
Defined.

(** ** Structs the walkers cannot set *)

Lemma setFile_fields_unaddressable rec file opts typ : forall n i fs st,
  setFile_fields rec file opts typ Unaddressable n i fs st = Some (fs, st).
Proof.
  induction n as [|n IH]; intros i fs st; simpl; auto.
  destruct (nth_error fs i) as [[name vf]|]; auto.
Qed.

Lemma assertFile_fields_unaddressable Rec path want opts typ : forall fs st,
  assertFile_fields Rec path want opts typ Unaddressable fs st =
  Some (true, st).
Proof.
  induction fs as [|[name vf] fs IH]; intros st; simpl; auto.
Qed.

Lemma setDirectory_fields_unaddressable rec : forall fs st,
  setDirectory_fields rec Unaddressable fs st = Some st.
Proof.
  induction fs as [|[name vf] fs IH]; intros st; simpl; auto.
Qed.

(** X4.  A struct that is not addressable (a config passed by value, a
    struct held by value in an interface or a map) has no field the
    walkers can set, so they pass over all of it: [SetFile] returns the
    graph as it was, [AssertFile] reports nothing and succeeds whatever
    the fields hold, and [SetDirectory] calls the capability of the struct
    itself at most and meets none of the pointers in its fields. *)
Theorem struct_by_value_untouched (Sprint : value -> string)
    (implements : type -> bool) (fuel : nat) (h : list value)
    (t : type) (fs : list (string * value)) (path dir : string)
    (options : list FieldOption) :
  SetFile (S fuel) h (VStruct t fs) path options =
    Some (VStruct t fs, init_state h) /\
  AssertFile Sprint (S fuel) h (VStruct t fs) path options =
    Some (true, init_state h) /\
  SetDirectory implements (S fuel) h (VStruct t fs) dir =
    Some (if implements t
          then log (Invoke (RValue t)) (init_state h)
          else init_state h).
Proof.
  unfold SetFile, AssertFile, SetDirectory. split; [|split].
  - simpl. now rewrite setFile_fields_unaddressable.
  - cbn [assertFile isNil]. apply assertFile_fields_unaddressable.
  - cbn [setDirectory isNil]. rewrite setDirectory_fields_unaddressable.
    unfold call_capability, capability. simpl.
    destruct (implements t); reflexivity.
Qed.

(** ** Suffixes *)

Lemma length_append (a b : string) :
  String.length (a ++ b)%string = String.length a + String.length b.
Proof. induction a as [|c a IH]; simpl; auto. Qed.

Lemma substring_all (s : string) : substring 0 (String.length s) s = s.
Proof. induction s as [|c s IH]; simpl; congruence. Qed.

Lemma substring_prefix (a b : string) :
  substring 0 (String.length a) (a ++ b)%string = a.
Proof.
  induction a as [|c a IH]; simpl.
  - destruct b; reflexivity.
  - now rewrite IH.
Qed.

Lemma substring_suffix (a b : string) :
  substring (String.length a) (String.length b) (a ++ b)%string = b.
Proof.
  induction a as [|c a IH]; simpl; auto. apply substring_all.
Qed.

Lemma substring_split (s : string) : forall n,
  n <= String.length s ->
  s = (substring 0 n s ++ substring n (String.length s - n) s)%string.
Proof.
  induction s as [|c s IH]; intros [|n] Hn; simpl in *; try lia; auto.
  - now rewrite substring_all.
  - rewrite <- IH by lia. reflexivity.
Qed.

Lemma HasSuffix_append (a suffix : string) :
  HasSuffix (a ++ suffix) suffix = true.
Proof.
  unfold HasSuffix. rewrite length_append.
  replace (String.length a + String.length suffix - String.length suffix)
    with (String.length a) by lia.
  rewrite substring_suffix, String.eqb_refl, andb_true_r.
  apply Nat.leb_le. lia.
Qed.

Lemma TrimSuffix_append (a suffix : string) :
  TrimSuffix (a ++ suffix) suffix = a.
Proof.
  unfold TrimSuffix. rewrite HasSuffix_append, length_append.
  replace (String.length a + String.length suffix - String.length suffix)
    with (String.length a) by lia.
  apply substring_prefix.
Qed.

Lemma TrimSuffix_inv (s suffix : string) :
  s = TrimSuffix s suffix \/ s = (TrimSuffix s suffix ++ suffix)%string.
Proof.
  unfold TrimSuffix, HasSuffix.
  destruct (Nat.leb (String.length suffix) (String.length s)) eqn:El;
    simpl; auto.
  destruct (String.eqb _ suffix) eqn:Es; auto.
  right. apply Nat.leb_le in El. apply String.eqb_eq in Es.
  rewrite (substring_split s (String.length s - String.length suffix))
    at 1 by lia.
  f_equal.
  replace (String.length s - (String.length s - String.length suffix))
    with (String.length suffix) by lia.
  exact Es.
Qed.

Lemma append_inj_l (a b c : string) :
  (a ++ c)%string = (b ++ c)%string -> a = b.
Proof.
  revert b. induction a as [|x a IH]; intros [|y b] H; simpl in H; auto.
  - exfalso. apply (f_equal String.length) in H. simpl in H.
    rewrite length_append in H. lia.
  - exfalso. apply (f_equal String.length) in H. simpl in H.
    rewrite length_append in H. lia.
  - inversion H. f_equal. auto.
Qed.

(** ** The field loop of [setFile], from first field to last *)

Lemma map_fst_set_nth (fs : list (string * value)) : forall i n v w,
  nth_error fs i = Some (n, v) ->
  map fst (set_nth i (n, w) fs) = map fst fs.
Proof.
  induction fs as [|[m x] fs IH]; intros [|i] n v w H; simpl in *;
    try discriminate.
  - now inversion H.
  - f_equal. eauto.
Qed.

Lemma map_fst_clear_sibling name fs :
  map fst (clear_sibling name fs) = map fst fs.
Proof.
  unfold clear_sibling. destruct (FieldByName fs _) as [j|]; auto.
  destruct (nth_error fs j) as [[sn sf]|] eqn:E; auto.
  destruct (kind_eqb _ _); auto. eapply map_fst_set_nth; eauto.
Qed.

Lemma FieldByName_names fs : forall fs' name,
  map fst fs = map fst fs' -> FieldByName fs name = FieldByName fs' name.
Proof.
  induction fs as [|[n v] fs IH]; intros [|[n' v'] fs'] name H;
    simpl in *; try discriminate; auto.
  inversion H; subst. now rewrite (IH fs' name).
Qed.

Lemma FieldByName_found fs : forall k name v,
  nth_error fs k = Some (name, v) -> name <> "" ->
  FieldByName fs name <> None.
Proof.
  induction fs as [|[n x] fs IH]; intros [|k] name v H Hne; simpl in *;
    try discriminate.
  - inversion H; subst. rewrite String.eqb_refl.
    apply String.eqb_neq in Hne. rewrite Hne. discriminate.
  - destruct (negb (String.eqb name "") && String.eqb n name);
      [discriminate|].
    specialize (IH _ _ _ H Hne).
    destruct (FieldByName fs name); [discriminate | contradiction].
Qed.

Lemma clear_sibling_length name fs :
  List.length (clear_sibling name fs) = List.length fs.
Proof.
  pose proof (f_equal (@List.length string) (map_fst_clear_sibling name fs)) as H.
  now rewrite !length_map in H.
Qed.

Section FieldLoop.

Variable rec : value -> state -> option (value * state).
Variables (file : string) (opts : fields) (typ : type) (pl : place).

(** A property of the fields that each round of the loop carries from
    field [i] to field [i + 1] lasts to the end of the loop. *)
Variable Inv : nat -> list (string * value) -> Prop.

Hypothesis Inv_skip : forall i fs name vf,
  Inv i fs -> nth_error fs i = Some (name, vf) ->
  negb (CanSet pl name) || exclude opts (typ, name) = true ->
  Inv (S i) fs.
Hypothesis Inv_file : forall i fs name vf,
  Inv i fs -> nth_error fs i = Some (name, vf) ->
  negb (CanSet pl name) || exclude opts (typ, name) = false ->
  is_file opts (typ, name) vf = true ->
  Inv (S i) (set_nth i (name, SetString vf file) (clear_sibling name fs)).
Hypothesis Inv_files : forall i fs name vf,
  Inv i fs -> nth_error fs i = Some (name, vf) ->
  negb (CanSet pl name) || exclude opts (typ, name) = false ->
  is_file opts (typ, name) vf = false ->
  is_files opts (typ, name) vf = true ->
  Inv (S i) (set_nth i (name, single_file file) fs).
Hypothesis Inv_rec : forall i fs name vf st vf' st1,
  Inv i fs -> nth_error fs i = Some (name, vf) ->
  negb (CanSet pl name) || exclude opts (typ, name) = false ->
  is_file opts (typ, name) vf = false ->
  is_files opts (typ, name) vf = false ->
  rec vf st = Some (vf', st1) ->
  Inv (S i) (set_nth i (name, vf') fs).

Lemma setFile_fields_invariant : forall n i fs st fs' st',
  Inv i fs -> i + n <= List.length fs ->
  setFile_fields rec file opts typ pl n i fs st = Some (fs', st') ->
  Inv (i + n) fs'.
Proof.
  induction n as [|n IH]; intros i fs st fs' st' HI Hn H; simpl in H.
  - inv_some. now rewrite Nat.add_0_r.
  - rewrite <- Nat.add_succ_comm.
    destruct (nth_error fs i) as [[name vf]|] eqn:E.
    2:{ apply nth_error_None in E. lia. }
    destruct (negb (CanSet pl name) || exclude opts (typ, name)) eqn:Es.
    { eapply IH; [| |exact H]; eauto. lia. }
    destruct (is_file opts (typ, name) vf) eqn:Ef.
    { eapply IH; [| |exact H]; eauto.
      rewrite set_nth_length, clear_sibling_length. lia. }
    destruct (is_files opts (typ, name) vf) eqn:Efs.
    { eapply IH; [| |exact H]; eauto. rewrite set_nth_length. lia. }
    destruct (rec vf st) as [[vf' st1]|] eqn:Er; [|discriminate].
    eapply IH; [| |exact H]; eauto. rewrite set_nth_length. lia.
Qed.

End FieldLoop.

Lemma append_assoc (a b c : string) :
  ((a ++ b) ++ c)%string = (a ++ (b ++ c))%string.
Proof. induction a as [|x a IH]; simpl; congruence. Qed.

Lemma append_suffix_neq (a b : string) : b <> "" -> a <> (a ++ b)%string.
Proof.
  intros Hb H. apply (f_equal String.length) in H.
  rewrite length_append in H. destruct b; [congruence | simpl in H; lia].
Qed.

Lemma nth_clear_sibling name cur m :
  nth_error (clear_sibling name cur) m = nth_error cur m \/
  (FieldByName cur (TrimSuffix name "File") = Some m /\
   exists sn sf, nth_error cur m = Some (sn, sf) /\
                 Kind (typeOf sf) = KString /\
                 nth_error (clear_sibling name cur) m =
                   Some (sn, SetString sf "")).
Proof.
  unfold clear_sibling.
  destruct (FieldByName cur _) as [j|] eqn:Ej; auto.
  destruct (nth_error cur j) as [[sn sf]|] eqn:E; auto.
  destruct (kind_eqb (Kind (typeOf sf)) KString) eqn:Ek; auto.
  rewrite nth_error_set_nth. destruct (Nat.eqb_spec j m); auto.
  subst j. rewrite E. right. split; auto.
  apply kind_eqb_eq in Ek. eauto 10.
Qed.

Lemma setFile_string fuel file opts pl t s st v' st1 :
  setFile fuel file opts pl (VString t s) st = Some (v', st1) ->
  v' = VString t s.
Proof. destruct fuel; simpl; intros H; now inv_some. Qed.

Section FileAndSibling.

Variables (fuel : nat) (file : string) (opts : fields) (t : type)
          (pl : place).
Variables (fs0 : list (string * value)) (l j : nat) (base : string)
          (ts : type).

Hypothesis Hset : CanSet pl (base ++ "File") = true.
Hypothesis Hex : exclude opts (t, (base ++ "File")%string) = false.
Hypothesis Hj0 : FieldByName fs0 base = Some j.
Hypothesis Hk : Kind ts = KString.
Hypothesis Hnf : forall s, is_file opts (t, base) (VString ts s) = false.
Hypothesis Hnone : FieldByName fs0 (base ++ "FileFile") = None.

Local Abbreviation Inv := (file_sibling_inv fs0 file l j base ts).

Lemma file_field_not_cleared i cur name v :
  Inv i cur -> nth_error cur i = Some (name, v) ->
  FieldByName cur (TrimSuffix name "File") <> Some l.
Proof.
  intros (Hn & (w & Hl & Hw) & _) Hi Hf.
  destruct (FieldByName_name _ _ _ _ _ Hf Hl) as [Ht Hne].
  destruct (TrimSuffix_inv name "File") as [H|H]; rewrite <- Ht in H.
  - rewrite H, TrimSuffix_append in Ht.
    apply (append_suffix_neq base "File"); [discriminate | congruence].
  - rewrite append_assoc in H. simpl in H.
    apply (FieldByName_found cur i name v Hi).
    + rewrite H. destruct base; discriminate.
    + rewrite (FieldByName_names _ _ _ Hn), H. exact Hnone.
Qed.

Lemma sibling_index i cur : Inv i cur -> j <> l.
Proof.
  intros (_ & (w & Hl & _) & _ & (s & Hj) & _) E. subst j.
  rewrite Hl in Hj. inversion Hj as [H].
  apply (append_suffix_neq base "File"); [discriminate | congruence].
Qed.

Lemma inv_file_field i cur name v :
  Inv i cur -> nth_error cur i = Some (name, v) ->
  i = l -> name = (base ++ "File")%string /\ is_file opts (t, name) v = true /\
           negb (CanSet pl name) || exclude opts (t, name) = false.
Proof.
  intros (_ & (w & Hl & Hw) & _) Hi ->. rewrite Hl in Hi.
  inversion Hi; subst. split; [reflexivity|]. split.
  - unfold is_file. rewrite Hw. simpl snd.
    now rewrite HasSuffix_append.
  - now rewrite Hset, Hex.
Qed.

Lemma inv_sibling i cur name v :
  Inv i cur -> nth_error cur i = Some (name, v) ->
  i = j -> name = base /\ exists s, v = VString ts s.
Proof.
  intros (_ & _ & _ & (s & Hj) & _) Hi ->. rewrite Hj in Hi.
  inversion Hi; subst. eauto.
Qed.

Lemma inv_unchanged i cur name v w :
  Inv i cur -> nth_error cur i = Some (name, v) ->
  i <> l -> (i = j -> w = v) ->
  Inv (S i) (set_nth i (name, w) cur).
Proof.
  intros HI Hi Hil Hij.
  pose proof HI as (Hn & (x & Hl & Hx) & Hl' & (s & Hj) & Hj').
  split; [|split; [|split; [|split]]].
  - rewrite <- Hn. eapply map_fst_set_nth; eauto.
  - exists x. rewrite nth_error_set_nth.
    destruct (Nat.eqb_spec i l); [contradiction | auto].
  - intros Hlt. rewrite nth_error_set_nth.
    destruct (Nat.eqb_spec i l); [contradiction|]. apply Hl'. lia.
  - exists s. rewrite nth_error_set_nth.
    destruct (Nat.eqb_spec i j) as [E|]; auto.
    rewrite Hj. rewrite (Hij E). subst i. rewrite Hj in Hi. now inversion Hi.
  - intros Hlt. rewrite nth_error_set_nth.
    destruct (Nat.eqb_spec i j) as [E|]; [|apply Hj'; lia].
    rewrite (Hij E). subst i. rewrite (Hj' ltac:(lia)) in Hi |- *.
    now inversion Hi.
Qed.

Lemma inv_skip i cur name v :
  Inv i cur -> nth_error cur i = Some (name, v) ->
  negb (CanSet pl name) || exclude opts (t, name) = true ->
  Inv (S i) cur.
Proof.
  intros HI Hi Hs.
  destruct (Nat.eq_dec i l) as [E|E].
  { destruct (inv_file_field _ _ _ _ HI Hi E) as (_ & _ & H). congruence. }
  pose proof HI as (Hn & Hl & Hl' & Hj & Hj').
  split; [|split; [|split; [|split]]]; auto; intros; [apply Hl'|apply Hj'];
    lia.
Qed.

Lemma inv_files i cur name v :
  Inv i cur -> nth_error cur i = Some (name, v) ->
  is_file opts (t, name) v = false ->
  is_files opts (t, name) v = true ->
  Inv (S i) (set_nth i (name, single_file file) cur).
Proof.
  intros HI Hi Hf Hfs.
  destruct (Nat.eq_dec i l) as [E|E].
  { destruct (inv_file_field _ _ _ _ HI Hi E) as (_ & H & _). congruence. }
  apply (inv_unchanged _ _ _ v); auto.
  intros Ej. destruct (inv_sibling _ _ _ _ HI Hi Ej) as (-> & s & ->).
  apply is_files_type in Hfs. simpl in Hfs. subst ts. discriminate Hk.
Qed.

Lemma inv_rec i cur name v st v' st1 :
  Inv i cur -> nth_error cur i = Some (name, v) ->
  is_file opts (t, name) v = false ->
  setFile fuel file opts (sub_place pl) v st = Some (v', st1) ->
  Inv (S i) (set_nth i (name, v') cur).
Proof.
  intros HI Hi Hf Hr.
  destruct (Nat.eq_dec i l) as [E|E].
  { destruct (inv_file_field _ _ _ _ HI Hi E) as (_ & H & _). congruence. }
  apply (inv_unchanged _ _ _ v); auto.
  intros Ej. destruct (inv_sibling _ _ _ _ HI Hi Ej) as (-> & s & ->).
  eapply setFile_string; eauto.
Qed.

Lemma clear_at_file cur s :
  map fst cur = map fst fs0 ->
  nth_error cur j = Some (base, VString ts s) ->
  nth_error (clear_sibling (base ++ "File") cur) j =
  Some (base, VString ts "").
Proof.
  intros Hn Hj. unfold clear_sibling.
  rewrite TrimSuffix_append, (FieldByName_names _ _ _ Hn), Hj0, Hj.
  simpl typeOf. rewrite Hk.
  change (kind_eqb KString KString) with true. cbv iota.
  rewrite nth_error_set_nth, Nat.eqb_refl, Hj. reflexivity.
Qed.

Lemma inv_file i cur name v :
  Inv i cur -> nth_error cur i = Some (name, v) ->
  is_file opts (t, name) v = true ->
  Inv (S i) (set_nth i (name, SetString v file) (clear_sibling name cur)).
Proof.
  intros HI Hi Hf.
  pose proof (sibling_index _ _ HI) as Hjl.
  pose proof (file_field_not_cleared _ _ _ _ HI Hi) as Hnc.
  pose proof HI as (Hn & (x & Hl & Hx) & Hl' & (s & Hj) & Hj').
  assert (Hij : i <> j).
  { intros Ej. destruct (inv_sibling _ _ _ _ HI Hi Ej) as (-> & s' & ->).
    rewrite Hnf in Hf. discriminate. }
  assert (Hcl : nth_error (clear_sibling name cur) l = nth_error cur l).
  { destruct (nth_clear_sibling name cur l) as [H|[H _]];
      [exact H | contradiction]. }
  assert (Hci : exists w, nth_error (clear_sibling name cur) i =
                          Some (name, w)).
  { destruct (nth_clear_sibling name cur i)
      as [H|(_ & sn & sf & H1 & _ & H2)].
    - rewrite H. eauto.
    - rewrite Hi in H1. inversion H1; subst. eauto. }
  destruct Hci as [w Hci].
  assert (Hcj : exists s', nth_error (clear_sibling name cur) j =
                           Some (base, VString ts s') /\
                           (i = l \/ l < i -> s' = "")).
  { destruct (Nat.eq_dec i l) as [E|E].
    - subst i. rewrite Hl in Hi. inversion Hi; subst.
      exists "". split; [|reflexivity].
      now apply clear_at_file with (s := s).
    - destruct (nth_clear_sibling name cur j)
        as [H|(_ & sn & sf & H1 & _ & H2)].
      + rewrite H. exists s. split; [exact Hj|].
        intros [E'|E']; [contradiction|].
        specialize (Hj' E'). rewrite Hj in Hj'. now inversion Hj'.
      + rewrite Hj in H1. inversion H1; subst. rewrite H2.
        exists "". split; [reflexivity | intros _; reflexivity]. }
  destruct Hcj as (s' & Hcj & Hs').
  split; [|split; [|split; [|split]]].
  - rewrite <- Hn, <- (map_fst_clear_sibling name cur).
    eapply map_fst_set_nth; eauto.
  - rewrite nth_error_set_nth.
    destruct (Nat.eqb_spec i l) as [E|E].
    + rewrite Hcl, Hl. subst i. rewrite Hl in Hi. inversion Hi; subst.
      exists (SetString v file). split; [reflexivity|].
      unfold SetString. simpl. exact Hx.
    + rewrite Hcl. eauto.
  - intros Hlt. rewrite nth_error_set_nth.
    destruct (Nat.eqb_spec i l) as [E|E].
    + rewrite Hcl, Hl. subst i. rewrite Hl in Hi. inversion Hi; subst.
      unfold SetString. now rewrite Hx.
    + rewrite Hcl. apply Hl'. lia.
  - exists s'. rewrite nth_error_set_nth.
    destruct (Nat.eqb_spec i j); [contradiction | exact Hcj].
  - intros Hlt. rewrite nth_error_set_nth.
    destruct (Nat.eqb_spec i j); [contradiction|].
    rewrite Hcj, Hs'; [reflexivity|]. lia.
Qed.

End FileAndSibling.

(** X5.  In a struct the walker can set, a string field [base ++ "File"]
    that is not excluded holds the given string when [setFile] returns,
    and its sibling [base], a value of string kind (plain or of a named
    string type) that is not itself file-like, is empty, wherever the two
    fields stand in the struct; this needs that no field named
    [base ++ "FileFile"] is there to clear the file field in its turn. *)
Theorem setFile_file_and_sibling (fuel : nat) (file : string)
    (opts : fields) (pl : place) (t : type) (fs : list (string * value))
    (st : state) (l j : nat) (base : string) (ts : type) (s0 : string)
    (vf v' : value) (st' : state) :
  nth_error fs l = Some ((base ++ "File")%string, vf) ->
  typeOf vf = stringTyp ->
  CanSet pl (base ++ "File") = true ->
  exclude opts (t, (base ++ "File")%string) = false ->
  FieldByName fs base = Some j ->
  nth_error fs j = Some (base, VString ts s0) ->
  Kind ts = KString ->
  is_file opts (t, base) (VString ts s0) = false ->
  FieldByName fs (base ++ "FileFile") = None ->
  setFile fuel file opts pl (VStruct t fs) st = Some (v', st') ->
  exists fs',
    v' = VStruct t fs' /\
    nth_error fs' l =
      Some ((base ++ "File")%string, VString stringTyp file) /\
    nth_error fs' j = Some (base, VString ts "").
Proof.
  intros Hl Hvf Hset Hex Hj0 Hj Hk Hnf0 Hnone H.
  assert (Hnf : forall s, is_file opts (t, base) (VString ts s) = false)
    by (intros s; exact Hnf0).
  destruct fuel as [|fuel]; [discriminate|]. simpl in H.
  assert (Hlen : l < List.length fs) by (apply nth_error_Some; congruence).
  destruct (setFile_fields _ _ _ _ _ _ _ fs st) as [[fs' s1]|] eqn:E;
    [|discriminate].
  inv_some. exists fs'. split; [reflexivity|].
  assert (Hfin : file_sibling_inv fs file l j base ts
                   (0 + List.length fs) fs').
  { apply (setFile_fields_invariant
             (setFile fuel file opts (sub_place pl)) file opts t pl
             (file_sibling_inv fs file l j base ts))
      with (st := st) (st' := st') (fs := fs); auto.
    - intros. eapply inv_skip; eauto.
    - intros. eapply inv_file; eauto.
    - intros. eapply inv_files; eauto.
    - intros. eapply inv_rec; eauto.
    - split; [|split; [|split; [|split]]]; eauto; intros; lia. }
  destruct Hfin as (_ & _ & Hl' & _ & Hj'). split; [apply Hl'|apply Hj'];
    simpl; lia.
Qed.

Lemma setFile_file_and_sibling_witness :
  exists fs',
    fooSetter "" "f" = VStruct fooSetterT fs' /\
    nth_error fs' 1 = Some ("FooFile", VString stringTyp "f") /\
    nth_error fs' 0 = Some ("Foo", VString secretTyp "").
Proof.
  exact (setFile_file_and_sibling 2 "f" no_fields (Cell 0) fooSetterT
           [("Foo", VString secretTyp "<secret>"); ("FooFile", str "");
            ("Extra", str ""); ("Disable", flag false)]
           (init_state foo_heap) 1 0 "Foo" secretTyp "<secret>" (str "")
           (fooSetter "" "f") (init_state foo_heap)
           eq_refl eq_refl eq_refl eq_refl eq_refl eq_refl eq_refl eq_refl
           eq_refl eq_refl).
Defined.

(** ** What [assertFile] reports *)

Section FrameAssert.

Variable want : string.
Variable R : state -> state -> Prop.
Hypothesis R_refl : forall s, R s s.
Hypothesis R_trans : forall s1 s2 s3, R s1 s2 -> R s2 s3 -> R s1 s3.
Hypothesis R_seen : forall a s,
  seen_mem a s = true -> R s (log (Reach a) s).
Hypothesis R_descend : forall a s,
  seen_mem a s = false ->
  R s (log (Descend a) (mark a (log (Reach a) s))).
Hypothesis R_mismatch : forall p got s,
  got <> want -> R s (Errorf (mkFailure p got want) s).

Lemma assert_strings_mismatch es : forall path j s,
  R s (snd (assert_strings path want j es s)).
Proof.
  induction es as [|e es IH]; simpl; intros path j s.
  - apply R_refl.
  - destruct (String.eqb (String_of e) want) eqn:Ee; [apply IH|].
    apply String.eqb_neq in Ee.
    match goal with
    | |- context [assert_strings ?p ?w ?j ?es ?s1] =>
        specialize (IH p j s1);
        destruct (assert_strings p w j es s1) as [b s2]
    end.
    simpl in *. eapply R_trans; [apply R_mismatch; exact Ee | exact IH].
Qed.

Lemma assertFile_fields_mismatch Rec path opts typ pl :
  (forall p v s b s', Rec p v s = Some (b, s') -> R s s') ->
  forall fs s b s',
    assertFile_fields Rec path want opts typ pl fs s = Some (b, s') ->
    R s s'.
Proof.
  intros Hrec. induction fs as [|[name vf] fs IH]; simpl; intros s b s' H.
  - inv_some. apply R_refl.
  - destruct (negb (CanSet pl name) || exclude opts (typ, name)); [eauto|].
    destruct (is_file opts (typ, name) vf).
    { destruct (String.eqb (String_of vf) want) eqn:Ee; [eauto|].
      apply String.eqb_neq in Ee.
      inv_some. eapply R_trans; [apply R_mismatch; exact Ee | eauto]. }
    destruct (is_files opts (typ, name) vf).
    { match type of H with
      | context [assert_strings ?p ?w ?j ?es ?s1] =>
          pose proof (assert_strings_mismatch es p j s1) as Hs;
          destruct (assert_strings p w j es s1) as [b1 s1']
      end.
      inv_some. simpl in Hs. eauto. }
    inv_some. eauto.
Qed.

Lemma assertFile_mismatch Sprint fuel : forall path pl val opts s b s',
  assertFile Sprint fuel path pl val want opts s = Some (b, s') -> R s s'.
Proof.
  induction fuel as [|fuel IH]; simpl; intros path pl val opts s b s' H;
    [discriminate|].
  destruct (isNil val); [inv_some; apply R_refl|].
  destruct val as [t x|t x|t [a|]|t fs|t [es|]|t es|t [kvs|]|t [x|]|t x];
    try (inv_some; apply R_refl).
  - destruct (seen_mem a (log (Reach a) s)) eqn:Hs.
    + inv_some. now apply R_seen.
    + destruct (nth_error _ a).
      * eapply R_trans; [apply (R_descend a s Hs) | eauto].
      * inv_some. now apply R_descend.
  - eapply assertFile_fields_mismatch; [|exact H]. cbv beta; intros; eauto.
  - eapply (assert_elems_R R R_refl R_trans); [|exact H].
    cbv beta; intros; eauto.
  - eapply (assert_elems_R R R_refl R_trans); [|exact H].
    cbv beta; intros; eauto.
  - eapply (assert_entries_R R R_refl R_trans); [|exact H].
    cbv beta; intros; eauto.
  - eauto.
Qed.

End FrameAssert.

Lemma reports_refl want s : reports want s s.
Proof. exists []. split; [now rewrite app_nil_r | constructor]. Qed.

Lemma reports_trans want s1 s2 s3 :
  reports want s1 s2 -> reports want s2 s3 -> reports want s1 s3.
Proof.
  intros (f1 & E1 & F1) (f2 & E2 & F2). exists (f1 ++ f2). split.
  - now rewrite E2, E1, app_assoc.
  - apply Forall_app. auto.
Qed.

(** X6.  Every failure [AssertFile] reports is a real mismatch on the
    expected path: it wants the path that was given and it found a value
    different from it.  A field that holds the expected path is never
    reported. *)
Theorem AssertFile_reports_mismatches (Sprint : value -> string)
    (fuel : nat) (h : list value) (config : value) (path : string)
    (options : list FieldOption) (b : bool) (st : state) :
  AssertFile Sprint fuel h config path options = Some (b, st) ->
  Forall (fun f => fwant f = path /\ fgot f <> path) (errs st).
Proof.
  unfold AssertFile. intros H.
  apply (assertFile_mismatch path (reports path)) in H.
  - destruct H as (fs & E & F). simpl in E. now rewrite E.
  - apply reports_refl.
  - apply reports_trans.
  - intros a s _. exists []. simpl. split; [now rewrite app_nil_r|constructor].
  - intros a s _. exists []. simpl. split; [now rewrite app_nil_r|constructor].
  - intros p got s Hne. exists [mkFailure p got path]. simpl.
    split; [reflexivity|]. constructor; [auto | constructor].
Qed.

Lemma AssertFile_reports_mismatches_witness :
  exists b st,
    AssertFile String_of 10 four_heap four_config absPath [] = Some (b, st) /\
    Forall (fun f => fwant f = absPath /\ fgot f <> absPath) (errs st).
Proof.
  eexists. eexists. split.
  - vm_compute. reflexivity.
  - eapply (AssertFile_reports_mismatches String_of 10 four_heap
              four_config absPath []).
    vm_compute. reflexivity.
Defined.

(** ** Calls made by [setDirectory] *)

Lemma setDirectory_capability_trace implements fuel dir pl val s s' :
  isNil val = false ->
  setDirectory implements fuel dir pl val s = Some s' ->
  exists evs,
    trace s' = trace (call_capability implements pl val s) ++ evs.
Proof.
  intros Hnil H. destruct fuel as [|fuel]; [discriminate|].
  simpl in H. rewrite Hnil in H.
  set (sc := call_capability implements pl val s) in *. clearbody sc.
  assert (Hext : ext sc s'); [|now destruct Hext as (_ & _ & He & _)].
  assert (Hrec : forall pl0 v s0 s1,
             setDirectory implements fuel dir pl0 v s0 = Some s1 ->
             ext s0 s1)
    by (intros; eapply setDirectory_ext; eassumption).
  destruct val as [t x|t x|t [a|]|t fs|t [es|]|t es|t [kvs|]|t [x|]|t x];
    try (inv_some; apply ext_refl).
  - destruct (seen_mem a (log (Reach a) sc)) eqn:Hs.
    + inv_some. now apply ext_seen.
    + destruct (nth_error _ a).
      * eapply ext_trans; [apply (ext_descend a sc Hs) | eauto].
      * inv_some. now apply ext_descend.
  - eapply (setDirectory_fields_R ext ext_refl ext_trans); [|exact H].
    apply Hrec.
  - eapply (dir_elems_R ext ext_refl ext_trans); [|exact H]. apply Hrec.
  - eapply (dir_elems_R ext ext_refl ext_trans); [|exact H]. apply Hrec.
  - eapply (dir_entries_R ext ext_refl ext_trans); [|exact H]. apply Hrec.
  - eauto.
Qed.



(** ** What [setFile] writes to *)

Section FrameBracket.

(** A preorder that the walk respects when a write through a pointer is
    taken together with the descent it ends. *)
Variable R : state -> state -> Prop.
Hypothesis R_refl : forall s, R s s.
Hypothesis R_trans : forall s1 s2 s3, R s1 s2 -> R s2 s3 -> R s1 s3.
Hypothesis R_seen : forall a s,
  seen_mem a s = true -> R s (log (Reach a) s).
Hypothesis R_descend : forall a s,
  seen_mem a s = false ->
  R s (log (Descend a) (mark a (log (Reach a) s))).
Hypothesis R_store : forall a v s s2,
  seen_mem a s = false ->
  R (log (Descend a) (mark a (log (Reach a) s))) s2 ->
  R s (store a v s2).

Lemma setFile_bracket fuel : forall file opts pl val s v' s',
  setFile fuel file opts pl val s = Some (v', s') -> R s s'.
Proof.
  induction fuel as [|fuel IH]; simpl; intros file opts pl val s v' s' H;
    [discriminate|].
  destruct (isNil val); [inv_some; apply R_refl|].
  destruct val as [t x|t x|t [a|]|t fs|t [es|]|t es|t [kvs|]|t [x|]|t x];
    try (inv_some; apply R_refl).
  - destruct (seen_mem a (log (Reach a) s)) eqn:Hs.
    + inv_some. now apply R_seen.
    + destruct (nth_error _ a).
      * inv_some. apply R_store; [exact Hs|]. eapply IH; eassumption.
      * inv_some. now apply R_descend.
  - inv_some. eapply (setFile_fields_R R R_refl R_trans); [|eassumption].
    intros; eauto.
  - inv_some. eapply (walk_elems_R R R_refl R_trans); [|eassumption].
    intros; eauto.
  - inv_some. eapply (walk_elems_R R R_refl R_trans); [|eassumption].
    intros; eauto.
  - inv_some. eapply (walk_entries_R R R_refl R_trans); [|eassumption].
    intros; eauto.
  - inv_some. eauto.
Qed.

End FrameBracket.

Lemma only_new_refl s : only_new s s.
Proof. repeat split; auto using incl_refl. Qed.

Lemma only_new_trans s1 s2 s3 :
  only_new s1 s2 -> only_new s2 s3 -> only_new s1 s3.
Proof.
  intros (I1 & L1 & H1) (I2 & L2 & H2). split; [|split].
  - eauto using incl_tran.
  - congruence.
  - intros a Ha. rewrite H2, H1; auto.
    + destruct Ha as [Ha|Ha]; auto.
    + destruct Ha as [Ha|Ha]; auto.
Qed.

Lemma only_new_store a v s s2 :
  seen_mem a s = false ->
  only_new (log (Descend a) (mark a (log (Reach a) s))) s2 ->
  only_new s (store a v s2).
Proof.
  intros Hs (I & L & H). apply seen_mem_notin in Hs.
  cbn [heap seen store log mark] in *.
  split; [|split]; cbn [heap seen store log mark].
  - intros b Hb. apply I. now right.
  - now rewrite set_nth_length.
  - intros b Hb. rewrite nth_error_set_nth.
    destruct (Nat.eqb_spec a b) as [->|Hne].
    + exfalso. destruct Hb as [Hb|Hb]; [contradiction|].
      apply Hb, I. now left.
    + apply H. destruct Hb as [Hb|Hb]; auto. left. now right.
Qed.

Lemma setFile_only_new fuel file opts pl val s v' s' :
  setFile fuel file opts pl val s = Some (v', s') -> only_new s s'.
Proof.
  apply (setFile_bracket only_new only_new_refl only_new_trans).
  - intros a s0 _. repeat split; simpl; auto using incl_refl.
  - intros a s0 _. repeat split; simpl; auto using incl_tl, incl_refl.
  - apply only_new_store.
Qed.

Lemma setFile_seen_reached fuel file opts pl val s v' s' :
  setFile fuel file opts pl val s = Some (v', s') ->
  (forall a, In a (seen s) -> 0 < reaches a (trace s)) ->
  (forall a, In a (seen s') -> 0 < reaches a (trace s')).
Proof.
  apply (setFile_R
           (fun s s' =>
              (forall a, In a (seen s) -> 0 < reaches a (trace s)) ->
              (forall a, In a (seen s') -> 0 < reaches a (trace s')))).
  - auto.
  - auto.
  - intros a s0 _ H b Hb. cbn [seen trace log] in *.
    rewrite reaches_snoc. specialize (H b Hb). lia.
  - intros a s0 _ H b Hb. cbn [seen trace log mark] in *.
    rewrite !reaches_snoc. cbn [is_reach].
    destruct Hb as [<-|Hb].
    + rewrite Nat.eqb_refl. lia.
    + specialize (H b Hb). lia.
  - intros a v s0 H b Hb. cbn [seen trace store] in *. auto.
Qed.

(** X8.  [SetFile] allocates nothing and writes only to objects it has
    descended through: the heap keeps its size, every object that is not in
    [seen] when the walk ends is as it was, and every object in [seen] was
    met by the walk through a pointer. *)
Theorem SetFile_writes_only_visited (fuel : nat) (h : list value)
    (config : value) (path : string) (options : list FieldOption)
    (v : value) (st : state) :
  SetFile fuel h config path options = Some (v, st) ->
  List.length (heap st) = List.length h /\
  (forall a, ~ In a (seen st) -> nth_error (heap st) a = nth_error h a) /\
  (forall a, In a (seen st) -> 0 < reaches a (trace st)).
Proof.
  unfold SetFile. intros H.
  pose proof (setFile_only_new _ _ _ _ _ _ _ _ H) as (_ & L & Hn).
  split; [exact L|]. split; [intros a Ha; apply Hn; auto|].
  apply (setFile_seen_reached _ _ _ _ _ _ _ _ H).
  intros a [].
Qed.

Lemma SetFile_writes_only_visited_witness :
  exists v st,
    SetFile 10 hidden_heap hidden_config "f" [] = Some (v, st) /\
    nth_error (heap st) 1 = nth_error hidden_heap 1.
Proof.
  eexists. eexists. split; [vm_compute; reflexivity|].
  refine (proj1 (proj2 (SetFile_writes_only_visited 10 hidden_heap
                          hidden_config "f" [] _ _ _)) 1 _).
  - vm_compute. reflexivity.
  - simpl. intros [H|[]]. discriminate H.
Defined.



(** ** [AssertFile] after [SetFile] *)

Lemma settled_struct D file opts pl t fs :
  settled D file opts pl (VStruct t fs) <->
  Forall (field_ok file opts pl t (settled D file opts (sub_place pl))) fs.
Proof.
  simpl. induction fs as [|[name x] fs IH].
  - split; auto.
  - rewrite IH. split.
    + intros [H1 H2]. constructor; auto.
    + intros H. inversion H; subst. auto.
Qed.

Lemma settled_slice D file opts pl t es :
  settled D file opts pl (VSlice t (Some es)) <->
  Forall (settled D file opts Inside) es.
Proof.
  simpl. induction es as [|x es IH].
  - split; auto.
  - rewrite IH. split.
    + intros [H1 H2]. constructor; auto.
    + intros H. inversion H; subst. auto.
Qed.

Lemma settled_array D file opts pl t es :
  settled D file opts pl (VArray t es) <->
  Forall (settled D file opts (sub_place pl)) es.
Proof.
  simpl. induction es as [|x es IH].
  - split; auto.
  - rewrite IH. split.
    + intros [H1 H2]. constructor; auto.
    + intros H. inversion H; subst. auto.
Qed.

Lemma settled_map D file opts pl t kvs :
  settled D file opts pl (VMap t (Some kvs)) <->
  Forall (fun kv => settled D file opts Unaddressable (fst kv) /\
                    settled D file opts Unaddressable (snd kv)) kvs.
Proof.
  simpl. induction kvs as [|[k x] kvs IH].
  - split; auto.
  - rewrite IH. split.
    + intros (H1 & H2 & H3). constructor; auto.
    + intros H. inversion H; subst. simpl in *. tauto.
Qed.

Lemma clean_refl s : clean s true s.
Proof. repeat split. Qed.

Lemma clean_and s b1 s1 b2 s2 :
  clean s b1 s1 -> clean s1 b2 s2 -> clean s (b1 && b2) s2.
Proof.
  intros (-> & E1 & H1) (-> & E2 & H2). repeat split; congruence.
Qed.

Lemma assert_strings_clean file es : forall path j s,
  Forall (fun e => String_of e = file) es ->
  assert_strings path file j es s = (true, s).
Proof.
  induction es as [|e es IH]; intros path j s H; simpl; auto.
  inversion H; subst. rewrite String.eqb_refl. auto.
Qed.

Section AssertSettled.

Variable Sprint : value -> string.
Variables (D : list addr) (file : string) (opts : fields).

(** The walker that the loops call finds nothing on settled values. *)
Variable Rec : string -> value -> state -> option (bool * state).
Variable pl' : place.
Hypothesis Rec_clean : forall p v s b s',
  settled D file opts pl' v -> settled_heap D file opts (heap s) ->
  Rec p v s = Some (b, s') -> clean s b s'.

Lemma assert_elems_clean es : forall path i s b s',
  Forall (settled D file opts pl') es ->
  settled_heap D file opts (heap s) ->
  assert_elems Rec path i es s = Some (b, s') -> clean s b s'.
Proof.
  induction es as [|e es IH]; intros path i s b s' He Hh H;
    cbn [assert_elems] in H.
  - inv_some. apply clean_refl.
  - inversion He; subst. inv_some.
    pose proof (Rec_clean _ _ _ _ _ H2 Hh E) as C1.
    eapply clean_and; [exact C1|].
    eapply IH; eauto. destruct C1 as (_ & _ & ->). exact Hh.
Qed.

Lemma assertFile_fields_clean path typ pl fs : forall s b s',
  Forall (field_ok file opts pl typ (settled D file opts pl')) fs ->
  settled_heap D file opts (heap s) ->
  assertFile_fields Rec path file opts typ pl fs s = Some (b, s') ->
  clean s b s'.
Proof.
  induction fs as [|[name vf] fs IH]; intros s b s' Hf Hh H;
    cbn [assertFile_fields] in H.
  - inv_some. apply clean_refl.
  - inversion Hf as [|? ? Hok Hrest]; subst. unfold field_ok in Hok.
    destruct (negb (CanSet pl name) || exclude opts (typ, name)); [eauto|].
    destruct (is_file opts (typ, name) vf).
    { rewrite Hok, String.eqb_refl in H. eauto. }
    destruct (is_files opts (typ, name) vf).
    { rewrite (assert_strings_clean file _ _ _ _ Hok) in H.
      destruct (assertFile_fields _ _ _ _ _ _ fs s) as [[ok s2]|] eqn:E;
        [|discriminate].
      inv_some. apply (IH _ _ _ Hrest Hh E). }
    inv_some.
    pose proof (Rec_clean _ _ _ _ _ Hok Hh E) as C1.
    eapply clean_and; [exact C1|].
    eapply IH; eauto. destruct C1 as (_ & _ & ->). exact Hh.
Qed.

Lemma assert_entries_clean kvs : forall path s b s',
  Forall (fun kv => settled D file opts pl' (fst kv) /\
                    settled D file opts pl' (snd kv)) kvs ->
  settled_heap D file opts (heap s) ->
  assert_entries Sprint Rec path kvs s = Some (b, s') -> clean s b s'.
Proof.
  induction kvs as [|[k x] kvs IH]; intros path s b s' He Hh H;
    cbn [assert_entries] in H.
  - inv_some. apply clean_refl.
  - inversion He as [|? ? [Hk Hx] Hrest]; subst. simpl in Hk, Hx. inv_some.
    pose proof (Rec_clean _ _ _ _ _ Hk Hh E) as C1.
    assert (Hh1 : settled_heap D file opts (heap s0))
      by (destruct C1 as (_ & _ & ->); exact Hh).
    pose proof (Rec_clean _ _ _ _ _ Hx Hh1 E0) as C2.
    assert (Hh2 : settled_heap D file opts (heap s1))
      by (destruct C2 as (_ & _ & ->); exact Hh1).
    eapply clean_and; [eapply clean_and; eassumption|].
    eapply IH; eauto.
Qed.

End AssertSettled.

Lemma assertFile_settled Sprint D file opts fuel :
  forall path pl v s b s',
    settled D file opts pl v -> settled_heap D file opts (heap s) ->
    assertFile Sprint fuel path pl v file opts s = Some (b, s') ->
    clean s b s'.
Proof.
  induction fuel as [|fuel IH]; intros path pl v s b s' Hv Hh H;
    [discriminate|].
  cbn [assertFile] in H.
  destruct (isNil v); [inv_some; apply clean_refl|].
  destruct v as [t x|t x|t [a|]|t fs|t [es|]|t es|t [kvs|]|t [x|]|t x];
    try (inv_some; apply clean_refl).
  - cbv zeta in H. destruct (seen_mem a (log (Reach a) s)).
    + inv_some. repeat split.
    + cbn [heap log mark] in H.
      destruct (nth_error (heap s) a) as [target|] eqn:Ea.
      * simpl in Hv.
        apply IH in H; [| exact (Hh a target Hv Ea) | exact Hh].
        destruct H as (-> & E1 & E2). repeat split; auto.
      * inv_some. repeat split.
  - apply settled_struct in Hv.
    eapply (assertFile_fields_clean D file opts _ (sub_place pl));
      [|exact Hv|exact Hh|exact H].
    cbv beta. intros. eapply IH; eauto.
  - apply settled_slice in Hv.
    eapply (assert_elems_clean D file opts _ Inside);
      [|exact Hv|exact Hh|exact H].
    cbv beta. intros. eapply IH; eauto.
  - apply settled_array in Hv.
    eapply (assert_elems_clean D file opts _ (sub_place pl));
      [|exact Hv|exact Hh|exact H].
    cbv beta. intros. eapply IH; eauto.
  - apply settled_map in Hv.
    eapply (assert_entries_clean Sprint D file opts _ Unaddressable);
      [|exact Hv|exact Hh|exact H].
    cbv beta. intros. eapply IH; eauto.
  - simpl in Hv. eapply IH; eauto.
Qed.

(** ** [SetFile] settles the graph *)

Lemma field_ok_weaken file opts pl t (ok ok' : value -> Prop) f :
  (forall x, ok x -> ok' x) ->
  field_ok file opts pl t ok f -> field_ok file opts pl t ok' f.
Proof.
  intros H. destruct f as [name x]. unfold field_ok.
  destruct (negb (CanSet pl name) || exclude opts (t, name)); auto.
  destruct (is_file opts (t, name) x); auto.
  destruct (is_files opts (t, name) x); auto.
Qed.

Lemma settled_mono file opts D D' v :
  incl D D' -> forall pl, settled D file opts pl v -> settled D' file opts pl v.
Proof.
  intros Hi.
  induction v as [t s|t n|t p|t x|t fs IH|t es IH|t es IH|t kvs IH|t o IH]
    using value_ind_nested; intros pl H; try exact I.
  - destruct p as [a|]; simpl in *; auto.
  - apply settled_struct in H. apply settled_struct.
    rewrite Forall_forall in *. intros [name x] Hin.
    specialize (H _ Hin). specialize (IH _ Hin). simpl in IH.
    revert H. unfold field_ok.
    destruct (negb (CanSet pl name) || exclude opts (t, name)); auto.
    destruct (is_file opts (t, name) x); auto.
    destruct (is_files opts (t, name) x); auto.
  - destruct es as [es|]; [|exact I].
    apply settled_slice in H. apply settled_slice.
    rewrite Forall_forall in *. intros x Hin. apply IH; auto.
  - apply settled_array in H. apply settled_array.
    rewrite Forall_forall in *. intros x Hin. apply IH; auto.
  - destruct kvs as [kvs|]; [|exact I].
    apply settled_map in H. apply settled_map.
    rewrite Forall_forall in *. intros kv Hin.
    destruct (IH _ Hin) as [I1 I2]. destruct (H _ Hin) as [H1 H2]. auto.
  - destruct o as [x|]; [|exact I]. simpl in *. auto.
Qed.

Lemma setFile_typeOf fuel file opts pl v s v1 s1 :
  setFile fuel file opts pl v s = Some (v1, s1) -> typeOf v1 = typeOf v.
Proof.
  destruct fuel as [|fuel]; [discriminate|]. simpl.
  destruct (isNil v); [intros H; now inv_some|].
  destruct v as [t x|t x|t [a|]|t fs|t [es|]|t es|t [kvs|]|t [x|]|t x];
    intros H; try (now inv_some).
  destruct (seen_mem a (log (Reach a) s)); [now inv_some|].
  destruct (nth_error _ a); now inv_some.
Qed.

Lemma no_clash_fields_spec opts t fs :
  no_clash_fields opts t fs = true ->
  forall i m f g,
    nth_error fs i = Some f ->
    FieldByName fs (TrimSuffix (fst f) "File") = Some m ->
    m <> i -> nth_error fs m = Some g ->
    file_class opts t f = true -> file_class opts t g = true -> False.
Proof.
  unfold no_clash_fields. rewrite forallb_forall.
  intros H i m f g Hi Hm Hne Hg Hf Hgc.
  assert (Hin : In i (seq 0 (List.length fs))).
  { apply in_seq. split; [lia|]. simpl. apply nth_error_Some. congruence. }
  specialize (H i Hin). rewrite Hi, Hf, Hm, Hg, Hgc in H.
  apply Nat.eqb_neq in Hne. rewrite Hne in H. discriminate H.
Qed.

Lemma no_clash_string opts t s : no_clash opts (VString t s) = true.
Proof. reflexivity. Qed.

Lemma signature_nth fs fs' k n v :
  signature fs = signature fs' -> nth_error fs k = Some (n, v) ->
  exists v', nth_error fs' k = Some (n, v') /\ typeOf v' = typeOf v.
Proof.
  unfold signature. intros E H.
  pose proof (map_nth_error (fun f => (fst f, typeOf (snd f))) k fs H) as H1.
  rewrite E in H1. simpl in H1.
  destruct (nth_error fs' k) as [[n' v']|] eqn:E'.
  - rewrite (map_nth_error _ k fs' E') in H1. simpl in H1.
    inversion H1; subst. eauto.
  - apply nth_error_None in E'.
    assert (nth_error (map (fun f => (fst f, typeOf (snd f))) fs') k = None).
    { apply nth_error_None. now rewrite length_map. }
    congruence.
Qed.

Lemma signature_names fs fs' :
  signature fs = signature fs' -> map fst fs = map fst fs'.
Proof.
  unfold signature. intros E.
  apply (f_equal (map fst)) in E. rewrite !map_map in E. exact E.
Qed.

Lemma signature_set_nth fs : forall i n w,
  nth_error (signature fs) i = Some (n, typeOf w) ->
  signature (set_nth i (n, w) fs) = signature fs.
Proof.
  unfold signature.
  induction fs as [|[m x] fs IH]; intros [|i] n w H; simpl in *;
    try discriminate.
  - now inversion H.
  - f_equal. eauto.
Qed.

Lemma signature_at fs i n v :
  nth_error fs i = Some (n, v) ->
  nth_error (signature fs) i = Some (n, typeOf v).
Proof.
  intros H. unfold signature.
  now rewrite (map_nth_error (fun f => (fst f, typeOf (snd f))) i fs H).
Qed.

Lemma signature_clear_sibling name fs :
  signature (clear_sibling name fs) = signature fs.
Proof.
  unfold clear_sibling. destruct (FieldByName fs _) as [j|]; auto.
  destruct (nth_error fs j) as [[sn sf]|] eqn:E; auto.
  destruct (kind_eqb _ _); auto.
  apply signature_set_nth. simpl. now apply signature_at.
Qed.

Lemma signature_length fs fs' :
  signature fs = signature fs' -> List.length fs = List.length fs'.
Proof.
  intros E. apply (f_equal (@List.length _)) in E. unfold signature in E.
  now rewrite !length_map in E.
Qed.

Lemma is_file_typeOf opts key v v' :
  typeOf v = typeOf v' -> is_file opts key v = is_file opts key v'.
Proof. unfold is_file. now intros ->. Qed.

Lemma is_files_typeOf opts key v v' :
  typeOf v = typeOf v' -> is_files opts key v = is_files opts key v'.
Proof. unfold is_files. now intros ->. Qed.

Lemma file_class_intro opts t pl name v v' :
  negb (CanSet pl name) || exclude opts (t, name) = false ->
  is_file opts (t, name) v = true -> typeOf v' = typeOf v ->
  file_class opts t (name, v') = true.
Proof.
  intros Hs Hf Ht. unfold file_class. simpl.
  rewrite (is_file_typeOf _ _ _ _ Ht), Hf.
  apply orb_false_iff in Hs. destruct Hs as [Hc He]. rewrite He.
  apply negb_false_iff in Hc. unfold CanSet in Hc.
  apply andb_true_iff in Hc. destruct Hc as [_ ->]. reflexivity.
Qed.

Lemma unseen_ok_only_new opts s s1 :
  unseen_ok opts s -> only_new s s1 -> unseen_ok opts s1.
Proof.
  intros H (I & _ & Hn) a x Ha Hx. rewrite Hn in Hx by auto.
  eapply H; eauto.
Qed.

Lemma new_settled_refl file opts s : new_settled file opts s s.
Proof. intros a x H1 H2. contradiction. Qed.

Lemma new_settled_trans file opts s s1 s2 :
  only_new s s1 -> only_new s1 s2 ->
  new_settled file opts s s1 -> new_settled file opts s1 s2 ->
  new_settled file opts s s2.
Proof.
  intros (I1 & _ & _) (I2 & _ & Hn) N1 N2 a x Ha Hna Hx.
  destruct (in_dec Nat.eq_dec a (seen s1)) as [Hin|Hout].
  - rewrite Hn in Hx by auto.
    eapply settled_mono; [exact I2|]. now apply N1.
  - now apply N2.
Qed.

Section Settles.

Variables (file : string) (opts : fields).

Lemma walk_elems_settles rec pl :
  settles file opts pl rec ->
  forall es s es' s1,
    walk_elems rec es s = Some (es', s1) ->
    forallb (no_clash opts) es = true -> unseen_ok opts s ->
    only_new s s1 /\ Forall (settled (seen s1) file opts pl) es' /\
    new_settled file opts s s1.
Proof.
  intros Hrec. induction es as [|e es IH]; simpl; intros s es' s1 H Hn Hu.
  - inv_some. auto using only_new_refl, new_settled_refl.
  - apply andb_true_iff in Hn. destruct Hn as [Hn1 Hn2].
    destruct (rec e s) as [[e1 sa]|] eqn:E1; [|discriminate].
    destruct (walk_elems rec es sa) as [[es1 sb]|] eqn:E2; [|discriminate].
    inv_some.
    destruct (Hrec _ _ _ _ E1 Hn1 Hu) as (O1 & _ & S1 & N1).
    destruct (IH _ _ _ E2 Hn2 (unseen_ok_only_new _ _ _ Hu O1))
      as (O2 & S2 & N2).
    split; [eapply only_new_trans; eauto|].
    split; [|eapply new_settled_trans; eauto].
    constructor; auto. eapply settled_mono; [apply O2 | exact S1].
Qed.

Lemma walk_entries_settles rec :
  settles file opts Unaddressable rec ->
  forall kvs s kvs' s1,
    walk_entries rec kvs s = Some (kvs', s1) ->
    forallb (fun kv => match kv with
                       | (k, x) => no_clash opts k && no_clash opts x
                       end) kvs = true ->
    unseen_ok opts s ->
    only_new s s1 /\
    Forall (fun kv => settled (seen s1) file opts Unaddressable (fst kv) /\
                      settled (seen s1) file opts Unaddressable (snd kv))
           kvs' /\
    new_settled file opts s s1.
Proof.
  intros Hrec. induction kvs as [|[k x] kvs IH]; simpl;
    intros s kvs' s1 H Hn Hu.
  - inv_some. auto using only_new_refl, new_settled_refl.
  - apply andb_true_iff in Hn. destruct Hn as [Hn1 Hn2].
    apply andb_true_iff in Hn1. destruct Hn1 as [Hk Hx].
    destruct (rec k s) as [[k1 sa]|] eqn:E1; [|discriminate].
    destruct (rec x sa) as [[x1 sb]|] eqn:E2; [|discriminate].
    destruct (walk_entries rec kvs sb) as [[kvs1 sc]|] eqn:E3;
      [|discriminate].
    inv_some.
    destruct (Hrec _ _ _ _ E1 Hk Hu) as (O1 & _ & S1 & N1).
    pose proof (unseen_ok_only_new _ _ _ Hu O1) as Hu1.
    destruct (Hrec _ _ _ _ E2 Hx Hu1) as (O2 & _ & S2 & N2).
    pose proof (unseen_ok_only_new _ _ _ Hu1 O2) as Hu2.
    destruct (IH _ _ _ E3 Hn2 Hu2) as (O3 & S3 & N3).
    pose proof (only_new_trans _ _ _ O1 O2) as O12.
    pose proof (only_new_trans _ _ _ O2 O3) as O23.
    split; [eapply only_new_trans; eauto|].
    split.
    + constructor; auto. simpl. split.
      * eapply settled_mono; [apply O23 | exact S1].
      * eapply settled_mono; [apply O3 | exact S2].
    + eapply new_settled_trans; [exact O12 | exact O3 | | exact N3].
      apply (new_settled_trans _ _ s sa sb); auto.
Qed.

Variables (t : type) (pl : place)
          (rec : value -> state -> option (value * state))
          (fs0 : list (string * value)).
Hypothesis Hrec : settles file opts (sub_place pl) rec.
Hypothesis Hnc : no_clash_fields opts t fs0 = true.

Local Abbreviation ok_at s :=
  (field_ok file opts pl t (settled (seen s) file opts (sub_place pl))).

Lemma fields_done i cur s :
  List.length cur <= i ->
  (forall k f, k < i -> nth_error cur k = Some f -> ok_at s f) ->
  Forall (ok_at s) cur.
Proof.
  intros Hl Hb. apply Forall_forall. intros f Hin.
  destruct (In_nth_error _ _ Hin) as [k Hk].
  apply (Hb k); auto.
  assert (k < List.length cur) by (apply nth_error_Some; congruence). lia.
Qed.

Lemma setFile_fields_settles : forall n i cur s gs s1,
  setFile_fields rec file opts t pl n i cur s = Some (gs, s1) ->
  List.length cur <= i + n ->
  signature cur = signature fs0 ->
  (forall k f, k < i -> nth_error cur k = Some f -> ok_at s f) ->
  (forall k f, i <= k -> nth_error cur k = Some f ->
               no_clash opts (snd f) = true) ->
  unseen_ok opts s ->
  only_new s s1 /\ signature gs = signature fs0 /\
  Forall (ok_at s1) gs /\ new_settled file opts s s1.
Proof.
  induction n as [|n IH]; intros i cur s gs s1 H Hl Hsig Hb Hc Hu.
  { simpl in H. inv_some.
    split; [apply only_new_refl|]. split; [exact Hsig|].
    split; [|apply new_settled_refl].
    apply (fields_done i); auto. lia. }
  simpl in H. destruct (nth_error cur i) as [[name vf]|] eqn:Ei.
  2:{ inv_some.
      split; [apply only_new_refl|]. split; [exact Hsig|].
      split; [|apply new_settled_refl].
      apply (fields_done i); auto. now apply nth_error_None. }
  destruct (negb (CanSet pl name) || exclude opts (t, name)) eqn:Hskip.
  { apply IH in H; auto; [lia| |].
    - intros k f Hk Hf. destruct (Nat.eq_dec k i) as [->|Hne].
      + rewrite Ei in Hf. inversion Hf; subst f.
        unfold field_ok. now rewrite Hskip.
      + apply (Hb k); auto. lia.
    - intros k f Hk. apply Hc. lia. }
  destruct (is_file opts (t, name) vf) eqn:Hfile.
  { apply IH in H; auto.
    - rewrite set_nth_length, clear_sibling_length. lia.
    - rewrite signature_set_nth.
      + now rewrite signature_clear_sibling.
      + rewrite signature_clear_sibling. exact (signature_at _ _ _ _ Ei).
    - intros k f Hk Hf. rewrite nth_error_set_nth in Hf.
      destruct (Nat.eqb_spec i k) as [<-|Hne].
      + destruct (nth_error (clear_sibling name cur) i); [|discriminate].
        inversion Hf; subst f. unfold field_ok. rewrite Hskip.
        rewrite (is_file_typeOf opts (t, name) (SetString vf file) vf)
          by reflexivity.
        now rewrite Hfile.
      + destruct (nth_clear_sibling name cur k)
          as [E|(Ej & sn & sf & Ek & Hkind & E)]; rewrite E in Hf.
        * apply (Hb k); auto. lia.
        * inversion Hf; subst f. unfold field_ok.
          destruct (negb (CanSet pl sn) || exclude opts (t, sn)) eqn:Hs;
            [exact I|].
          destruct (is_file opts (t, sn) (SetString sf "")) eqn:Hf2.
          { exfalso.
            destruct (signature_nth _ _ _ _ _ Hsig Ei) as (v0 & Ei0 & Ti).
            destruct (signature_nth _ _ _ _ _ Hsig Ek) as (w0 & Ek0 & Tk).
            apply (no_clash_fields_spec opts t fs0 Hnc i k
                     (name, v0) (sn, w0) Ei0).
            - simpl.
              rewrite <- (FieldByName_names cur fs0); auto.
              now apply signature_names.
            - auto.
            - exact Ek0.
            - eapply file_class_intro; eauto.
            - eapply file_class_intro; [exact Hs | exact Hf2 |].
              simpl. exact Tk. }
          destruct (is_files opts (t, sn) (SetString sf "")); simpl; auto.
    - intros k f Hk Hf. rewrite nth_error_set_nth in Hf.
      destruct (Nat.eqb_spec i k) as [<-|Hne]; [lia|].
      destruct (nth_clear_sibling name cur k)
        as [E|(Ej & sn & sf & Ek & Hkind & E)]; rewrite E in Hf.
      + apply (Hc k); auto. lia.
      + now inversion Hf. }
  destruct (is_files opts (t, name) vf) eqn:Hfiles.
  { apply IH in H; auto.
    - rewrite set_nth_length. lia.
    - rewrite signature_set_nth; auto.
      rewrite (signature_at _ _ _ _ Ei). f_equal. f_equal.
      unfold is_files in Hfiles. apply andb_true_iff in Hfiles.
      destruct Hfiles as [Ht _]. apply type_eqb_eq in Ht. now rewrite Ht.
    - intros k f Hk Hf. rewrite nth_error_set_nth in Hf.
      destruct (Nat.eqb_spec i k) as [<-|Hne].
      + rewrite Ei in Hf. inversion Hf; subst f. unfold field_ok.
        rewrite Hskip.
        assert (Ht : typeOf (single_file file) = typeOf vf).
        { unfold is_files in Hfiles. apply andb_true_iff in Hfiles.
          destruct Hfiles as [Ht _]. apply type_eqb_eq in Ht.
          now rewrite Ht. }
        rewrite (is_file_typeOf _ _ _ _ Ht), Hfile.
        rewrite (is_files_typeOf _ _ _ _ Ht), Hfiles.
        simpl. constructor; auto.
      + apply (Hb k); auto. lia.
    - intros k f Hk Hf. rewrite nth_error_set_nth in Hf.
      destruct (Nat.eqb_spec i k) as [<-|Hne]; [lia|].
      apply (Hc k); auto. lia. }
  destruct (rec vf s) as [[vf' sa]|] eqn:Er; [|discriminate].
  destruct (Hrec _ _ _ _ Er (Hc i _ (Nat.le_refl _) Ei) Hu)
    as (O1 & T1 & S1 & N1).
  apply IH in H.
  - destruct H as (O2 & Sg & F2 & N2).
    split; [eapply only_new_trans; eauto|]. split; [exact Sg|].
    split; [exact F2|]. eapply new_settled_trans; eauto.
  - rewrite set_nth_length. lia.
  - rewrite signature_set_nth; auto.
    rewrite (signature_at _ _ _ _ Ei). now rewrite T1.
  - intros k f Hk Hf. rewrite nth_error_set_nth in Hf.
    destruct (Nat.eqb_spec i k) as [<-|Hne].
    + rewrite Ei in Hf. inversion Hf; subst f. unfold field_ok.
      rewrite Hskip.
      rewrite (is_file_typeOf _ _ _ _ T1), Hfile.
      rewrite (is_files_typeOf _ _ _ _ T1), Hfiles.
      exact S1.
    + eapply field_ok_weaken; [|apply (Hb k); auto; lia].
      intros x. apply settled_mono. apply O1.
  - intros k f Hk Hf. rewrite nth_error_set_nth in Hf.
    destruct (Nat.eqb_spec i k) as [<-|Hne]; [lia|].
    apply (Hc k); auto. lia.
  - eapply unseen_ok_only_new; eauto.
Qed.

End Settles.

Lemma settled_nil D file opts pl v :
  isNil v = true -> settled D file opts pl v.
Proof.
  destruct v as [t x|t x|t [a|]|t fs|t [es|]|t es|t [kvs|]|t [x|]|t x];
    simpl; intros H; try exact I; discriminate.
Qed.

Lemma only_new_log e s : only_new s (log e s).
Proof. split; [|split]; simpl; auto using incl_refl. Qed.

Lemma setFile_settles file opts fuel :
  forall pl, settles file opts pl (setFile fuel file opts pl).
Proof.
  induction fuel as [|fuel IH]; intros pl v s v1 s1 H Hn Hu;
    [discriminate|].
  simpl in H.
  destruct (isNil v) eqn:Hnil.
  { inv_some. split; [apply only_new_refl|]. split; [reflexivity|].
    split; [now apply settled_nil | apply new_settled_refl]. }
  destruct v as [t x|t x|t [a|]|t fs|t [es|]|t es|t [kvs|]|t [x|]|t x];
    try discriminate Hnil;
    try (inv_some; split; [apply only_new_refl|]; split; [reflexivity|];
         split; [exact I | apply new_settled_refl]).
  - (* pointer *)
    destruct (seen_mem a (log (Reach a) s)) eqn:Hs.
    + inv_some. split; [apply only_new_log|]. split; [reflexivity|].
      split; [now apply seen_mem_In in Hs|].
      intros b y H1 H2. contradiction.
    + change (seen_mem a s = false) in Hs.
      pose proof (proj1 (seen_mem_notin _ _) Hs) as Hout.
      assert (Hu1 : unseen_ok opts
                      (log (Descend a) (mark a (log (Reach a) s)))).
      { intros b y Hb Hy. apply (Hu b y); auto.
        intros Hin. apply Hb. now right. }
      cbn [heap log mark] in H.
      destruct (nth_error (heap s) a) as [target|] eqn:Ea.
      * destruct (setFile fuel file opts (Cell a) target _)
          as [[target' st2]|] eqn:E; [|discriminate].
        inv_some.
        destruct (IH (Cell a) _ _ _ _ E (Hu a target Hout Ea) Hu1)
          as (O & _ & S1 & N1).
        split; [apply only_new_store; assumption|].
        split; [reflexivity|].
        split; [apply O; now left|].
        intros b y Hb Hnb Hy. cbn [heap seen store] in *.
        rewrite nth_error_set_nth in Hy.
        destruct (Nat.eqb_spec a b) as [<-|Hne].
        -- destruct (nth_error (heap st2) a); [|discriminate].
           inversion Hy; subst y. exact S1.
        -- apply N1; auto. intros [Hq|Hq]; auto.
      * inv_some. split.
        { split; [|split]; simpl; auto using incl_tl, incl_refl. }
        split; [reflexivity|]. split; [now left|].
        intros b y Hb Hnb Hy. destruct Hb as [<-|Hb]; [|contradiction].
        cbn [heap log mark] in *. congruence.
  - (* struct *)
    destruct (setFile_fields _ _ _ _ _ _ _ _ _) as [[fs' sa]|] eqn:E;
      [|discriminate].
    inv_some. simpl in Hn. apply andb_true_iff in Hn.
    destruct Hn as [Hn1 Hn2].
    destruct (setFile_fields_settles file opts t pl _ fs (IH _) Hn1
                _ _ _ _ _ _ E) as (O & _ & F & N); auto.
    + intros k f Hk. lia.
    + intros k f _ Hf. rewrite forallb_forall in Hn2.
      specialize (Hn2 f (nth_error_In _ _ Hf)). now destruct f.
    + split; [exact O|]. split; [reflexivity|].
      split; [now apply settled_struct | exact N].
  - (* slice *)
    destruct (walk_elems _ _ _) as [[es' sa]|] eqn:E; [|discriminate].
    inv_some.
    destruct (walk_elems_settles file opts _ Inside (IH _) _ _ _ _ E Hn Hu)
      as (O & F & N).
    split; [exact O|]. split; [reflexivity|].
    split; [now apply settled_slice | exact N].
  - (* array *)
    destruct (walk_elems _ _ _) as [[es' sa]|] eqn:E; [|discriminate].
    inv_some.
    destruct (walk_elems_settles file opts _ (sub_place pl) (IH _)
                _ _ _ _ E Hn Hu) as (O & F & N).
    split; [exact O|]. split; [reflexivity|].
    split; [now apply settled_array | exact N].
  - (* map *)
    destruct (walk_entries _ _ _) as [[kvs' sa]|] eqn:E; [|discriminate].
    inv_some.
    destruct (walk_entries_settles file opts _ (IH _) _ _ _ _ E Hn Hu)
      as (O & F & N).
    split; [exact O|]. split; [reflexivity|].
    split; [now apply settled_map | exact N].
  - (* interface *)
    destruct (setFile fuel file opts Unaddressable x s)
      as [[x' sa]|] eqn:E; [|discriminate].
    inv_some.
    destruct (IH _ _ _ _ _ E Hn Hu) as (O & _ & S1 & N).
    split; [exact O|]. split; [reflexivity|]. split; [exact S1 | exact N].
Qed.


